(* Shallow embedding of SignalSculptor's signal engine
   (src/cpp_server/SignalLib.cpp) and of its transport layer
   (src/cpp_server/service_impl.cpp).

   Numeric model: a C++ [double] is modelled by an exact rational [Q];
   [std::sin] is a section variable [sin] (only assumed to lie in [-1,1]
   where a property needs it); [std::round] rounds half away from zero;
   [static_cast<int>] truncates towards zero; [std::min]/[std::max] are the
   libstdc++ comparisons [(b < a) ? b : a] / [(a < b) ? b : a].
   The wall-clock field [calculation_time_ms] is not modelled.
   An unbounded [for (int i = 0;; i++)] loop that leaves by [break] is a
   fuel-bounded recursion; [loop_fuel] is always enough fuel (lemma
   [adc_loop_fuel_enough] below). *)

From Stdlib Require Import Arith QArith Qround Ascii String List Bool Lia Lqa.
Import ListNotations.
Open Scope Q_scope.

(* ------------------------------------------------------------------ *)
(** * Numeric helpers shared by both translation units *)

Definition Q_of_nat (n : nat) : Q := inject_Z (Z.of_nat n).

(** [a < b] on doubles. *)
Definition Qltb (a b : Q) : bool := negb (Qle_bool b a).

(** [std::round]: half away from zero. *)
Definition std_round (q : Q) : Q :=
  if Qle_bool 0 q then inject_Z (Qfloor (q + (1 # 2)))
  else - inject_Z (Qfloor (- q + (1 # 2))).

(** [static_cast<int>] of a double: truncation towards zero. *)
Definition static_cast_int (q : Q) : Z := Z.quot (Qnum q) (Zpos (Qden q)).

(** libstdc++ [std::min] and [std::max]. *)
Definition std_min (a b : Q) : Q := if Qltb b a then b else a.
Definition std_max (a b : Q) : Q := if Qltb a b then b else a.

(** [constexpr double PI = 3.14159265358979323846;] *)
Definition PI : Q := 314159265358979323846 # 100000000000000000000.

(** Fuel for [for (int i = 0;; i++) { t = i * sample_interval;
    if (t > real_duration) break; ... }]. *)
Definition loop_fuel (sample_interval real_duration : Q) : nat :=
  S (S (Z.to_nat (Qceiling (real_duration / sample_interval)))).

(** A [for (size_t i = 0; i < n; i++) body] whose body may move [i]
    forward ([i += 7]); [body] returns the new [i] before the [i++]. *)
Fixpoint for_loop {St : Type} (fuel n : nat) (body : nat -> St -> nat * St)
    (i : nat) (s : St) : St :=
  match fuel with
  | O => s
  | S fuel' =>
      if Nat.ltb i n then
        let (i', s') := body i s in for_loop fuel' n body (S i') s'
      else s
  end.

(* ------------------------------------------------------------------ *)
(** * SignalLib.h *)

Record Point := mkPoint { x : Q; y : Q }.

Record SignalResult := mkSignalResult {
  input : list Point;
  transmitted : list Point;
  output : list Point }.

(** [SignalResult result;] returned untouched. *)
Definition empty_result : SignalResult := mkSignalResult [] [] [].

Inductive AnalogModulation := AM | FM | PM.

(** The enumerators the implementation file and the wasm binding use. *)
Inductive DigitalModulation := ASK | FSK | PSK.

Inductive LineCoding :=
  NRZ_L | NRZ_I | MANCHESTER | DIFFERENTIAL_MANCHESTER | AMI | PSEUDOTERNARY
| B8ZS | HDB3.

Record PCMConfig := mkPCMConfig {
  sampling_rate : Q; quantization_levels : Z }.

(** [DMConfig::sampling_rate] is [dm_sampling_rate] (field names are
    global in Rocq). *)
Record DMConfig := mkDMConfig {
  dm_sampling_rate : Q; delta_step_size : Q }.

Definition default_point : Point := mkPoint 0 0.

(* ------------------------------------------------------------------ *)
(** * SignalLib.cpp *)

Module Core.

(** [std::lower_bound] with [p.x < t]: the index of the first point whose
    [x] is not below [t] (the base signals are sorted by [x], where the
    binary search and this scan agree). *)
Fixpoint lower_bound (l : list Point) (time : Q) : nat :=
  match l with
  | [] => O
  | p :: r => if Qltb (x p) time then S (lower_bound r time) else O
  end.

Definition get_input_value_at_time (input_signal : list Point) (time : Q) : Q :=
  match input_signal with
  | [] => 0
  | front :: _ =>
      if Qle_bool time (x front) then y front else
      let back := last input_signal front in
      if Qle_bool (x back) time then y back else
      let it := lower_bound input_signal time in
      if Nat.eqb it 0 then y (nth it input_signal default_point) else
      let p2 := nth it input_signal default_point in
      let p1 := nth (it - 1) input_signal default_point in
      if Qeq_bool (x p2) (x p1) then y p1 else
      let ratio := (time - x p1) / (x p2 - x p1) in
      y p1 + ratio * (y p2 - y p1)
  end.

Section WithSin.
Variable sin : Q -> Q.

Definition AnalogToAnalog (msg_freq msg_amp : Q) (type : AnalogModulation)
    : SignalResult :=
  if Qle_bool msg_freq 0 || Qle_bool msg_amp 0 then empty_result else
  let duration := 2 in
  let samples_per_sec := 200%Z in
  let total_samples := static_cast_int (duration * inject_Z samples_per_sec) in
  let two_pi_freq := 2 * PI * msg_freq in
  let inv_samples := 1 / inject_Z samples_per_sec in
  let input_signal :=
    map (fun i => let t := Q_of_nat i * inv_samples in
                  mkPoint t (msg_amp * sin (two_pi_freq * t)))
        (seq 0 (Z.to_nat total_samples)) in
  let carrier_freq := msg_freq * 5 in
  let carrier_amp := 1 in
  let two_pi_carrier := 2 * PI * carrier_freq in
  (* transmitted_signal[i] is computed from input_signal[i] *)
  let transmitted_signal :=
    match type with
    | AM =>
        let mod_index := 8 # 10 in
        let inv_msg_amp := 1 / msg_amp in
        map (fun p => let t := x p in
                      let msg := y p * inv_msg_amp in
                      let carrier := sin (two_pi_carrier * t) in
                      mkPoint t (carrier_amp * (1 + mod_index * msg) * carrier))
            input_signal
    | FM =>
        let freq_dev := carrier_freq * (5 # 10) in
        let inv_msg_amp := 1 / msg_amp in
        let inv_msg_freq := 1 / msg_freq in
        let two_pi_dev := 2 * PI * freq_dev in
        map (fun p => let t := x p in
                      let msg := y p * inv_msg_amp in
                      let instantaneous_phase :=
                        two_pi_carrier * t + two_pi_dev * msg * t * inv_msg_freq in
                      mkPoint t (carrier_amp * sin instantaneous_phase))
            input_signal
    | PM =>
        let phase_dev := PI / 2 in
        let inv_msg_amp := 1 / msg_amp in
        map (fun p => let t := x p in
                      let msg := y p * inv_msg_amp in
                      let instantaneous_phase := two_pi_carrier * t + phase_dev * msg in
                      mkPoint t (carrier_amp * sin instantaneous_phase))
            input_signal
    end in
  mkSignalResult input_signal transmitted_signal input_signal.

(** The 2 s, 100 samples/s sine shared by the two converters. *)
Definition adc_input_signal (freq amp : Q) : list Point :=
  let duration := 2 in
  let samples_per_sec := 100%Z in
  let total_samples := static_cast_int (duration * inject_Z samples_per_sec) in
  let two_pi_freq := 2 * PI * freq in
  map (fun i => let t := Q_of_nat i * (1 / inject_Z samples_per_sec) in
                mkPoint t (amp * sin (two_pi_freq * t)))
      (seq 0 (Z.to_nat total_samples)).

Section PCMLoop.
Variables (input_signal : list Point)
  (sample_interval real_duration amp inv_amp quant_range inv_quant_range : Q).

Fixpoint pcm_loop (fuel : nat) (i : nat) (transmitted output : list Point)
    : list Point * list Point :=
  match fuel with
  | O => (transmitted, output)
  | S fuel' =>
      let t := Q_of_nat i * sample_interval in
      if Qltb real_duration t then (transmitted, output) else
      let t := std_round (t * 1000000) / 1000000 in
      let input_val := get_input_value_at_time input_signal t in
      let normalized := (input_val * inv_amp + 1) * (5 # 10) in
      let quantized := std_round (normalized * quant_range) in
      let reconstructed := (quantized * inv_quant_range * 2 - 1) * amp in
      pcm_loop fuel' (S i) (transmitted ++ [mkPoint t quantized])
                           (output ++ [mkPoint t reconstructed])
  end.
End PCMLoop.

Definition AnalogToDigitalPCM (freq amp : Q) (config : PCMConfig) : SignalResult :=
  if Qle_bool freq 0 || Qle_bool amp 0 || Qle_bool (sampling_rate config) 0
     || Z.ltb (quantization_levels config) 2
  then empty_result else
  let input_signal := adc_input_signal freq amp in
  let sample_interval := 1 / sampling_rate config in
  let real_duration := x (last input_signal default_point) in
  let inv_amp := 1 / amp in
  let quant_range := inject_Z (quantization_levels config - 1) in
  let inv_quant_range := 1 / quant_range in
  let (transmitted, output) :=
    pcm_loop input_signal sample_interval real_duration amp inv_amp quant_range
             inv_quant_range (loop_fuel sample_interval real_duration) 0 [] [] in
  mkSignalResult input_signal transmitted output.

Record DMState := mkDMState {
  approximation : Q; dm_transmitted : list Point; dm_output : list Point }.

Section DMLoop.
Variables (input_signal : list Point)
  (delta sample_interval real_duration min_approx max_approx : Q).

Fixpoint dm_loop (fuel : nat) (i : nat) (st : DMState) : DMState :=
  match fuel with
  | O => st
  | S fuel' =>
      let t := Q_of_nat i * sample_interval in
      if Qltb real_duration t then st else
      let t := std_round (t * 1000000) / 1000000 in
      let input_val := get_input_value_at_time input_signal t in
      let bit := if Qltb (approximation st) input_val then 1 else 0 in
      let transmitted := dm_transmitted st ++ [mkPoint t bit] in
      let approx := approximation st + (if Qeq_bool bit 1 then delta else - delta) in
      let approx := std_max min_approx (std_min max_approx approx) in
      let output :=
        match rev (dm_output st) with
        | [] => dm_output st
        | back :: _ => dm_output st ++ [mkPoint (t - (1 # 1000)) (y back)]
        end in
      let output := output ++ [mkPoint t approx] in
      dm_loop fuel' (S i) (mkDMState approx transmitted output)
  end.
End DMLoop.

Definition AnalogToDigitalDM (freq amp : Q) (config : DMConfig) : SignalResult :=
  if Qle_bool freq 0 || Qle_bool amp 0 || Qle_bool (dm_sampling_rate config) 0
     || Qle_bool (delta_step_size config) 0 || Qltb 1 (delta_step_size config)
  then empty_result else
  let input_signal := adc_input_signal freq amp in
  let delta := amp * delta_step_size config in
  let sample_interval := 1 / dm_sampling_rate config in
  let real_duration := x (last input_signal default_point) in
  let min_approx := - amp * (15 # 10) in
  let max_approx := amp * (15 # 10) in
  let approximation := 0 in
  let output := [mkPoint 0 approximation] in
  let st := dm_loop input_signal delta sample_interval real_duration min_approx
              max_approx (loop_fuel sample_interval real_duration) 0
              (mkDMState approximation [] output) in
  let output :=
    match rev (dm_output st) with
    | [] => dm_output st
    | back :: _ =>
        dm_output st ++ [mkPoint (x (last input_signal default_point)) (y back)]
    end in
  mkSignalResult input_signal (dm_transmitted st) output.

(** [if (binary.empty()) return result;
     for (char c : binary) if (c != '0' && c != '1') return result;] *)
Definition invalid_binary (binary : list ascii) : bool :=
  match binary with
  | [] => true
  | _ => existsb (fun c => negb (c =? "0")%char && negb (c =? "1")%char) binary
  end.

Definition bit_duration : Q := 1.

(** The reference stair-step: points [(i, b_i)] and [(i + 1, b_i)]. *)
Definition digital_input_signal (binary : list ascii) : list Point :=
  flat_map (fun i => let x1 := Q_of_nat i * bit_duration in
                     let x2 := Q_of_nat (i + 1) * bit_duration in
                     let v := if (nth i binary "0"%char =? "1")%char then 1 else 0 in
                     [mkPoint x1 v; mkPoint x2 v])
           (seq 0 (length binary)).

Definition DigitalToAnalog (binary : list ascii) (type : DigitalModulation)
    : SignalResult :=
  if invalid_binary binary then empty_result else
  let samples_per_bit := 100%nat in
  let num_bits := length binary in
  let input_signal := digital_input_signal binary in
  let time_step := bit_duration / Q_of_nat samples_per_bit in
  (* for i < num_bits, for j <= samples_per_bit: t = base_time + j * time_step *)
  let keyed (sample : nat -> Q -> Q) :=
    flat_map (fun i => let base_time := Q_of_nat i * bit_duration in
                       map (fun j => let t := base_time + Q_of_nat j * time_step in
                                     mkPoint t (sample i t))
                           (seq 0 (samples_per_bit + 1)))
             (seq 0 num_bits) in
  let transmitted :=
    match type with
    | ASK =>
        let carrier_freq := 5 in
        let two_pi_carrier := 2 * PI * carrier_freq in
        keyed (fun i t => let amplitude :=
                            if (nth i binary "0"%char =? "1")%char then 1 else 2 # 10 in
                          amplitude * sin (two_pi_carrier * t))
    | FSK =>
        let freq0 := 3 in
        let freq1 := 7 in
        let two_pi_freq0 := 2 * PI * freq0 in
        let two_pi_freq1 := 2 * PI * freq1 in
        keyed (fun i t => let two_pi_freq :=
                            if (nth i binary "0"%char =? "1")%char then two_pi_freq1
                            else two_pi_freq0 in
                          sin (two_pi_freq * t))
    | PSK =>
        let carrier_freq := 5 in
        let two_pi_carrier := 2 * PI * carrier_freq in
        keyed (fun i t => let phase_shift :=
                            if (nth i binary "0"%char =? "1")%char then 0 else PI in
                          sin (two_pi_carrier * t + phase_shift))
    end in
  mkSignalResult input_signal transmitted input_signal.

End WithSin.

(** Two points per bit at voltage [v]: [{i, v}] and [{i + 1, v}]. *)
Definition bit_points (i : nat) (v : Q) : list Point :=
  [mkPoint (Q_of_nat i * bit_duration) v; mkPoint (Q_of_nat (i + 1) * bit_duration) v].

(** One iteration of each stateful line coder, translated from its loop
    body; the state is (running level or polarity, transmitted). *)
Definition nrz_i_body (binary : list ascii) (i : nat) (st : Q * list Point)
    : nat * (Q * list Point) :=
  let (current_level, tr) := st in
  let current_level :=
    if (nth i binary "0"%char =? "1")%char then - current_level else current_level in
  (i, (current_level, tr ++ bit_points i current_level)).

Definition diff_manchester_body (binary : list ascii) (i : nat) (st : Q * list Point)
    : nat * (Q * list Point) :=
  let (current_level, tr) := st in
  let current_level :=
    if (nth i binary "0"%char =? "0")%char then - current_level else current_level in
  let base := Q_of_nat i * bit_duration in
  let mid := (Q_of_nat i + (5 # 10)) * bit_duration in
  let end_ := Q_of_nat (i + 1) * bit_duration in
  let tr := tr ++ [mkPoint base current_level; mkPoint mid current_level] in
  let current_level := - current_level in
  (i, (current_level, tr ++ [mkPoint mid current_level; mkPoint end_ current_level])).

Definition ami_body (binary : list ascii) (i : nat) (st : Q * list Point)
    : nat * (Q * list Point) :=
  let (last_one_polarity, tr) := st in
  let (last_one_polarity, voltage) :=
    if (nth i binary "0"%char =? "1")%char
    then (- last_one_polarity, - last_one_polarity)
    else (last_one_polarity, 0) in
  (i, (last_one_polarity, tr ++ bit_points i voltage)).

Definition pseudoternary_body (binary : list ascii) (i : nat) (st : Q * list Point)
    : nat * (Q * list Point) :=
  let (last_zero_polarity, tr) := st in
  let (last_zero_polarity, voltage) :=
    if (nth i binary "0"%char =? "0")%char
    then (- last_zero_polarity, - last_zero_polarity)
    else (last_zero_polarity, 0) in
  (i, (last_zero_polarity, tr ++ bit_points i voltage)).

(** [for (int j = 0; j < w; j++) if (binary[i + j] != '0') zeros = false;]
    guarded by [i + (w - 1) < num_bits]. *)
Definition zeros_window (binary : list ascii) (num_bits i w : nat) : bool :=
  if Nat.ltb (i + (w - 1)) num_bits
  then forallb (fun j => (nth (i + j) binary "0"%char =? "0")%char) (seq 0 w)
  else false.

(** [for (int j = 0; j < w; j++)] pushing [{(i+j), pattern[j]}] and
    [{(i+j+1), pattern[j]}]. *)
Definition pattern_points (i : nat) (pattern : list Q) : list Point :=
  flat_map (fun j => [mkPoint (Q_of_nat (i + j) * bit_duration) (nth j pattern 0);
                      mkPoint (Q_of_nat (i + j + 1) * bit_duration) (nth j pattern 0)])
           (seq 0 (length pattern)).

Definition b8zs_body (binary : list ascii) (num_bits : nat) (i : nat)
    (st : Q * list Point) : nat * (Q * list Point) :=
  let (last_one_polarity, tr) := st in
  let is_eight_zeros := zeros_window binary num_bits i 8 in
  if is_eight_zeros then
    let V := last_one_polarity in
    let B := - last_one_polarity in
    let pattern := [0; 0; 0; V; B; 0; V; B] in
    (i + 7, (B, tr ++ pattern_points i pattern))%nat
  else
    let (last_one_polarity, voltage) :=
      if (nth i binary "0"%char =? "1")%char
      then (- last_one_polarity, - last_one_polarity)
      else (last_one_polarity, 0) in
    (i, (last_one_polarity, tr ++ bit_points i voltage)).

(** HDB3 state: (last_one_polarity, ones_count, transmitted). *)
Definition hdb3_body (binary : list ascii) (num_bits : nat) (i : nat)
    (st : Q * Z * list Point) : nat * (Q * Z * list Point) :=
  let '(last_one_polarity, ones_count, tr) := st in
  let is_four_zeros := zeros_window binary num_bits i 4 in
  if is_four_zeros then
    let '(pattern, last_one_polarity) :=
      if Z.eqb (Z.rem ones_count 2) 0
      then let V := last_one_polarity in ([0; 0; 0; V], V)
      else let B := - last_one_polarity in let V := B in ([B; 0; 0; V], V) in
    (i + 3, (last_one_polarity, 0%Z, tr ++ pattern_points i pattern))%nat
  else
    let '(last_one_polarity, ones_count, voltage) :=
      if (nth i binary "0"%char =? "1")%char
      then (- last_one_polarity, (ones_count + 1)%Z, - last_one_polarity)
      else (last_one_polarity, ones_count, 0) in
    (i, (last_one_polarity, ones_count, tr ++ bit_points i voltage)).

Definition DigitalToDigital (binary : list ascii) (type : LineCoding) : SignalResult :=
  if invalid_binary binary then empty_result else
  let num_bits := length binary in
  let input_signal := digital_input_signal binary in
  let transmitted :=
    match type with
    | NRZ_L =>
        flat_map (fun i => bit_points i (if (nth i binary "0"%char =? "0")%char then 1 else -1))
                 (seq 0 num_bits)
    | NRZ_I => snd (for_loop num_bits num_bits (nrz_i_body binary) 0 (1, []))
    | MANCHESTER =>
        flat_map (fun i =>
                    let base := Q_of_nat i * bit_duration in
                    let mid := (Q_of_nat i + (5 # 10)) * bit_duration in
                    let end_ := Q_of_nat (i + 1) * bit_duration in
                    if (nth i binary "0"%char =? "0")%char
                    then [mkPoint base 1; mkPoint mid 1; mkPoint mid (-1); mkPoint end_ (-1)]
                    else [mkPoint base (-1); mkPoint mid (-1); mkPoint mid 1; mkPoint end_ 1])
                 (seq 0 num_bits)
    | DIFFERENTIAL_MANCHESTER =>
        snd (for_loop num_bits num_bits (diff_manchester_body binary) 0 (1, []))
    | AMI => snd (for_loop num_bits num_bits (ami_body binary) 0 (-1, []))
    | PSEUDOTERNARY =>
        snd (for_loop num_bits num_bits (pseudoternary_body binary) 0 (-1, []))
    | B8ZS => snd (for_loop num_bits num_bits (b8zs_body binary num_bits) 0 (-1, []))
    | HDB3 =>
        snd (for_loop num_bits num_bits (hdb3_body binary num_bits) 0 (-1, 0%Z, []))
    end in
  mkSignalResult input_signal transmitted input_signal.

End Core.

(* ------------------------------------------------------------------ *)
(** * service_impl.cpp: the gRPC handlers, translated on their own *)

Module Service.

(** service_impl.cpp declares its own [struct Point { double x; double y; }],
    layout-identical to SignalLib's; both are [Point] here. *)

(** signal.proto's messages, as far as the handlers read or write them. *)
Record DataPoint := mkDataPoint { dp_x : Q; dp_y : Q }.

Record SignalResponse := mkSignalResponse {
  resp_input : list DataPoint;
  resp_transmitted : list DataPoint;
  resp_output : list DataPoint }.

Definition empty_response : SignalResponse := mkSignalResponse [] [] [].

Inductive StatusCode := OK | INVALID_ARGUMENT | UNIMPLEMENTED.

Record Status := mkStatus { error_code : StatusCode; error_message : string }.

Definition Status_OK : Status := mkStatus OK "".

(** Proto enums are open: a value outside the listed ones is [..._Other]. *)
Inductive A2A_Algorithm := A2A_AM | A2A_FM | A2A_PM | A2A_Other (v : Z).
Inductive D2A_Algorithm := D2A_ASK | D2A_FSK | D2A_PSK | D2A_Other (v : Z).
Inductive D2D_Algorithm :=
  D2D_NRZ_L | D2D_NRZ_I | D2D_MANCHESTER | D2D_DIFFERENTIAL_MANCHESTER | D2D_AMI
| D2D_PSEUDOTERNARY | D2D_B8ZS | D2D_HDB3 | D2D_Other (v : Z).

Record AnalogToAnalogRequest := mkAnalogToAnalogRequest {
  message_frequency : Q; message_amplitude : Q; a2a_algorithm : A2A_Algorithm }.

Record PCMParams := mkPCMParams {
  pcm_sampling_rate : Q; pcm_quantization_levels : Z }.
Record DeltaModulationParams := mkDeltaModulationParams {
  dmp_sampling_rate : Q; dmp_delta_step_size : Q }.

(** [has_pcm()] / [has_delta_modulation()] are the [Some] cases. *)
Record AnalogToDigitalRequest := mkAnalogToDigitalRequest {
  frequency : Q; amplitude : Q;
  pcm : option PCMParams; delta_modulation : option DeltaModulationParams }.

Record DigitalToAnalogRequest := mkDigitalToAnalogRequest {
  d2a_binary_input : list ascii; d2a_algorithm : D2A_Algorithm }.

Record DigitalToDigitalRequest := mkDigitalToDigitalRequest {
  d2d_binary_input : list ascii; d2d_algorithm : D2D_Algorithm }.

(** [set_data_points]: [target->Add()] for each point, in order. *)
Definition set_data_points (points : list Point) (target : list DataPoint)
    : list DataPoint :=
  target ++ map (fun p => mkDataPoint (x p) (y p)) points.

(** Writes [input], [transmitted] and [output] into the reply. *)
Definition fill_reply (reply : SignalResponse) (i t o : list Point)
    : SignalResponse :=
  mkSignalResponse (set_data_points i (resp_input reply))
                   (set_data_points t (resp_transmitted reply))
                   (set_data_points o (resp_output reply)).

Fixpoint lower_bound (l : list Point) (time : Q) : nat :=
  match l with
  | [] => O
  | p :: r => if Qltb (x p) time then S (lower_bound r time) else O
  end.

Definition get_input_value_at_time (input_signal : list Point) (time : Q) : Q :=
  match input_signal with
  | [] => 0
  | front :: _ =>
      (* Boundary checks *)
      if Qle_bool time (x front) then y front else
      let back := last input_signal front in
      if Qle_bool (x back) time then y back else
      (* Binary search *)
      let it := lower_bound input_signal time in
      if Nat.eqb it 0 then y (nth it input_signal default_point) else
      let p2 := nth it input_signal default_point in
      let p1 := nth (it - 1) input_signal default_point in
      if Qeq_bool (x p2) (x p1) then y p1 else
      let ratio := (time - x p1) / (x p2 - x p1) in
      y p1 + ratio * (y p2 - y p1)
  end.

Section WithSin.
Variable sin : Q -> Q.

Definition AnalogToAnalog (request : AnalogToAnalogRequest) (reply : SignalResponse)
    : Status * SignalResponse :=
  let msg_freq := message_frequency request in
  let msg_amp := message_amplitude request in
  if Qle_bool msg_freq 0 || Qle_bool msg_amp 0
  then (mkStatus INVALID_ARGUMENT "Frequency and amplitude must be positive", reply)
  else
  let duration := 2 in
  let samples_per_sec := 200%Z in
  let total_samples := static_cast_int (duration * inject_Z samples_per_sec) in
  let two_pi_freq := 2 * PI * msg_freq in
  let inv_samples := 1 / inject_Z samples_per_sec in
  let input_signal :=
    map (fun i => let t := Q_of_nat i * inv_samples in
                  mkPoint t (msg_amp * sin (two_pi_freq * t)))
        (seq 0 (Z.to_nat total_samples)) in
  let carrier_freq := msg_freq * 5 in
  let carrier_amp := 1 in
  let two_pi_carrier := 2 * PI * carrier_freq in
  let transmitted_signal :=
    match a2a_algorithm request with
    | A2A_AM =>
        let mod_index := 8 # 10 in
        let inv_msg_amp := 1 / msg_amp in
        Some (map (fun p => let t := x p in
                            let msg := y p * inv_msg_amp in
                            let carrier := sin (two_pi_carrier * t) in
                            mkPoint t (carrier_amp * (1 + mod_index * msg) * carrier))
                  input_signal)
    | A2A_FM =>
        let freq_dev := carrier_freq * (5 # 10) in
        let inv_msg_amp := 1 / msg_amp in
        let inv_msg_freq := 1 / msg_freq in
        let two_pi_dev := 2 * PI * freq_dev in
        Some (map (fun p => let t := x p in
                            let msg := y p * inv_msg_amp in
                            let instantaneous_phase :=
                              two_pi_carrier * t + two_pi_dev * msg * t * inv_msg_freq in
                            mkPoint t (carrier_amp * sin instantaneous_phase))
                  input_signal)
    | A2A_PM =>
        let phase_dev := PI / 2 in
        let inv_msg_amp := 1 / msg_amp in
        Some (map (fun p => let t := x p in
                            let msg := y p * inv_msg_amp in
                            let instantaneous_phase :=
                              two_pi_carrier * t + phase_dev * msg in
                            mkPoint t (carrier_amp * sin instantaneous_phase))
                  input_signal)
    | A2A_Other _ => None
    end in
  match transmitted_signal with
  | None => (mkStatus UNIMPLEMENTED "Algorithm not implemented", reply)
  | Some transmitted_signal =>
      (Status_OK, fill_reply reply input_signal transmitted_signal input_signal)
  end.

Section PCMLoop.
Variables (input_signal : list Point)
  (sample_interval real_duration amp inv_amp quant_range inv_quant_range : Q).

Fixpoint pcm_loop (fuel : nat) (i : nat) (transmitted output : list Point)
    : list Point * list Point :=
  match fuel with
  | O => (transmitted, output)
  | S fuel' =>
      let t := Q_of_nat i * sample_interval in
      if Qltb real_duration t then (transmitted, output) else
      (* Round to avoid float precision issues *)
      let t := std_round (t * 1000000) / 1000000 in
      let input_val := get_input_value_at_time input_signal t in
      let normalized := (input_val * inv_amp + 1) * (5 # 10) in
      let quantized := std_round (normalized * quant_range) in
      let reconstructed := (quantized * inv_quant_range * 2 - 1) * amp in
      pcm_loop fuel' (S i) (transmitted ++ [mkPoint t quantized])
                           (output ++ [mkPoint t reconstructed])
  end.
End PCMLoop.

Section DMLoop.
Variables (input_signal : list Point)
  (delta sample_interval real_duration min_approx max_approx : Q).

(** The locals [approximation], [transmitted], [output] of the DM branch. *)
Fixpoint dm_loop (fuel : nat) (i : nat) (st : Core.DMState) : Core.DMState :=
  match fuel with
  | O => st
  | S fuel' =>
      let t := Q_of_nat i * sample_interval in
      if Qltb real_duration t then st else
      let t := std_round (t * 1000000) / 1000000 in
      let input_val := get_input_value_at_time input_signal t in
      let bit := if Qltb (Core.approximation st) input_val then 1 else 0 in
      let transmitted := Core.dm_transmitted st ++ [mkPoint t bit] in
      let approx :=
        Core.approximation st + (if Qeq_bool bit 1 then delta else - delta) in
      let approx := std_max min_approx (std_min max_approx approx) in
      let output :=
        match rev (Core.dm_output st) with
        | [] => Core.dm_output st
        | back :: _ => Core.dm_output st ++ [mkPoint (t - (1 # 1000)) (y back)]
        end in
      let output := output ++ [mkPoint t approx] in
      dm_loop fuel' (S i) (Core.mkDMState approx transmitted output)
  end.
End DMLoop.

Definition AnalogToDigital (request : AnalogToDigitalRequest) (reply : SignalResponse)
    : Status * SignalResponse :=
  let freq := frequency request in
  let amp := amplitude request in
  if Qle_bool freq 0 || Qle_bool amp 0
  then (mkStatus INVALID_ARGUMENT "Invalid parameters", reply) else
  let duration := 2 in
  let samples_per_sec := 100%Z in
  let total_samples := static_cast_int (duration * inject_Z samples_per_sec) in
  let two_pi_freq := 2 * PI * freq in
  let input_signal :=
    map (fun i => let t := Q_of_nat i * (1 / inject_Z samples_per_sec) in
                  mkPoint t (amp * sin (two_pi_freq * t)))
        (seq 0 (Z.to_nat total_samples)) in
  match pcm request with
  | Some config =>
      if Qle_bool (pcm_sampling_rate config) 0 || Z.ltb (pcm_quantization_levels config) 2
      then (mkStatus INVALID_ARGUMENT "Invalid PCM config", reply) else
      let sample_interval := 1 / pcm_sampling_rate config in
      (* duration is last point x *)
      let real_duration := x (last input_signal default_point) in
      let inv_amp := 1 / amp in
      let quant_range := inject_Z (pcm_quantization_levels config - 1) in
      let inv_quant_range := 1 / quant_range in
      let (transmitted, output) :=
        pcm_loop input_signal sample_interval real_duration amp inv_amp quant_range
                 inv_quant_range (loop_fuel sample_interval real_duration) 0 [] [] in
      (Status_OK, fill_reply reply input_signal transmitted output)
  | None =>
  match delta_modulation request with
  | Some config =>
      let step_size := dmp_delta_step_size config in
      if Qle_bool (dmp_sampling_rate config) 0 || Qle_bool step_size 0
         || Qltb 1 step_size
      then (mkStatus INVALID_ARGUMENT "Invalid DM config", reply) else
      let delta := amp * step_size in
      let sample_interval := 1 / dmp_sampling_rate config in
      let real_duration := x (last input_signal default_point) in
      let min_approx := - amp * (15 # 10) in
      let max_approx := amp * (15 # 10) in
      let approximation := 0 in
      let output := [mkPoint 0 approximation] in
      let st := dm_loop input_signal delta sample_interval real_duration min_approx
                  max_approx (loop_fuel sample_interval real_duration) 0
                  (Core.mkDMState approximation [] output) in
      (* Extend last value *)
      let output :=
        match rev (Core.dm_output st) with
        | [] => Core.dm_output st
        | back :: _ =>
            Core.dm_output st ++ [mkPoint (x (last input_signal default_point)) (y back)]
        end in
      (Status_OK, fill_reply reply input_signal (Core.dm_transmitted st) output)
  | None => (mkStatus INVALID_ARGUMENT "Missing configuration", reply)
  end
  end.

Definition bit_duration : Q := 1.

Definition DigitalToAnalog (request : DigitalToAnalogRequest) (reply : SignalResponse)
    : Status * SignalResponse :=
  let binary := d2a_binary_input request in
  match binary with
  | [] => (mkStatus INVALID_ARGUMENT "Empty input", reply)
  | _ =>
  if existsb (fun c => negb (c =? "0")%char && negb (c =? "1")%char) binary
  then (mkStatus INVALID_ARGUMENT "Invalid binary input", reply) else
  let samples_per_bit := 100%nat in
  let num_bits := length binary in
  let input_signal :=
    flat_map (fun i => let x1 := Q_of_nat i * bit_duration in
                       let x2 := Q_of_nat (i + 1) * bit_duration in
                       let v := if (nth i binary "0"%char =? "1")%char then 1 else 0 in
                       [mkPoint x1 v; mkPoint x2 v])
             (seq 0 num_bits) in
  let time_step := bit_duration / Q_of_nat samples_per_bit in
  let keyed (sample : nat -> Q -> Q) :=
    flat_map (fun i => let base_time := Q_of_nat i * bit_duration in
                       map (fun j => let t := base_time + Q_of_nat j * time_step in
                                     mkPoint t (sample i t))
                           (seq 0 (samples_per_bit + 1)))
             (seq 0 num_bits) in
  let transmitted :=
    match d2a_algorithm request with
    | D2A_ASK =>
        let carrier_freq := 5 in
        let two_pi_carrier := 2 * PI * carrier_freq in
        Some (keyed (fun i t => let amplitude :=
                                  if (nth i binary "0"%char =? "1")%char then 1 else 2 # 10 in
                                amplitude * sin (two_pi_carrier * t)))
    | D2A_FSK =>
        let freq0 := 3 in
        let freq1 := 7 in
        let two_pi_freq0 := 2 * PI * freq0 in
        let two_pi_freq1 := 2 * PI * freq1 in
        Some (keyed (fun i t => let two_pi_freq :=
                                  if (nth i binary "0"%char =? "1")%char then two_pi_freq1
                                  else two_pi_freq0 in
                                sin (two_pi_freq * t)))
    | D2A_PSK =>
        let carrier_freq := 5 in
        let two_pi_carrier := 2 * PI * carrier_freq in
        Some (keyed (fun i t => let phase_shift :=
                                  if (nth i binary "0"%char =? "1")%char then 0 else PI in
                                sin (two_pi_carrier * t + phase_shift)))
    | D2A_Other _ => None
    end in
  match transmitted with
  | None => (mkStatus UNIMPLEMENTED "Algorithm not implemented", reply)
  | Some transmitted =>
      (Status_OK, fill_reply reply input_signal transmitted input_signal)
  end
  end.

End WithSin.

Definition bit_points (i : nat) (v : Q) : list Point :=
  [mkPoint (Q_of_nat i * bit_duration) v; mkPoint (Q_of_nat (i + 1) * bit_duration) v].

Definition nrz_i_body (binary : list ascii) (i : nat) (st : Q * list Point)
    : nat * (Q * list Point) :=
  let (current_level, tr) := st in
  let current_level :=
    if (nth i binary "0"%char =? "1")%char then - current_level else current_level in
  (i, (current_level, tr ++ bit_points i current_level)).

Definition diff_manchester_body (binary : list ascii) (i : nat) (st : Q * list Point)
    : nat * (Q * list Point) :=
  let (current_level, tr) := st in
  let current_level :=
    if (nth i binary "0"%char =? "0")%char then - current_level else current_level in
  let base := Q_of_nat i * bit_duration in
  let mid := (Q_of_nat i + (5 # 10)) * bit_duration in
  let end_ := Q_of_nat (i + 1) * bit_duration in
  let tr := tr ++ [mkPoint base current_level; mkPoint mid current_level] in
  let current_level := - current_level in
  (i, (current_level, tr ++ [mkPoint mid current_level; mkPoint end_ current_level])).

Definition ami_body (binary : list ascii) (i : nat) (st : Q * list Point)
    : nat * (Q * list Point) :=
  let (last_one_polarity, tr) := st in
  let (last_one_polarity, voltage) :=
    if (nth i binary "0"%char =? "1")%char
    then (- last_one_polarity, - last_one_polarity)
    else (last_one_polarity, 0) in
  (i, (last_one_polarity, tr ++ bit_points i voltage)).

Definition pseudoternary_body (binary : list ascii) (i : nat) (st : Q * list Point)
    : nat * (Q * list Point) :=
  let (last_zero_polarity, tr) := st in
  let (last_zero_polarity, voltage) :=
    if (nth i binary "0"%char =? "0")%char
    then (- last_zero_polarity, - last_zero_polarity)
    else (last_zero_polarity, 0) in
  (i, (last_zero_polarity, tr ++ bit_points i voltage)).

Definition zeros_window (binary : list ascii) (num_bits i w : nat) : bool :=
  if Nat.ltb (i + (w - 1)) num_bits
  then forallb (fun j => (nth (i + j) binary "0"%char =? "0")%char) (seq 0 w)
  else false.

Definition pattern_points (i : nat) (pattern : list Q) : list Point :=
  flat_map (fun j => [mkPoint (Q_of_nat (i + j) * bit_duration) (nth j pattern 0);
                      mkPoint (Q_of_nat (i + j + 1) * bit_duration) (nth j pattern 0)])
           (seq 0 (length pattern)).

Definition b8zs_body (binary : list ascii) (num_bits : nat) (i : nat)
    (st : Q * list Point) : nat * (Q * list Point) :=
  let (last_one_polarity, tr) := st in
  (* Check 8 zeros *)
  let is_eight_zeros := zeros_window binary num_bits i 8 in
  if is_eight_zeros then
    let V := last_one_polarity in
    let B := - last_one_polarity in
    let pattern := [0; 0; 0; V; B; 0; V; B] in
    (i + 7, (B, tr ++ pattern_points i pattern))%nat
  else
    let (last_one_polarity, voltage) :=
      if (nth i binary "0"%char =? "1")%char
      then (- last_one_polarity, - last_one_polarity)
      else (last_one_polarity, 0) in
    (i, (last_one_polarity, tr ++ bit_points i voltage)).

Definition hdb3_body (binary : list ascii) (num_bits : nat) (i : nat)
    (st : Q * Z * list Point) : nat * (Q * Z * list Point) :=
  let '(last_one_polarity, ones_count, tr) := st in
  let is_four_zeros := zeros_window binary num_bits i 4 in
  if is_four_zeros then
    let '(pattern, last_one_polarity) :=
      if Z.eqb (Z.rem ones_count 2) 0
      then let V := last_one_polarity in ([0; 0; 0; V], V)
      else let B := - last_one_polarity in let V := B in ([B; 0; 0; V], V) in
    (i + 3, (last_one_polarity, 0%Z, tr ++ pattern_points i pattern))%nat
  else
    let '(last_one_polarity, ones_count, voltage) :=
      if (nth i binary "0"%char =? "1")%char
      then (- last_one_polarity, (ones_count + 1)%Z, - last_one_polarity)
      else (last_one_polarity, ones_count, 0) in
    (i, (last_one_polarity, ones_count, tr ++ bit_points i voltage)).

Definition DigitalToDigital (request : DigitalToDigitalRequest) (reply : SignalResponse)
    : Status * SignalResponse :=
  let binary := d2d_binary_input request in
  match binary with
  | [] => (mkStatus INVALID_ARGUMENT "Empty input", reply)
  | _ =>
  if existsb (fun c => negb (c =? "0")%char && negb (c =? "1")%char) binary
  then (mkStatus INVALID_ARGUMENT "Invalid binary input", reply) else
  let num_bits := length binary in
  let input_signal :=
    flat_map (fun i => let x1 := Q_of_nat i * bit_duration in
                       let x2 := Q_of_nat (i + 1) * bit_duration in
                       let val := if (nth i binary "0"%char =? "1")%char then 1 else 0 in
                       [mkPoint x1 val; mkPoint x2 val])
             (seq 0 num_bits) in
  let transmitted :=
    match d2d_algorithm request with
    | D2D_NRZ_L =>
        Some (flat_map (fun i => bit_points i
                         (if (nth i binary "0"%char =? "0")%char then 1 else -1))
                       (seq 0 num_bits))
    | D2D_NRZ_I => Some (snd (for_loop num_bits num_bits (nrz_i_body binary) 0 (1, [])))
    | D2D_MANCHESTER =>
        Some (flat_map (fun i =>
                 let base := Q_of_nat i * bit_duration in
                 let mid := (Q_of_nat i + (5 # 10)) * bit_duration in
                 let end_ := Q_of_nat (i + 1) * bit_duration in
                 if (nth i binary "0"%char =? "0")%char
                 then [mkPoint base 1; mkPoint mid 1; mkPoint mid (-1); mkPoint end_ (-1)]
                 else [mkPoint base (-1); mkPoint mid (-1); mkPoint mid 1; mkPoint end_ 1])
               (seq 0 num_bits))
    | D2D_DIFFERENTIAL_MANCHESTER =>
        Some (snd (for_loop num_bits num_bits (diff_manchester_body binary) 0 (1, [])))
    | D2D_AMI => Some (snd (for_loop num_bits num_bits (ami_body binary) 0 (-1, [])))
    | D2D_PSEUDOTERNARY =>
        Some (snd (for_loop num_bits num_bits (pseudoternary_body binary) 0 (-1, [])))
    | D2D_B8ZS =>
        Some (snd (for_loop num_bits num_bits (b8zs_body binary num_bits) 0 (-1, [])))
    | D2D_HDB3 =>
        Some (snd (for_loop num_bits num_bits (hdb3_body binary num_bits) 0 (-1, 0%Z, [])))
    | D2D_Other _ => None
    end in
  match transmitted with
  | None => (mkStatus UNIMPLEMENTED "Algorithm not implemented", reply)
  | Some transmitted =>
      (Status_OK, fill_reply reply input_signal transmitted input_signal)
  end
  end.

End Service.

(* ------------------------------------------------------------------ *)
(** * Specification-side definitions *)

(** Reply written by a handler that copies a core result. *)
Definition reply_of (r : SignalResult) : Service.SignalResponse :=
  Service.fill_reply Service.empty_response (input r) (transmitted r) (output r).

Definition a2a_selector (t : AnalogModulation) : Service.A2A_Algorithm :=
  match t with AM => Service.A2A_AM | FM => Service.A2A_FM | PM => Service.A2A_PM end.

Definition d2a_selector (t : DigitalModulation) : Service.D2A_Algorithm :=
  match t with ASK => Service.D2A_ASK | FSK => Service.D2A_FSK | PSK => Service.D2A_PSK end.

Definition d2d_selector (t : LineCoding) : Service.D2D_Algorithm :=
  match t with
  | NRZ_L => Service.D2D_NRZ_L | NRZ_I => Service.D2D_NRZ_I
  | MANCHESTER => Service.D2D_MANCHESTER
  | DIFFERENTIAL_MANCHESTER => Service.D2D_DIFFERENTIAL_MANCHESTER
  | AMI => Service.D2D_AMI | PSEUDOTERNARY => Service.D2D_PSEUDOTERNARY
  | B8ZS => Service.D2D_B8ZS | HDB3 => Service.D2D_HDB3
  end.

(** [N] ticks: [i < N] iff [i * sample_interval <= real_duration]. *)
Definition tick_count (sample_interval real_duration : Q) : nat :=
  S (Z.to_nat (Qfloor (real_duration / sample_interval))).

(** The [i]-th sample time of the converters, [i * sample_interval] rounded
    to 1e-6 as the loops do. *)
Definition pcm_tick (sample_interval : Q) (i : nat) : Q :=
  std_round (Q_of_nat i * sample_interval * 1000000) / 1000000.

(** A concrete stand-in for [std::sin] with values in [-1, 1], used to run
    the converters on concrete inputs. *)
Definition sin_clip (q : Q) : Q :=
  if Qle_bool q (-1) then -1 else if Qle_bool 1 q then 1 else q.

(** A level per bit, drawn as the two points [(k, v)] and [(k+1, v)]. *)
Fixpoint level_points (k : nat) (L : list Q) : list Point :=
  match L with
  | [] => []
  | v :: r => Core.bit_points k v ++ level_points (S k) r
  end.

(** B8ZS, stated bit by bit: the AMI rule, except where the next eight
    bits are all '0' (this needs eight bits to remain; what follows them
    does not matter), which are coded
    [0,0,0,V,B,0,V,B] with [V] the current polarity and [B = -V], and the
    polarity becomes [B]. *)
Inductive b8zs_spec : Q -> list ascii -> list Q -> Prop :=
| b8zs_nil pol : b8zs_spec pol [] []
| b8zs_subst pol s L :
    firstn 8 s = repeat "0"%char 8 ->
    b8zs_spec (- pol) (skipn 8 s) L ->
    b8zs_spec pol s ([0; 0; 0; pol; - pol; 0; pol; - pol] ++ L)
| b8zs_mark pol s L :
    b8zs_spec (- pol) s L -> b8zs_spec pol ("1"%char :: s) (- pol :: L)
| b8zs_space pol s L :
    firstn 8 ("0"%char :: s) <> repeat "0"%char 8 ->
    b8zs_spec pol s L -> b8zs_spec pol ("0"%char :: s) (0 :: L).

(** HDB3, stated bit by bit with the number [cnt] of marks since the last
    substitution: the AMI rule (counting marks), except where the next four
    bits are all '0' (whatever follows them), which are coded [0,0,0,V] when [cnt] is even (the
    polarity [V] stays) and [B,0,0,V] with [B = V = -pol] when [cnt] is
    odd; the count restarts at 0. *)
Inductive hdb3_spec : Q -> nat -> list ascii -> list Q -> Prop :=
| hdb3_nil pol cnt : hdb3_spec pol cnt [] []
| hdb3_subst_even pol cnt s L :
    firstn 4 s = repeat "0"%char 4 -> Nat.even cnt = true ->
    hdb3_spec pol 0 (skipn 4 s) L ->
    hdb3_spec pol cnt s ([0; 0; 0; pol] ++ L)
| hdb3_subst_odd pol cnt s L :
    firstn 4 s = repeat "0"%char 4 -> Nat.even cnt = false ->
    hdb3_spec (- pol) 0 (skipn 4 s) L ->
    hdb3_spec pol cnt s ([- pol; 0; 0; - pol] ++ L)
| hdb3_mark pol cnt s L :
    hdb3_spec (- pol) (S cnt) s L -> hdb3_spec pol cnt ("1"%char :: s) (- pol :: L)
| hdb3_space pol cnt s L :
    firstn 4 ("0"%char :: s) <> repeat "0"%char 4 ->
    hdb3_spec pol cnt s L -> hdb3_spec pol cnt ("0"%char :: s) (0 :: L).

(** Each element is at most the next one. *)
Fixpoint nondecreasing (l : list Q) : Prop :=
  match l with
  | a :: ((b :: _) as r) => a <= b /\ nondecreasing r
  | _ => True
  end.

(** Sorted, and every value in [lo, hi]. *)
Definition qs_in (lo hi : Q) (l : list Q) : Prop :=
  nondecreasing l /\ Forall (fun t => lo <= t <= hi) l.

(** The invariant of the spec: x non-decreasing in emission order, and
    non-negative. *)
Definition x_ordered (l : list Point) : Prop :=
  nondecreasing (map x l) /\ Forall (Qle 0) (map x l).

(** The trace built so far lies in [0, i]. *)
Definition trace_upto {A : Type} (i : nat) (s : A * list Point) : Prop :=
  qs_in 0 (Q_of_nat i) (map x (snd s)).

(** The state invariant of the Delta Modulation loop: approximation and
    every output level within [lo, hi]. *)
Definition dm_state_in_range (lo hi : Q) (st : Core.DMState) : Prop :=
  lo <= Core.approximation st <= hi /\
  forall p, In p (Core.dm_output st) -> lo <= y p <= hi.

(** Every level is [+amp] or [-amp]. *)
Definition at_full_scale (amp : Q) (l : list Point) : Prop :=
  forall p, In p l -> y p == amp \/ y p == - amp.


(** ** Definitions for the properties of the whole program *)

Definition append_response (r1 r2 : Service.SignalResponse) : Service.SignalResponse :=
  Service.mkSignalResponse (Service.resp_input r1 ++ Service.resp_input r2)
    (Service.resp_transmitted r1 ++ Service.resp_transmitted r2)
    (Service.resp_output r1 ++ Service.resp_output r2).

(** The configuration check of the AnalogToDigital handler. *)
Definition a2d_config_valid (req : Service.AnalogToDigitalRequest) : Prop :=
  match Service.pcm req with
  | Some c => 0 < Service.pcm_sampling_rate c /\ (2 <= Service.pcm_quantization_levels c)%Z
  | None =>
      match Service.delta_modulation req with
      | Some d => 0 < Service.dmp_sampling_rate d /\ 0 < Service.dmp_delta_step_size d /\
                  Service.dmp_delta_step_size d <= 1
      | None => False
      end
  end.

(** The input check of the binary handlers: an empty string, or a
    character other than '0' and '1'. *)
Definition binary_rejected (binary : list ascii) : Prop :=
  binary = [] \/ exists c, In c binary /\ c <> "0"%char /\ c <> "1"%char.

(** Strictly increasing x coordinates. *)
Definition x_increasing (l : list Point) : Prop :=
  forall i, (S i < length l)%nat ->
    x (nth i l default_point) < x (nth (S i) l default_point).

(** [+1] after an even number of flips, [-1] after an odd number. *)
Definition parity_level (n : nat) : Q := if Nat.even n then 1 else -1.

(** How many characters of [l] are [c]. *)
Definition count_bit (c : ascii) (l : list ascii) : nat :=
  length (filter (fun d => (d =? c)%char) l).

(** The four points of a bit of a Manchester code that starts at level [v]
    and crosses to [-v] at mid-bit. *)
Definition manchester_points (i : nat) (v : Q) : list Point :=
  [mkPoint (Q_of_nat i * Core.bit_duration) v;
   mkPoint ((Q_of_nat i + (5 # 10)) * Core.bit_duration) v;
   mkPoint ((Q_of_nat i + (5 # 10)) * Core.bit_duration) (- v);
   mkPoint (Q_of_nat (i + 1) * Core.bit_duration) (- v)].

(** No [w] consecutive levels are all zero. *)
Definition no_zero_run (w : nat) (L : list Q) : Prop :=
  forall k, (k + w <= length L)%nat -> exists j, (j < w)%nat /\ ~ nth (k + j) L 0 == 0.

(** A level of a bipolar code: [0], [+1] or [-1]. *)
Definition ternary (v : Q) : Prop := v == 0 \/ v == 1 \/ v == -1.

(** Consecutive values differ by at most [d]. *)
Fixpoint steps_within (d : Q) (l : list Q) : Prop :=
  match l with
  | a :: ((b :: _) as r) => - d <= b - a <= d /\ steps_within d r
  | _ => True
  end.

(** The DM loop invariant: the approximation in [lo, hi] and drawn as the
    last output point, two output points per transmitted bit after the
    initial one, bits 0 or 1, output steps bounded by [delta]. *)
Definition dm_stair_inv (lo hi delta : Q) (st : Core.DMState) : Prop :=
  lo <= Core.approximation st <= hi /\
  hd_error (Core.dm_output st) = Some (mkPoint 0 0) /\
  y (last (Core.dm_output st) default_point) = Core.approximation st /\
  length (Core.dm_output st) = (2 * length (Core.dm_transmitted st) + 1)%nat /\
  steps_within delta (map y (Core.dm_output st)) /\
  (forall p, In p (Core.dm_transmitted st) -> y p = 0 \/ y p = 1).

(** A transmitted PCM code and its reconstructed output point. *)
Definition pcm_pair (amp : Q) (levels : Z) (p q : Point) : Prop :=
  x p = x q /\
  (exists z : Z, (0 <= z <= levels - 1)%Z /\ y p = inject_Z z) /\
  y q = (y p * (1 / inject_Z (levels - 1)) * 2 - 1) * amp /\
  - amp <= y q <= amp.


(* ------------------------------------------------------------------ *)
(** * Auxiliary lemmas *)

Lemma Qle_bool_false_of_lt (a b : Q) : b < a -> Qle_bool a b = false.
Proof.
  intros H. destruct (Qle_bool a b) eqn:E; [|reflexivity].
  apply Qle_bool_iff in E. exfalso. apply (Qlt_not_le b a H E).
Qed.

Lemma Qltb_false_of_le (a b : Q) : b <= a -> Qltb a b = false.
Proof.
  intros H. unfold Qltb. apply Qle_bool_iff in H. rewrite H. reflexivity.
Qed.

Lemma Qltb_true_iff (a b : Q) : Qltb a b = true <-> a < b.
Proof.
  unfold Qltb. split.
  - intros H. apply negb_true_iff in H. apply Qnot_le_lt. intros Hle.
    apply Qle_bool_iff in Hle. congruence.
  - intros H. apply negb_true_iff. apply Qle_bool_false_of_lt. exact H.
Qed.

Lemma Qltb_false_iff (a b : Q) : Qltb a b = false <-> b <= a.
Proof.
  unfold Qltb. rewrite negb_false_iff. apply Qle_bool_iff.
Qed.

Lemma invalid_binary_false_cons (b : list ascii) :
  Core.invalid_binary b = false ->
  exists c r, b = c :: r /\
    existsb (fun c => negb (c =? "0")%char && negb (c =? "1")%char) b = false.
Proof.
  destruct b as [|c r]; simpl; [discriminate|]. intros H. exists c, r. split; auto.
Qed.

Lemma lower_bound_same (l : list Point) (t : Q) :
  Service.lower_bound l t = Core.lower_bound l t.
Proof. induction l as [|p l IH]; simpl; [reflexivity|]. rewrite IH. reflexivity. Qed.

Lemma get_input_value_at_time_same (l : list Point) (t : Q) :
  Service.get_input_value_at_time l t = Core.get_input_value_at_time l t.
Proof.
  unfold Service.get_input_value_at_time, Core.get_input_value_at_time.
  rewrite lower_bound_same. reflexivity.
Qed.

Lemma pcm_loop_same l a b c d e f fuel i tr out :
  Service.pcm_loop l a b c d e f fuel i tr out
  = Core.pcm_loop l a b c d e f fuel i tr out.
Proof.
  revert i tr out. induction fuel as [|fuel IH]; intros i tr out; simpl; [reflexivity|].
  rewrite get_input_value_at_time_same. destruct (Qltb _ _); [reflexivity|]. apply IH.
Qed.

Lemma dm_loop_same l a b c d e fuel i st :
  Service.dm_loop l a b c d e fuel i st = Core.dm_loop l a b c d e fuel i st.
Proof.
  revert i st. induction fuel as [|fuel IH]; intros i st; simpl; [reflexivity|].
  rewrite get_input_value_at_time_same. destruct (Qltb _ _); [reflexivity|]. apply IH.
Qed.

(* ------------------------------------------------------------------ *)
(** * Claims *)

(** C10: [get_input_value_at_time] on an empty point sequence returns [0.0]
    for every query time, in SignalLib.cpp and in service_impl.cpp. *)
Theorem get_input_value_at_time_empty (time : Q) :
  Core.get_input_value_at_time [] time = 0 /\
  Service.get_input_value_at_time [] time = 0.
Proof. split; reflexivity. Qed.

(** C1: on every valid input (same parameters, same scheme) the gRPC
    handlers of service_impl.cpp answer OK and write into the empty reply
    exactly the input, transmitted and output sequences that the matching
    transform of SignalLib.cpp returns: AnalogToAnalog, AnalogToDigital with
    a PCM or a DM configuration, DigitalToAnalog and DigitalToDigital. *)
Theorem transport_matches_core (sin : Q -> Q) :
  (forall msg_freq msg_amp type, 0 < msg_freq -> 0 < msg_amp ->
     Service.AnalogToAnalog sin
       (Service.mkAnalogToAnalogRequest msg_freq msg_amp (a2a_selector type))
       Service.empty_response
     = (Service.Status_OK, reply_of (Core.AnalogToAnalog sin msg_freq msg_amp type))) /\
  (forall freq amp config, 0 < freq -> 0 < amp -> 0 < sampling_rate config ->
     (2 <= quantization_levels config)%Z ->
     Service.AnalogToDigital sin
       (Service.mkAnalogToDigitalRequest freq amp
          (Some (Service.mkPCMParams (sampling_rate config) (quantization_levels config)))
          None)
       Service.empty_response
     = (Service.Status_OK, reply_of (Core.AnalogToDigitalPCM sin freq amp config))) /\
  (forall freq amp config, 0 < freq -> 0 < amp -> 0 < dm_sampling_rate config ->
     0 < delta_step_size config -> delta_step_size config <= 1 ->
     Service.AnalogToDigital sin
       (Service.mkAnalogToDigitalRequest freq amp None
          (Some (Service.mkDeltaModulationParams (dm_sampling_rate config)
                   (delta_step_size config))))
       Service.empty_response
     = (Service.Status_OK, reply_of (Core.AnalogToDigitalDM sin freq amp config))) /\
  (forall binary type, Core.invalid_binary binary = false ->
     Service.DigitalToAnalog sin
       (Service.mkDigitalToAnalogRequest binary (d2a_selector type))
       Service.empty_response
     = (Service.Status_OK, reply_of (Core.DigitalToAnalog sin binary type))) /\
  (forall binary type, Core.invalid_binary binary = false ->
     Service.DigitalToDigital
       (Service.mkDigitalToDigitalRequest binary (d2d_selector type))
       Service.empty_response
     = (Service.Status_OK, reply_of (Core.DigitalToDigital binary type))).
Proof.
  split; [|split; [|split; [|split]]].
  - intros f a t Hf Ha. unfold Service.AnalogToAnalog, Core.AnalogToAnalog.
    cbn [Service.message_frequency Service.message_amplitude Service.a2a_algorithm].
    rewrite (Qle_bool_false_of_lt f 0 Hf), (Qle_bool_false_of_lt a 0 Ha). cbn [orb].
    destruct t; reflexivity.
  - intros f a [rate lv] Hf Ha Hr Hl; cbn [sampling_rate quantization_levels] in *.
    unfold Service.AnalogToDigital, Core.AnalogToDigitalPCM, Core.adc_input_signal.
    cbn [Service.frequency Service.amplitude Service.pcm Service.pcm_sampling_rate
         Service.pcm_quantization_levels sampling_rate quantization_levels].
    rewrite (Qle_bool_false_of_lt f 0 Hf), (Qle_bool_false_of_lt a 0 Ha),
      (Qle_bool_false_of_lt rate 0 Hr).
    replace (Z.ltb lv 2) with false by (symmetry; apply Z.ltb_ge; exact Hl).
    cbn [orb]. rewrite pcm_loop_same.
    destruct (Core.pcm_loop _ _ _ _ _ _ _ _ _ _ _). reflexivity.
  - intros f a [rate st] Hf Ha Hr Hs1 Hs2; cbn [dm_sampling_rate delta_step_size] in *.
    unfold Service.AnalogToDigital, Core.AnalogToDigitalDM, Core.adc_input_signal.
    cbn [Service.frequency Service.amplitude Service.pcm Service.delta_modulation
         Service.dmp_sampling_rate Service.dmp_delta_step_size dm_sampling_rate
         delta_step_size].
    rewrite (Qle_bool_false_of_lt f 0 Hf), (Qle_bool_false_of_lt a 0 Ha),
      (Qle_bool_false_of_lt rate 0 Hr), (Qle_bool_false_of_lt st 0 Hs1),
      (Qltb_false_of_le 1 st Hs2).
    cbn [orb]. rewrite dm_loop_same. reflexivity.
  - intros b t Hb. apply invalid_binary_false_cons in Hb as (c & r & -> & He).
    unfold Service.DigitalToAnalog, Core.DigitalToAnalog, Core.invalid_binary.
    cbn [Service.d2a_binary_input Service.d2a_algorithm]. rewrite He.
    destruct t; reflexivity.
  - intros b t Hb. apply invalid_binary_false_cons in Hb as (c & r & -> & He).
    unfold Service.DigitalToDigital, Core.DigitalToDigital, Core.invalid_binary.
    cbn [Service.d2d_binary_input Service.d2d_algorithm]. rewrite He.
    destruct t; reflexivity.
Qed.

(** C6: for every frequency > 0 and amplitude > 0, AM, FM and PM return
    an output sequence equal to their input sequence, and a transmitted
    sequence as long as the input, which has 400 points (2 s at 200 Hz). *)
Theorem analog_modulation_shape (sin : Q -> Q) (msg_freq msg_amp : Q)
    (type : AnalogModulation) :
  0 < msg_freq -> 0 < msg_amp ->
  output (Core.AnalogToAnalog sin msg_freq msg_amp type)
    = input (Core.AnalogToAnalog sin msg_freq msg_amp type) /\
  length (transmitted (Core.AnalogToAnalog sin msg_freq msg_amp type))
    = length (input (Core.AnalogToAnalog sin msg_freq msg_amp type)) /\
  length (input (Core.AnalogToAnalog sin msg_freq msg_amp type)) = 400%nat.
Proof.
  intros Hf Ha. unfold Core.AnalogToAnalog.
  rewrite (Qle_bool_false_of_lt msg_freq 0 Hf), (Qle_bool_false_of_lt msg_amp 0 Ha).
  cbn [orb input output transmitted].
  split; [reflexivity|]. split.
  - destruct type; apply length_map.
  - rewrite length_map, length_seq. vm_compute. reflexivity.
Qed.

Lemma invalid_binary_true (b : list ascii) :
  (b = [] \/ exists c, In c b /\ c <> "0"%char /\ c <> "1"%char) ->
  Core.invalid_binary b = true.
Proof.
  intros [-> | (c & Hin & H0 & H1)]; [reflexivity|].
  destruct b as [|c0 r]; [destruct Hin|].
  unfold Core.invalid_binary. apply existsb_exists. exists c. split; [exact Hin|].
  apply andb_true_iff. split; apply negb_true_iff; apply Ascii.eqb_neq; assumption.
Qed.

(** C7: on an empty string, or on a string with a character other than
    '0' and '1', DigitalToAnalog (every keying) and DigitalToDigital (every
    line code) return the untouched default result: input and transmitted
    (and output) empty.  The result type has no error case, so this empty
    sentinel is the only way the core reports invalid input. *)
Theorem invalid_binary_gives_empty (sin : Q -> Q) (binary : list ascii) :
  (binary = [] \/ exists c, In c binary /\ c <> "0"%char /\ c <> "1"%char) ->
  (forall type, Core.DigitalToAnalog sin binary type = empty_result) /\
  (forall type, Core.DigitalToDigital binary type = empty_result) /\
  (forall type, input (Core.DigitalToAnalog sin binary type) = [] /\
                transmitted (Core.DigitalToAnalog sin binary type) = []) /\
  (forall type, input (Core.DigitalToDigital binary type) = [] /\
                transmitted (Core.DigitalToDigital binary type) = []).
Proof.
  intros H. apply invalid_binary_true in H.
  assert (HA : forall type, Core.DigitalToAnalog sin binary type = empty_result)
    by (intros type; unfold Core.DigitalToAnalog; rewrite H; reflexivity).
  assert (HD : forall type, Core.DigitalToDigital binary type = empty_result)
    by (intros type; unfold Core.DigitalToDigital; rewrite H; reflexivity).
  repeat split; intros; try rewrite HA; try rewrite HD; reflexivity.
Qed.

(** [std::max(lo, std::min(hi, a))] stays in [lo, hi] when [lo <= hi]. *)
Lemma clamp_bounds (lo hi a : Q) :
  lo <= hi -> lo <= std_max lo (std_min hi a) <= hi.
Proof.
  intros H. unfold std_max, std_min.
  destruct (Qltb a hi) eqn:E1; [apply Qltb_true_iff in E1 | apply Qltb_false_iff in E1];
  [destruct (Qltb lo a) eqn:E2 | destruct (Qltb lo hi) eqn:E2];
  first [apply Qltb_true_iff in E2 | apply Qltb_false_iff in E2]; lra.
Qed.

Section DMBounds.
Variables (input_signal : list Point)
  (delta sample_interval real_duration lo hi : Q).
Hypothesis Hlohi : lo <= hi.


Lemma dm_loop_in_range (fuel i : nat) (st : Core.DMState) :
  dm_state_in_range lo hi st ->
  dm_state_in_range lo hi
    (Core.dm_loop input_signal delta sample_interval real_duration lo hi fuel i st).
Proof.
  revert i st. induction fuel as [|fuel IH]; intros i st [Ha Ho]; cbn [Core.dm_loop].
  - split; assumption.
  - destruct (Qltb _ _); [split; assumption|]. apply IH. split.
    + apply clamp_bounds; assumption.
    + cbn [Core.dm_output]. intros p Hp.
      apply in_app_or in Hp as [Hp | [<- | []]]; [| apply clamp_bounds; assumption].
      destruct (rev (Core.dm_output st)) as [|back r] eqn:Er; [apply Ho; exact Hp|].
      apply in_app_or in Hp as [Hp | [<- | []]]; [apply Ho; exact Hp|].
      cbn [y]. apply Ho. apply in_rev. rewrite Er. left. reflexivity.
Qed.
End DMBounds.

(** C9: for every valid Delta Modulation invocation the running
    approximation, after any number of loop iterations, and every y value
    of the output staircase lie within [-1.5 * amp, 1.5 * amp]
    (the clamp bounds [min_approx] and [max_approx] of the code). *)
Theorem dm_approximation_bounded (sin : Q -> Q) (freq amp : Q) (config : DMConfig) :
  0 < freq -> 0 < amp -> 0 < dm_sampling_rate config ->
  0 < delta_step_size config -> delta_step_size config <= 1 ->
  (forall n : nat,
     let input_signal := Core.adc_input_signal sin freq amp in
     let st := Core.dm_loop input_signal (amp * delta_step_size config)
                 (1 / dm_sampling_rate config) (x (last input_signal default_point))
                 (- amp * (15 # 10)) (amp * (15 # 10)) n 0
                 (Core.mkDMState 0 [] [mkPoint 0 0]) in
     - amp * (15 # 10) <= Core.approximation st <= amp * (15 # 10)) /\
  (forall p, In p (output (Core.AnalogToDigitalDM sin freq amp config)) ->
     - amp * (15 # 10) <= y p <= amp * (15 # 10)).
Proof.
  intros Hf Ha Hr Hs1 Hs2.
  assert (Hlohi : - amp * (15 # 10) <= amp * (15 # 10)) by lra.
  assert (H0 : dm_state_in_range (- amp * (15 # 10)) (amp * (15 # 10))
                 (Core.mkDMState 0 [] [mkPoint 0 0])).
  { split; cbn [Core.approximation Core.dm_output]; [lra|].
    intros p [<- | []]. cbn [y]. lra. }
  split.
  - intros n input_signal st. apply (dm_loop_in_range _ _ _ _ _ _ Hlohi n 0 _ H0).
  - unfold Core.AnalogToDigitalDM.
    rewrite (Qle_bool_false_of_lt freq 0 Hf), (Qle_bool_false_of_lt amp 0 Ha),
      (Qle_bool_false_of_lt _ 0 Hr), (Qle_bool_false_of_lt _ 0 Hs1),
      (Qltb_false_of_le 1 _ Hs2).
    cbn [orb output].
    match goal with
    | |- context [Core.dm_loop ?l ?d ?si ?rd ?lo ?hi ?f ?i ?s] =>
        destruct (dm_loop_in_range l d si rd lo hi Hlohi f i s H0) as [_ Ho];
        set (st := Core.dm_loop l d si rd lo hi f i s) in *
    end.
    intros p Hp.
    destruct (rev (Core.dm_output st)) as [|back r] eqn:Er; [apply Ho; exact Hp|].
    apply in_app_or in Hp as [Hp | [<- | []]]; [apply Ho; exact Hp|].
    cbn [y]. apply Ho. apply in_rev. rewrite Er. left. reflexivity.
Qed.

(** ** The interpolator stays within the range of the sampled values *)

Lemma lower_bound_le_length (l : list Point) (t : Q) :
  (Core.lower_bound l t <= length l)%nat.
Proof.
  induction l as [|p l IH]; cbn; [lia|]. destruct (Qltb (x p) t); lia.
Qed.

Lemma lower_bound_prefix (l : list Point) (t : Q) (k : nat) (d : Point) :
  (k < Core.lower_bound l t)%nat -> x (nth k l d) < t.
Proof.
  revert k. induction l as [|p l IH]; intros k Hk; cbn in Hk; [lia|].
  destruct (Qltb (x p) t) eqn:E; [|lia].
  destruct k as [|k]; cbn; [apply Qltb_true_iff; exact E|]. apply IH. lia.
Qed.

Lemma lower_bound_at (l : list Point) (t : Q) (d : Point) :
  (Core.lower_bound l t < length l)%nat -> t <= x (nth (Core.lower_bound l t) l d).
Proof.
  induction l as [|p l IH]; cbn; intros H; [lia|].
  destruct (Qltb (x p) t) eqn:E; cbn.
  - apply IH. lia.
  - apply Qltb_false_iff in E. exact E.
Qed.

Lemma lower_bound_full (l : list Point) (t : Q) :
  Core.lower_bound l t = length l -> forall p, In p l -> x p < t.
Proof.
  induction l as [|q l IH]; cbn; intros H p Hp; [destruct Hp|].
  destruct (Qltb (x q) t) eqn:E; [|discriminate].
  destruct Hp as [<- | Hp]; [apply Qltb_true_iff; exact E|].
  apply IH; [lia | exact Hp].
Qed.

Lemma last_in (l : list Point) (d : Point) : l <> [] -> In (last l d) l.
Proof.
  induction l as [|p l IH]; intros H; [congruence|].
  destruct l as [|q l]; [left; reflexivity|].
  right. apply IH. discriminate.
Qed.

Lemma convex_in_range (lo hi y1 y2 r : Q) :
  lo <= y1 <= hi -> lo <= y2 <= hi -> 0 <= r <= 1 ->
  lo <= y1 + r * (y2 - y1) <= hi.
Proof.
  intros [H1 H2] [H3 H4] [H5 H6].
  assert (E : y1 + r * (y2 - y1) == y1 * (1 - r) + y2 * r) by ring.
  rewrite E. split.
  - setoid_replace lo with (lo * (1 - r) + lo * r) by ring.
    apply Qplus_le_compat; apply Qmult_le_compat_r; lra.
  - setoid_replace hi with (hi * (1 - r) + hi * r) by ring.
    apply Qplus_le_compat; apply Qmult_le_compat_r; lra.
Qed.

Lemma get_input_value_in_range (l : list Point) (t lo hi : Q) :
  l <> [] -> (forall p, In p l -> lo <= y p <= hi) ->
  lo <= Core.get_input_value_at_time l t <= hi.
Proof.
  intros Hne Hl. destruct l as [|front r]; [congruence|].
  unfold Core.get_input_value_at_time. cbv beta iota.
  set (l := front :: r) in *.
  destruct (Qle_bool t (x front)) eqn:E1; [apply Hl; left; reflexivity|].
  assert (Hback : In (last l front) l) by (apply last_in; exact Hne).
  destruct (Qle_bool (x (last l front)) t) eqn:E2; [apply Hl; exact Hback|].
  assert (Hlt : (Core.lower_bound l t < length l)%nat).
  { pose proof (lower_bound_le_length l t) as H.
    destruct (PeanoNat.Nat.eq_dec (Core.lower_bound l t) (length l)) as [Heq|]; [|lia].
    pose proof (lower_bound_full l t Heq _ Hback) as Hx.
    apply Qlt_le_weak, Qle_bool_iff in Hx. congruence. }
  destruct (Nat.eqb _ 0) eqn:E3; [apply Hl; apply nth_In; exact Hlt|].
  apply Nat.eqb_neq in E3.
  set (k := Core.lower_bound l t) in *.
  set (p2 := nth k l default_point). set (p1 := nth (k - 1) l default_point).
  assert (Hp1 : x p1 < t) by (apply lower_bound_prefix; lia).
  assert (Hp2 : t <= x p2) by (apply lower_bound_at; exact Hlt).
  assert (In1 : In p1 l) by (apply nth_In; lia).
  assert (In2 : In p2 l) by (apply nth_In; lia).
  destruct (Qeq_bool (x p2) (x p1)); [apply Hl; exact In1|].
  apply convex_in_range; [apply Hl; exact In1 | apply Hl; exact In2|].
  assert (Hd : 0 < x p2 - x p1) by lra.
  split.
  - apply Qle_shift_div_l; [exact Hd|]. lra.
  - apply Qle_shift_div_r; [exact Hd|]. lra.
Qed.

Lemma adc_input_signal_in_range (sin : Q -> Q) (freq amp : Q) :
  (forall q, -1 <= sin q <= 1) -> 0 < amp ->
  forall p, In p (Core.adc_input_signal sin freq amp) -> - amp <= y p <= amp.
Proof.
  intros Hsin Ha p Hp. unfold Core.adc_input_signal in Hp.
  apply in_map_iff in Hp as (i & <- & _). cbn [y].
  destruct (Hsin (2 * PI * freq * (Q_of_nat i * (1 / inject_Z 100)))) as [H1 H2].
  split.
  - setoid_replace (- amp) with (amp * -1) by ring. apply Qmult_le_l; assumption.
  - setoid_replace amp with (amp * 1) at 2 by ring. apply Qmult_le_l; assumption.
Qed.

Lemma adc_input_signal_not_nil (sin : Q -> Q) (freq amp : Q) :
  Core.adc_input_signal sin freq amp <> [].
Proof. unfold Core.adc_input_signal. cbn. discriminate. Qed.

Lemma std_round_unit (q : Q) : 0 <= q <= 1 ->
  std_round q = inject_Z 0 \/ std_round q = inject_Z 1.
Proof.
  intros [H0 H1]. unfold std_round.
  replace (Qle_bool 0 q) with true by (symmetry; apply Qle_bool_iff; exact H0).
  pose proof (Qfloor_le (q + (1 # 2))) as Hl.
  pose proof (Qlt_floor (q + (1 # 2))) as Hu.
  set (z := Qfloor (q + (1 # 2))) in *.
  assert (Hz1 : inject_Z z <= 3 # 2) by lra.
  assert (Hz0 : 1 # 2 < inject_Z (z + 1)) by lra.
  unfold Qle in Hz1; unfold Qlt in Hz0; cbn [Qnum Qden inject_Z] in Hz1, Hz0.
  assert (z = 0%Z \/ z = 1%Z) as [-> | ->] by lia; [left | right]; reflexivity.
Qed.

Section PCMTwoLevels.
Variables (input_signal : list Point) (sample_interval real_duration amp : Q).
Hypothesis Hamp : 0 < amp.
Hypothesis Hin : forall p, In p input_signal -> - amp <= y p <= amp.
Hypothesis Hne : input_signal <> [].


Lemma pcm_loop_two_levels (fuel i : nat) (tr out : list Point) :
  at_full_scale amp out ->
  at_full_scale amp
    (snd (Core.pcm_loop input_signal sample_interval real_duration amp (1 / amp)
            (inject_Z (2 - 1)) (1 / inject_Z (2 - 1)) fuel i tr out)).
Proof.
  revert i tr out. induction fuel as [|fuel IH]; intros i tr out Hout;
    cbn [Core.pcm_loop]; [exact Hout|].
  destruct (Qltb _ _); [exact Hout|]. apply IH.
  intros p Hp. apply in_app_or in Hp as [Hp | [<- | []]]; [apply Hout; exact Hp|].
  cbn [y].
  set (t := std_round (Q_of_nat i * sample_interval * 1000000) / 1000000).
  pose proof (get_input_value_in_range input_signal t _ _ Hne Hin) as [Hv1 Hv2].
  set (v := Core.get_input_value_at_time input_signal t) in *.
  assert (Hw : -1 <= v * (1 / amp) <= 1).
  { assert (E : v == v * (1 / amp) * amp) by (field; lra).
    rewrite E in Hv1, Hv2. split.
    - apply (Qmult_le_r _ _ amp Hamp). lra.
    - apply (Qmult_le_r _ _ amp Hamp). lra. }
  assert (Hn : 0 <= (v * (1 / amp) + 1) * (5 # 10) * inject_Z (2 - 1) <= 1).
  { change (inject_Z (2 - 1)) with 1. set (w := v * (1 / amp)) in *. split; lra. }
  destruct (std_round_unit _ Hn) as [-> | ->]; [right | left];
    change (inject_Z (2 - 1)) with 1; field.
Qed.
End PCMTwoLevels.

(** C8: for PCM with [quantization_levels = 2] (any frequency, amplitude
    and sampling rate) every point of the output sequence has y equal to
    [+amp] or [-amp], whatever [std::sin] returns within [-1, 1]. *)
Theorem pcm_two_levels_output (sin : Q -> Q) (freq amp rate : Q) :
  (forall q, -1 <= sin q <= 1) ->
  forall p, In p (output (Core.AnalogToDigitalPCM sin freq amp (mkPCMConfig rate 2))) ->
  y p == amp \/ y p == - amp.
Proof.
  intros Hsin p Hp. unfold Core.AnalogToDigitalPCM in Hp.
  cbn [sampling_rate quantization_levels] in Hp.
  destruct (Qle_bool freq 0 || Qle_bool amp 0 || Qle_bool rate 0 || Z.ltb 2 2) eqn:V;
    [destruct Hp|].
  apply orb_false_iff in V as [V _]. apply orb_false_iff in V as [V _].
  apply orb_false_iff in V as [_ V].
  assert (Ha : 0 < amp) by (apply Qnot_le_lt; intros H; apply Qle_bool_iff in H; congruence).
  match type of Hp with
  | In p (output (let (_, _) := ?c in _)) => destruct c as [tr out] eqn:Ec
  end.
  cbn [output] in Hp.
  pose proof (pcm_loop_two_levels (Core.adc_input_signal sin freq amp)
                (1 / rate) (x (last (Core.adc_input_signal sin freq amp) default_point))
                amp Ha (adc_input_signal_in_range sin freq amp Hsin Ha)
                (adc_input_signal_not_nil sin freq amp)
                (loop_fuel (1 / rate)
                   (x (last (Core.adc_input_signal sin freq amp) default_point)))
                0 [] []) as H.
  rewrite Ec in H. apply H; [intros q []| exact Hp].
Qed.

(** ** Sample times of the converters *)

Lemma inject_Z_le_floor (z : Z) (q : Q) : inject_Z z <= q <-> (z <= Qfloor q)%Z.
Proof.
  split.
  - intros H. rewrite <- (Qfloor_Z z). apply Qfloor_resp_le. exact H.
  - intros H. apply Qle_trans with (inject_Z (Qfloor q)); [|apply Qfloor_le].
    rewrite <- Zle_Qle. exact H.
Qed.

Lemma tick_count_spec (si rd : Q) (i : nat) : 0 < si -> 0 <= rd ->
  (i < tick_count si rd)%nat <-> Q_of_nat i * si <= rd.
Proof.
  intros Hsi Hrd. unfold tick_count.
  assert (H0 : (0 <= Qfloor (rd / si))%Z).
  { apply inject_Z_le_floor. apply Qle_shift_div_l; [exact Hsi|].
    change (inject_Z 0) with 0. lra. }
  split.
  - intros Hi. unfold Q_of_nat.
    assert (Hz : inject_Z (Z.of_nat i) <= rd / si) by (apply inject_Z_le_floor; lia).
    apply Qmult_le_compat_r with (z := si) in Hz; [|lra].
    setoid_replace (rd / si * si) with rd in Hz by (field; lra). exact Hz.
  - intros Hi. apply Qle_shift_div_l in Hi; [|exact Hsi].
    unfold Q_of_nat in Hi. apply inject_Z_le_floor in Hi. lia.
Qed.

Lemma tick_count_le_fuel (si rd : Q) : 0 < si -> 0 <= rd ->
  (tick_count si rd <= loop_fuel si rd)%nat.
Proof.
  intros Hsi Hrd. unfold tick_count, loop_fuel.
  pose proof (Qle_floor_ceiling (rd / si)) as H. rewrite <- Zle_Qle in H. lia.
Qed.

Section PCMTicks.
Variables (input_signal : list Point)
  (sample_interval real_duration amp inv_amp quant_range inv_quant_range : Q)
  (N : nat).
Hypothesis HN : forall i, (i < N)%nat <-> Q_of_nat i * sample_interval <= real_duration.

Lemma pcm_loop_ticks (fuel i : nat) (tr out : list Point) :
  (i <= N)%nat -> (N <= i + fuel)%nat ->
  let res := Core.pcm_loop input_signal sample_interval real_duration amp inv_amp
               quant_range inv_quant_range fuel i tr out in
  map x (fst res) = map x tr ++ map (pcm_tick sample_interval) (seq i (N - i)) /\
  map x (snd res) = map x out ++ map (pcm_tick sample_interval) (seq i (N - i)).
Proof.
  revert i tr out. induction fuel as [|fuel IH]; intros i tr out H1 H2 res.
  - assert (i = N) as -> by lia. rewrite Nat.sub_diag. cbn. rewrite !app_nil_r. auto.
  - subst res. cbn [Core.pcm_loop].
    destruct (Nat.eq_dec i N) as [-> | Hlt].
    + replace (Qltb real_duration (Q_of_nat N * sample_interval)) with true.
      * rewrite Nat.sub_diag. cbn. rewrite !app_nil_r. auto.
      * symmetry. apply Qltb_true_iff. apply Qnot_le_lt. intros H.
        apply HN in H. lia.
    + rewrite Qltb_false_of_le by (apply HN; lia).
      match goal with
      | |- context [Core.pcm_loop _ _ _ _ _ _ _ fuel (S i) ?a ?b] =>
          destruct (IH (S i) a b) as [E1 E2]; [lia | lia |]
      end.
      replace (N - i)%nat with (S (N - S i)) by lia. cbn [seq map].
      unfold pcm_tick in E1, E2 |- *.
      rewrite E1, E2, !map_app. cbn. rewrite <- !app_assoc. auto.
Qed.
End PCMTicks.

Lemma adc_last_x (sin : Q -> Q) (freq amp : Q) :
  x (last (Core.adc_input_signal sin freq amp) default_point)
  = Q_of_nat 199 * (1 / inject_Z 100).
Proof.
  unfold Core.adc_input_signal. cbv zeta.
  replace (Z.to_nat (static_cast_int (2 * inject_Z 100))) with (S 199) by reflexivity.
  rewrite seq_S, map_app. cbn [map]. rewrite last_last. reflexivity.
Qed.

Lemma pcm_result_ticks (sin : Q -> Q) (freq amp : Q) (config : PCMConfig) :
  0 < freq -> 0 < amp -> 0 < sampling_rate config ->
  (2 <= quantization_levels config)%Z ->
  let r := Core.AnalogToDigitalPCM sin freq amp config in
  let si := 1 / sampling_rate config in
  exists N : nat,
    (forall i : nat, (i < N)%nat <-> Q_of_nat i * si <= 199 # 100) /\
    map x (transmitted r) = map (pcm_tick si) (seq 0 N) /\
    map x (output r) = map (pcm_tick si) (seq 0 N).
Proof.
  intros Hf Ha Hr Hq r si. subst r.
  unfold Core.AnalogToDigitalPCM.
  rewrite (Qle_bool_false_of_lt freq 0 Hf), (Qle_bool_false_of_lt amp 0 Ha),
    (Qle_bool_false_of_lt _ 0 Hr).
  replace (Z.ltb (quantization_levels config) 2) with false
    by (symmetry; apply Z.ltb_ge; exact Hq).
  cbn [orb]. rewrite adc_last_x.
  change (Q_of_nat 199 * (1 / inject_Z 100)) with (199 # 100).
  fold si.
  assert (Hsi : 0 < si) by (subst si; apply Qlt_shift_div_l; lra).
  assert (Hrd : 0 <= 199 # 100) by lra.
  exists (tick_count si (199 # 100)).
  split; [intros i; apply tick_count_spec; assumption|].
  match goal with
  | |- context [let (_, _) := ?c in _] => destruct c as [tr out] eqn:Ec
  end.
  pose proof (pcm_loop_ticks (Core.adc_input_signal sin freq amp) si (199 # 100)
                amp (1 / amp) (inject_Z (quantization_levels config - 1))
                (1 / inject_Z (quantization_levels config - 1))
                (tick_count si (199 # 100))
                (fun i => tick_count_spec si (199 # 100) i Hsi Hrd)
                (loop_fuel si (199 # 100)) 0 [] []) as H.
  cbv zeta in H. rewrite Ec in H. rewrite Nat.sub_0_r in H. cbn [fst snd map app] in H.
  destruct H as [H1 H2]; [lia | pose proof (tick_count_le_fuel si _ Hsi Hrd); lia |].
  cbn [transmitted output]. auto.
Qed.

(** C5 counterexample: with sampling rate 1 the converter emits two points,
    at t = 0 and t = 1; there is no point at t = 2. *)
Lemma pcm_rate_one_ticks :
  let r := Core.AnalogToDigitalPCM sin_clip 1 1 (mkPCMConfig 1 2) in
  length (transmitted r) = 2%nat /\ length (output r) = 2%nat /\
  forallb (fun t => Qltb t 2) (map x (transmitted r)) = true.
Proof. vm_compute. auto. Qed.

(** ** B8ZS and HDB3 line coders *)

Lemma rem_even (cnt : nat) : Z.eqb (Z.rem (Z.of_nat cnt) 2) 0 = Nat.even cnt.
Proof.
  rewrite Z.rem_mod_nonneg by lia.
  change 2%Z with (Z.of_nat 2). rewrite <- Znat.Nat2Z.inj_mod.
  induction cnt as [cnt IH] using lt_wf_ind.
  destruct cnt as [|[|n]]; [reflexivity|reflexivity|].
  cbn [Nat.even]. rewrite <- IH by lia.
  replace (S (S n)) with (n + 1 * 2)%nat by lia. rewrite Nat.Div0.mod_add. reflexivity.
Qed.

Lemma level_points_app (k : nat) (A B : list Q) :
  level_points k (A ++ B) = level_points k A ++ level_points (k + length A) B.
Proof.
  revert k. induction A as [|v A IH]; intros k; cbn [app level_points length].
  - rewrite Nat.add_0_r. reflexivity.
  - replace (k + S (length A))%nat with (S k + length A)%nat by lia.
    rewrite IH, app_assoc. reflexivity.
Qed.

Lemma flat_map_seq_S {B : Type} (f : nat -> list B) (a n : nat) :
  flat_map f (seq (S a) n) = flat_map (fun j => f (S j)) (seq a n).
Proof.
  revert a. induction n as [|n IH]; intros a; [reflexivity|].
  cbn [seq flat_map]. rewrite IH. reflexivity.
Qed.

Lemma flat_map_seq_ext {B : Type} (f g : nat -> list B) (a n : nat) :
  (forall j, f j = g j) -> flat_map f (seq a n) = flat_map g (seq a n).
Proof.
  intros H. revert a. induction n as [|n IH]; intros a; [reflexivity|].
  cbn [seq flat_map]. rewrite H, IH. reflexivity.
Qed.

Lemma pattern_points_level (i : nat) (pattern : list Q) :
  Core.pattern_points i pattern = level_points i pattern.
Proof.
  revert i. induction pattern as [|v r IH]; intros i; [reflexivity|].
  unfold Core.pattern_points in *. cbn [length seq flat_map level_points nth].
  rewrite flat_map_seq_S, <- IH. unfold Core.bit_points.
  rewrite !Nat.add_0_r. cbn [app]. do 2 f_equal.
  apply flat_map_seq_ext. intros j. cbn [nth]. rewrite Nat.add_succ_r. reflexivity.
Qed.

Lemma firstn_zeros_iff (s : list ascii) (w : nat) :
  firstn w s = repeat "0"%char w <->
  (w <= length s)%nat /\ (forall j, (j < w)%nat -> nth j s "0"%char = "0"%char).
Proof.
  revert s. induction w as [|w IH]; intros s.
  - split; [intros _; split; [lia | intros j Hj; lia] | reflexivity].
  - destruct s as [|c s].
    + split; [discriminate | intros [H _]; cbn in H; lia].
    + cbn [firstn repeat length]. split.
      * intros H. injection H as Hc H. apply IH in H as [H1 H2].
        split; [lia|]. intros [|j] Hj; [exact Hc | apply H2; lia].
      * intros [H1 H2]. pose proof (H2 0%nat ltac:(lia)) as Hc. cbn [nth] in Hc.
        rewrite Hc. f_equal.
        apply IH. split; [lia|]. intros j Hj. apply (H2 (S j)). lia.
Qed.

Lemma zeros_window_iff (b : list ascii) (i w : nat) : (1 <= w)%nat ->
  Core.zeros_window b (length b) i w = true <->
  firstn w (skipn i b) = repeat "0"%char w.
Proof.
  intros Hw. rewrite firstn_zeros_iff, length_skipn. unfold Core.zeros_window.
  destruct (Nat.ltb_spec (i + (w - 1)) (length b)) as [Hlt | Hge].
  - rewrite forallb_forall. split.
    + intros H. split; [lia|]. intros j Hj. rewrite nth_skipn.
      apply Ascii.eqb_eq, H, in_seq. lia.
    + intros [_ H] j Hj. apply in_seq in Hj. apply Ascii.eqb_eq.
      rewrite <- nth_skipn. apply H. lia.
  - split; [discriminate | intros [H _]; lia].
Qed.

Lemma skipn_nth_cons {A : Type} (l : list A) (i : nat) (d : A) : (i < length l)%nat ->
  skipn i l = nth i l d :: skipn (S i) l.
Proof.
  revert i. induction l as [|a l IH]; intros i Hi; [cbn in Hi; lia|].
  destruct i as [|i]; [reflexivity|]. cbn [skipn nth]. apply IH. cbn in Hi. lia.
Qed.

Lemma valid_bits (b : list ascii) : Core.invalid_binary b = false ->
  forall c, In c b -> c = "0"%char \/ c = "1"%char.
Proof.
  intros Hv c Hc. destruct b as [|c0 r]; [destruct Hc|].
  unfold Core.invalid_binary in Hv.
  destruct (Ascii.eqb_spec c "0") as [E0 | N0]; [left; exact E0|].
  destruct (Ascii.eqb_spec c "1") as [E1 | N1]; [right; exact E1|].
  assert (existsb (fun c => negb (c =? "0")%char && negb (c =? "1")%char) (c0 :: r) = true)
    as H; [|congruence].
  apply existsb_exists. exists c. split; [exact Hc|].
  apply andb_true_iff. split; apply negb_true_iff; apply Ascii.eqb_neq; assumption.
Qed.

Section LineCoderLoops.
Variable b : list ascii.
Hypothesis Hbits : forall c, In c b -> c = "0"%char \/ c = "1"%char.

Lemma bit_at (i : nat) : (i < length b)%nat ->
  skipn i b = nth i b "0"%char :: skipn (S i) b /\
  (nth i b "0"%char = "0"%char \/ nth i b "0"%char = "1"%char).
Proof.
  intros Hi. split; [apply skipn_nth_cons; exact Hi|].
  apply Hbits, nth_In, Hi.
Qed.

Lemma b8zs_loop (fuel i : nat) (pol : Q) (tr : list Point) :
  (i <= length b)%nat -> (length b - i <= fuel)%nat ->
  exists L, b8zs_spec pol (skipn i b) L /\
    snd (for_loop fuel (length b) (Core.b8zs_body b (length b)) i (pol, tr))
    = tr ++ level_points i L.
Proof.
  revert i pol tr. induction fuel as [|fuel IH]; intros i pol tr H1 H2.
  - assert (i = length b) as -> by lia. exists [].
    rewrite skipn_all. split; [constructor | cbn; rewrite app_nil_r; reflexivity].
  - cbn [for_loop]. destruct (Nat.ltb_spec i (length b)) as [Hlt | Hge].
    2:{ assert (i = length b) as -> by lia. exists [].
        rewrite skipn_all. split; [constructor | cbn; rewrite app_nil_r; reflexivity]. }
    unfold Core.b8zs_body at 1.
    destruct (Core.zeros_window b (length b) i 8) eqn:W.
    + apply zeros_window_iff in W as W'; [|lia].
      assert (Hlen : (8 <= length b - i)%nat)
        by (apply firstn_zeros_iff in W' as [W1 _]; rewrite length_skipn in W1; exact W1).
      destruct (IH (S (i + 7)) (- pol)
                  (tr ++ Core.pattern_points i [0; 0; 0; pol; - pol; 0; pol; - pol]))
        as (L & HL & E); [lia | lia |].
      exists ([0; 0; 0; pol; - pol; 0; pol; - pol] ++ L). split.
      * apply b8zs_subst; [exact W'|]. rewrite skipn_skipn.
        replace (8 + i)%nat with (S (i + 7)) by lia. exact HL.
      * rewrite E, pattern_points_level, level_points_app, app_assoc.
        cbn [length]. replace (i + 8)%nat with (S (i + 7)) by lia. reflexivity.
    + destruct (bit_at i Hlt) as [Hs [Hc | Hc]]; rewrite Hs, Hc.
      * change (("0" =? "1")%char) with false. cbv beta iota.
        destruct (IH (S i) pol (tr ++ Core.bit_points i 0)) as (L & HL & E); [lia | lia |].
        exists (0 :: L). split.
        -- apply b8zs_space; [|exact HL]. intros W'.
           assert (W2 : firstn 8 (skipn i b) = repeat "0"%char 8) by (rewrite Hs, Hc; exact W').
           apply zeros_window_iff in W2; [congruence | lia].
        -- rewrite E. cbn [level_points]. rewrite app_assoc. reflexivity.
      * change (("1" =? "1")%char) with true. cbv beta iota.
        destruct (IH (S i) (- pol) (tr ++ Core.bit_points i (- pol))) as (L & HL & E);
          [lia | lia |].
        exists (- pol :: L). split.
        -- apply b8zs_mark, HL.
        -- rewrite E. cbn [level_points]. rewrite app_assoc. reflexivity.
Qed.
Lemma hdb3_loop (fuel i : nat) (pol : Q) (cnt : nat) (tr : list Point) :
  (i <= length b)%nat -> (length b - i <= fuel)%nat ->
  exists L, hdb3_spec pol cnt (skipn i b) L /\
    snd (for_loop fuel (length b) (Core.hdb3_body b (length b)) i
           (pol, Z.of_nat cnt, tr))
    = tr ++ level_points i L.
Proof.
  revert i pol cnt tr. induction fuel as [|fuel IH]; intros i pol cnt tr H1 H2.
  - assert (i = length b) as -> by lia. exists [].
    rewrite skipn_all. split; [constructor | cbn; rewrite app_nil_r; reflexivity].
  - cbn [for_loop]. destruct (Nat.ltb_spec i (length b)) as [Hlt | Hge].
    2:{ assert (i = length b) as -> by lia. exists [].
        rewrite skipn_all. split; [constructor | cbn; rewrite app_nil_r; reflexivity]. }
    unfold Core.hdb3_body at 1. cbv beta iota.
    destruct (Core.zeros_window b (length b) i 4) eqn:W.
    + apply zeros_window_iff in W as W'; [|lia].
      assert (Hlen : (4 <= length b - i)%nat)
        by (apply firstn_zeros_iff in W' as [W1 _]; rewrite length_skipn in W1; exact W1).
      rewrite rem_even. destruct (Nat.even cnt) eqn:Ev; cbv beta iota.
      * destruct (IH (S (i + 3)) pol 0%nat
                    (tr ++ Core.pattern_points i [0; 0; 0; pol]))
          as (L & HL & E); [lia | lia |]. cbn [Z.of_nat] in E.
        exists ([0; 0; 0; pol] ++ L). split.
        -- apply hdb3_subst_even; [exact W' | exact Ev|]. rewrite skipn_skipn.
           replace (4 + i)%nat with (S (i + 3)) by lia. exact HL.
        -- rewrite E, pattern_points_level, level_points_app, app_assoc.
           cbn [length]. replace (i + 4)%nat with (S (i + 3)) by lia. reflexivity.
      * destruct (IH (S (i + 3)) (- pol) 0%nat
                    (tr ++ Core.pattern_points i [- pol; 0; 0; - pol]))
          as (L & HL & E); [lia | lia |]. cbn [Z.of_nat] in E.
        exists ([- pol; 0; 0; - pol] ++ L). split.
        -- apply hdb3_subst_odd; [exact W' | exact Ev|]. rewrite skipn_skipn.
           replace (4 + i)%nat with (S (i + 3)) by lia. exact HL.
        -- rewrite E, pattern_points_level, level_points_app, app_assoc.
           cbn [length]. replace (i + 4)%nat with (S (i + 3)) by lia. reflexivity.
    + destruct (bit_at i Hlt) as [Hs [Hc | Hc]]; rewrite Hs, Hc.
      * change (("0" =? "1")%char) with false. cbv beta iota.
        destruct (IH (S i) pol cnt (tr ++ Core.bit_points i 0)) as (L & HL & E);
          [lia | lia |].
        exists (0 :: L). split.
        -- apply hdb3_space; [|exact HL]. intros W'.
           assert (W2 : firstn 4 (skipn i b) = repeat "0"%char 4) by (rewrite Hs, Hc; exact W').
           apply zeros_window_iff in W2; [congruence | lia].
        -- rewrite E. cbn [level_points]. rewrite app_assoc. reflexivity.
      * change (("1" =? "1")%char) with true. cbv beta iota.
        replace (Z.of_nat cnt + 1)%Z with (Z.of_nat (S cnt)) by lia.
        destruct (IH (S i) (- pol) (S cnt) (tr ++ Core.bit_points i (- pol)))
          as (L & HL & E); [lia | lia |].
        exists (- pol :: L). split.
        -- apply hdb3_mark, HL.
        -- rewrite E. cbn [level_points]. rewrite app_assoc. reflexivity.
Qed.
End LineCoderLoops.

Lemma b8zs_after_mark (pol : Q) (s : list ascii) (L : list Q) :
  b8zs_spec pol s L ->
  forall u w, s = u ++ "1"%char :: repeat "0"%char 8 ++ w ->
  let P := nth (length u) L 0 in
  firstn 8 (skipn (S (length u)) L) = [0; 0; 0; P; - P; 0; P; - P].
Proof.
  induction 1 as [pol | pol s L Hw HL IH | pol s L HL IH | pol s L Hw HL IH];
    intros u w Es P; subst P.
  - destruct u; discriminate.
  - assert (Hu : (8 <= length u)%nat).
    { apply firstn_zeros_iff in Hw as [_ Hw].
      destruct (Nat.lt_ge_cases (length u) 8) as [Hlt | Hge]; [|exact Hge].
      specialize (Hw (length u) Hlt). rewrite Es, nth_middle in Hw. discriminate. }
    rewrite Es, skipn_app in IH.
    replace (8 - length u)%nat with 0%nat in IH by lia. rewrite skipn_0 in IH.
    specialize (IH (skipn 8 u) w eq_refl). rewrite length_skipn in IH.
    rewrite skipn_app, (skipn_all2 [0; 0; 0; pol; - pol; 0; pol; - pol]) by (cbn; lia).
    rewrite app_nth2 by (cbn; lia). cbn [length app].
    replace (S (length u) - 8)%nat with (S (length u - 8)) by lia. exact IH.
  - destruct u as [|c u].
    + injection Es as Es. subst s. cbn [repeat app] in HL.
      inversion HL; subst; [reflexivity|].
      exfalso. match goal with H : firstn _ _ <> _ |- _ => apply H; reflexivity end.
    + injection Es as _ Es. apply (IH u w Es).
  - destruct u as [|c u].
    + discriminate.
    + injection Es as _ Es. apply (IH u w Es).
Qed.

(** C3: for every valid bit string the B8ZS coder emits one level per bit
    (points [(i, v)] and [(i+1, v)]), and the levels follow [b8zs_spec]
    from polarity -1: the AMI rule, except that when the eight bits from the
    cursor are all '0' it emits [0,0,0,V,B,0,V,B] (V the current polarity,
    B = -V), moves the cursor 8 bits on and continues with polarity B.  In
    particular, after a mark of level P, eight zeros are coded
    [0,0,0,P,-P,0,P,-P]. *)
Theorem b8zs_substitution (binary : list ascii) :
  Core.invalid_binary binary = false ->
  exists L : list Q,
    transmitted (Core.DigitalToDigital binary B8ZS) = level_points 0 L /\
    b8zs_spec (-1) binary L /\
    (forall u w, binary = u ++ "1"%char :: repeat "0"%char 8 ++ w ->
       let P := nth (length u) L 0 in
       firstn 8 (skipn (S (length u)) L) = [0; 0; 0; P; - P; 0; P; - P]).
Proof.
  intros Hv. unfold Core.DigitalToDigital. rewrite Hv. cbv beta iota zeta.
  cbn [transmitted].
  destruct (b8zs_loop binary (valid_bits binary Hv) (length binary) 0 (-1) [])
    as (L & HL & E); [lia | lia |].
  exists L. rewrite skipn_0 in HL. split; [exact E | split; [exact HL|]].
  intros u w Eb. exact (b8zs_after_mark _ _ _ HL u w Eb).
Qed.

(** C4: for every valid bit string the HDB3 coder emits one level per bit,
    and the levels follow [hdb3_spec] from polarity -1 and mark count 0: the
    AMI rule (counting marks), except that when the four bits from the
    cursor are all '0' it emits [0,0,0,V] after an even number of marks
    since the last substitution and [B,0,0,V] (B = V = -last polarity)
    after an odd number, V being the resulting polarity, moves the cursor 4
    bits on and resets the count. *)
Theorem hdb3_substitution (binary : list ascii) :
  Core.invalid_binary binary = false ->
  exists L : list Q,
    transmitted (Core.DigitalToDigital binary HDB3) = level_points 0 L /\
    hdb3_spec (-1) 0 binary L.
Proof.
  intros Hv. unfold Core.DigitalToDigital. rewrite Hv. cbv beta iota zeta.
  cbn [transmitted].
  destruct (hdb3_loop binary (valid_bits binary Hv) (length binary) 0 (-1) 0 [])
    as (L & HL & E); [lia | lia |].
  exists L. rewrite skipn_0 in HL. split; [exact E | exact HL].
Qed.

(** ** Order of the x coordinates *)

Lemma nondecreasing_app (A B : list Q) :
  nondecreasing A -> nondecreasing B ->
  (forall a b, In a A -> In b B -> a <= b) -> nondecreasing (A ++ B).
Proof.
  induction A as [|a A IH]; intros HA HB H; [exact HB|].
  destruct A as [|a' A].
  - destruct B as [|b B]; [exact I|]. split; [apply H; left; reflexivity | exact HB].
  - destruct HA as [Ha HA]. split; [exact Ha|].
    apply IH; [exact HA | exact HB |]. intros u v Hu Hv. apply H; [right|]; assumption.
Qed.

Lemma qs_in_nil (lo hi : Q) : qs_in lo hi [].
Proof. split; [exact I | constructor]. Qed.

Lemma qs_in_app (lo mid hi : Q) (A B : list Q) : lo <= mid -> mid <= hi ->
  qs_in lo mid A -> qs_in mid hi B -> qs_in lo hi (A ++ B).
Proof.
  intros H1 H2 [HA FA] [HB FB]. split.
  - apply nondecreasing_app; [exact HA | exact HB |].
    intros a b Ha Hb. rewrite Forall_forall in FA, FB.
    specialize (FA a Ha). specialize (FB b Hb). lra.
  - apply Forall_app. split.
    + eapply Forall_impl; [|exact FA]. intros t Ht. cbv beta in *. lra.
    + eapply Forall_impl; [|exact FB]. intros t Ht. cbv beta in *. lra.
Qed.

Lemma qs_in_weaken (lo hi lo' hi' : Q) (l : list Q) :
  lo' <= lo -> hi <= hi' -> qs_in lo hi l -> qs_in lo' hi' l.
Proof.
  intros H1 H2 [Hs F]. split; [exact Hs|].
  eapply Forall_impl; [|exact F]. intros t Ht. cbv beta in *. lra.
Qed.

Lemma mono_le (c : nat -> Q) : (forall i, c i <= c (S i)) ->
  forall a b, (a <= b)%nat -> c a <= c b.
Proof.
  intros H a b Hab. induction Hab as [|b Hab IH]; [apply Qle_refl|].
  eapply Qle_trans; [exact IH | apply H].
Qed.

Lemma qs_in_flat_map_seq (f : nat -> list Q) (c : nat -> Q) (a n : nat) :
  (forall i, c i <= c (S i)) -> (forall i, qs_in (c i) (c (S i)) (f i)) ->
  qs_in (c a) (c (a + n)%nat) (flat_map f (seq a n)).
Proof.
  intros Hc Hf. revert a. induction n as [|n IH]; intros a; [apply qs_in_nil|].
  cbn [seq flat_map]. apply qs_in_app with (c (S a)).
  - apply Hc.
  - apply mono_le; [exact Hc | lia].
  - apply Hf.
  - replace (a + S n)%nat with (S a + n)%nat by lia. apply IH.
Qed.

Lemma qs_in_map_seq (h : nat -> Q) (a m : nat) : (forall i, h i <= h (S i)) ->
  qs_in (h a) (h (a + m)%nat) (map h (seq a (S m))).
Proof.
  intros Hh. revert a. induction m as [|m IH]; intros a.
  - rewrite Nat.add_0_r. split; [exact I|]. repeat constructor; apply Qle_refl.
  - change (map h (seq a (S (S m)))) with ([h a] ++ map h (seq (S a) (S m))).
    apply qs_in_app with (h (S a)).
    + apply Hh.
    + apply mono_le; [exact Hh | lia].
    + split; [exact I|]. constructor; [|constructor]. split; [apply Qle_refl | apply Hh].
    + replace (a + S m)%nat with (S a + m)%nat by lia. apply IH.
Qed.

Lemma x_ordered_of_qs_in (lo hi : Q) (l : list Point) :
  0 <= lo -> qs_in lo hi (map x l) -> x_ordered l.
Proof.
  intros H0 [Hs F]. split; [exact Hs|].
  eapply Forall_impl; [|exact F]. intros t Ht. cbv beta in *. lra.
Qed.

Lemma x_ordered_nil : x_ordered [].
Proof. split; [exact I | constructor]. Qed.

Lemma map_x_flat_map {A : Type} (f : A -> list Point) (l : list A) :
  map x (flat_map f l) = flat_map (fun i => map x (f i)) l.
Proof.
  induction l as [|a l IH]; [reflexivity|]. cbn [flat_map]. rewrite map_app, IH. reflexivity.
Qed.

Lemma Q_of_nat_succ (i : nat) : Q_of_nat (S i) == Q_of_nat i + 1.
Proof.
  unfold Q_of_nat. rewrite Znat.Nat2Z.inj_succ, <- Z.add_1_r, inject_Z_plus. reflexivity.
Qed.

Lemma Q_of_nat_add1 (i : nat) : Q_of_nat (i + 1) == Q_of_nat i + 1.
Proof. rewrite Nat.add_1_r. apply Q_of_nat_succ. Qed.

Lemma Q_of_nat_nonneg (i : nat) : 0 <= Q_of_nat i.
Proof. unfold Q_of_nat. change 0 with (inject_Z 0). rewrite <- Zle_Qle. lia. Qed.

Lemma Q_of_nat_mono (i : nat) : Q_of_nat i <= Q_of_nat (S i).
Proof. rewrite Q_of_nat_succ. lra. Qed.

Lemma bit_points_qs (i : nat) (v : Q) :
  qs_in (Q_of_nat i) (Q_of_nat (S i)) (map x (Core.bit_points i v)).
Proof.
  pose proof (Q_of_nat_succ i). pose proof (Q_of_nat_add1 i).
  unfold Core.bit_points, Core.bit_duration. cbn [map x].
  split; [cbn [nondecreasing]; split; [lra | exact I]|].
  repeat constructor; lra.
Qed.

Lemma level_points_qs (k : nat) (L : list Q) :
  qs_in (Q_of_nat k) (Q_of_nat (k + length L)) (map x (level_points k L)).
Proof.
  revert k. induction L as [|v L IH]; intros k; [apply qs_in_nil|].
  cbn [level_points length]. rewrite map_app.
  apply qs_in_app with (Q_of_nat (S k)).
  - apply Q_of_nat_mono.
  - apply (mono_le Q_of_nat Q_of_nat_mono). lia.
  - apply bit_points_qs.
  - replace (k + S (length L))%nat with (S k + length L)%nat by lia. apply IH.
Qed.

Lemma Qle_bool_false_lt (a b : Q) : Qle_bool a b = false -> b < a.
Proof.
  intros H. apply Qnot_le_lt. intros H'. apply Qle_bool_iff in H'. congruence.
Qed.

Lemma Qfloor_nonneg (q : Q) : 0 <= q -> (0 <= Qfloor q)%Z.
Proof. intros H. apply inject_Z_le_floor. exact H. Qed.

Lemma std_round_mono (a b : Q) : a <= b -> std_round a <= std_round b.
Proof.
  intros Hab. unfold std_round.
  destruct (Qle_bool 0 a) eqn:Ea, (Qle_bool 0 b) eqn:Eb.
  - apply Qle_bool_iff in Ea. rewrite <- Zle_Qle. apply Qfloor_resp_le. lra.
  - apply Qle_bool_iff in Ea. apply Qle_bool_false_lt in Eb. lra.
  - apply Qle_bool_false_lt in Ea. apply Qle_bool_iff in Eb.
    pose proof (Qfloor_nonneg (- a + (1 # 2)) ltac:(lra)) as H1.
    pose proof (Qfloor_nonneg (b + (1 # 2)) ltac:(lra)) as H2.
    rewrite Zle_Qle in H1, H2. change (inject_Z 0) with 0 in H1, H2. lra.
  - assert (H : (Qfloor (- b + (1 # 2)) <= Qfloor (- a + (1 # 2)))%Z)
      by (apply Qfloor_resp_le; lra).
    rewrite Zle_Qle in H. lra.
Qed.

Lemma std_round_nonneg (q : Q) : 0 <= q -> 0 <= std_round q.
Proof.
  intros H. unfold std_round. apply Qle_bool_iff in H as H'. rewrite H'.
  pose proof (Qfloor_nonneg (q + (1 # 2)) ltac:(lra)) as H1.
  rewrite Zle_Qle in H1. exact H1.
Qed.

Lemma pcm_tick_mono (si : Q) : 0 <= si -> forall i, pcm_tick si i <= pcm_tick si (S i).
Proof.
  intros Hsi i. unfold pcm_tick, Qdiv. apply Qmult_le_compat_r; [|change (/ 1000000) with (1 # 1000000); lra].
  apply std_round_mono. apply Qmult_le_compat_r; [|lra].
  apply Qmult_le_compat_r; [apply Q_of_nat_mono | exact Hsi].
Qed.

Lemma pcm_tick_nonneg (si : Q) : 0 <= si -> forall i, 0 <= pcm_tick si i.
Proof.
  intros Hsi i. unfold pcm_tick, Qdiv.
  apply Qmult_le_0_compat; [|change (/ 1000000) with (1 # 1000000); lra].
  apply std_round_nonneg. apply Qmult_le_0_compat; [|lra].
  apply Qmult_le_0_compat; [apply Q_of_nat_nonneg | exact Hsi].
Qed.

Lemma ticks_ordered (si : Q) (N : nat) (l : list Point) : 0 <= si ->
  map x l = map (pcm_tick si) (seq 0 N) -> x_ordered l.
Proof.
  intros Hsi E. destruct N as [|m].
  - destruct l; [apply x_ordered_nil | discriminate].
  - apply (x_ordered_of_qs_in (pcm_tick si 0) (pcm_tick si (0 + m))).
    + apply pcm_tick_nonneg, Hsi.
    + rewrite E. apply qs_in_map_seq, pcm_tick_mono, Hsi.
Qed.

Section DMTicks.
Variables (input_signal : list Point)
  (delta sample_interval real_duration min_approx max_approx : Q) (N : nat).
Hypothesis HN : forall i, (i < N)%nat <-> Q_of_nat i * sample_interval <= real_duration.

Lemma dm_loop_ticks (fuel i : nat) (st : Core.DMState) :
  (i <= N)%nat -> (N <= i + fuel)%nat ->
  map x (Core.dm_transmitted (Core.dm_loop input_signal delta sample_interval
           real_duration min_approx max_approx fuel i st))
  = map x (Core.dm_transmitted st) ++ map (pcm_tick sample_interval) (seq i (N - i)).
Proof.
  revert i st. induction fuel as [|fuel IH]; intros i st H1 H2.
  - assert (i = N) as -> by lia. rewrite Nat.sub_diag. cbn. rewrite app_nil_r. reflexivity.
  - cbn [Core.dm_loop]. destruct (Nat.eq_dec i N) as [-> | Hne].
    + replace (Qltb real_duration (Q_of_nat N * sample_interval)) with true.
      * rewrite Nat.sub_diag. cbn. rewrite app_nil_r. reflexivity.
      * symmetry. apply Qltb_true_iff. apply Qnot_le_lt. intros H.
        apply HN in H. lia.
    + rewrite Qltb_false_of_le by (apply HN; lia). cbv zeta.
      rewrite IH by lia. cbn [Core.dm_transmitted]. rewrite map_app.
      replace (N - i)%nat with (S (N - S i)) by lia. cbn [seq map].
      rewrite <- app_assoc. reflexivity.
Qed.
End DMTicks.

Lemma dm_result_ticks (sin : Q -> Q) (freq amp : Q) (config : DMConfig) :
  0 < freq -> 0 < amp -> 0 < dm_sampling_rate config ->
  0 < delta_step_size config -> delta_step_size config <= 1 ->
  exists N : nat,
    map x (transmitted (Core.AnalogToDigitalDM sin freq amp config))
    = map (pcm_tick (1 / dm_sampling_rate config)) (seq 0 N).
Proof.
  intros Hf Ha Hr Hs1 Hs2. unfold Core.AnalogToDigitalDM.
  rewrite (Qle_bool_false_of_lt freq 0 Hf), (Qle_bool_false_of_lt amp 0 Ha),
    (Qle_bool_false_of_lt _ 0 Hr), (Qle_bool_false_of_lt _ 0 Hs1),
    (Qltb_false_of_le 1 _ Hs2).
  cbn [orb]. cbv zeta. rewrite adc_last_x.
  change (Q_of_nat 199 * (1 / inject_Z 100)) with (199 # 100).
  set (si := 1 / dm_sampling_rate config).
  assert (Hsi : 0 < si) by (subst si; apply Qlt_shift_div_l; lra).
  assert (Hrd : 0 <= 199 # 100) by lra.
  exists (tick_count si (199 # 100)).
  destruct (rev _); cbn [transmitted];
  rewrite (dm_loop_ticks _ _ _ _ _ _ (tick_count si (199 # 100))
             (fun i => tick_count_spec si (199 # 100) i Hsi Hrd));
  [reflexivity | lia | pose proof (tick_count_le_fuel si _ Hsi Hrd); lia
  |reflexivity | lia | pose proof (tick_count_le_fuel si _ Hsi Hrd); lia].
Qed.

Lemma pcm_valid_or_empty (sin : Q -> Q) (freq amp : Q) (config : PCMConfig) :
  Core.AnalogToDigitalPCM sin freq amp config = empty_result \/
  (0 < freq /\ 0 < amp /\ 0 < sampling_rate config /\ (2 <= quantization_levels config)%Z).
Proof.
  unfold Core.AnalogToDigitalPCM.
  destruct (Qle_bool freq 0 || Qle_bool amp 0 || Qle_bool (sampling_rate config) 0
            || Z.ltb (quantization_levels config) 2) eqn:V; [left; reflexivity|right].
  apply orb_false_iff in V as [V V4]. apply orb_false_iff in V as [V V3].
  apply orb_false_iff in V as [V1 V2].
  apply Qle_bool_false_lt in V1, V2, V3. apply Z.ltb_ge in V4. auto.
Qed.

Lemma dm_valid_or_empty (sin : Q -> Q) (freq amp : Q) (config : DMConfig) :
  Core.AnalogToDigitalDM sin freq amp config = empty_result \/
  (0 < freq /\ 0 < amp /\ 0 < dm_sampling_rate config /\
   0 < delta_step_size config /\ delta_step_size config <= 1).
Proof.
  unfold Core.AnalogToDigitalDM.
  destruct (Qle_bool freq 0 || Qle_bool amp 0 || Qle_bool (dm_sampling_rate config) 0
            || Qle_bool (delta_step_size config) 0 || Qltb 1 (delta_step_size config))
    eqn:V; [left; reflexivity|right].
  apply orb_false_iff in V as [V V5]. apply orb_false_iff in V as [V V4].
  apply orb_false_iff in V as [V V3]. apply orb_false_iff in V as [V1 V2].
  apply Qle_bool_false_lt in V1, V2, V3, V4. apply Qltb_false_iff in V5. auto.
Qed.

Lemma for_loop_inv {St : Type} (P : nat -> St -> Prop) (n : nat)
    (body : nat -> St -> nat * St) :
  (forall i s, (i < n)%nat -> P i s -> P (S (fst (body i s))) (snd (body i s))) ->
  forall fuel i s, P i s -> exists j, P j (for_loop fuel n body i s).
Proof.
  intros Hstep fuel. induction fuel as [|fuel IH]; intros i s H; [exists i; exact H|].
  cbn [for_loop]. destruct (Nat.ltb_spec i n) as [Hlt | Hge]; [|exists i; exact H].
  specialize (Hstep i s Hlt H). destruct (body i s) as [i' s']. apply IH, Hstep.
Qed.

Lemma trace_upto_app (i : nat) (tr blk : list Point) :
  qs_in 0 (Q_of_nat i) (map x tr) ->
  qs_in (Q_of_nat i) (Q_of_nat (S i)) (map x blk) ->
  qs_in 0 (Q_of_nat (S i)) (map x (tr ++ blk)).
Proof.
  intros H1 H2. rewrite map_app. apply qs_in_app with (Q_of_nat i);
    [apply Q_of_nat_nonneg | apply Q_of_nat_mono | exact H1 | exact H2].
Qed.

Lemma manchester_qs (i : nat) :
  qs_in (Q_of_nat i) (Q_of_nat (S i))
    [Q_of_nat i * Core.bit_duration; (Q_of_nat i + (5 # 10)) * Core.bit_duration;
     (Q_of_nat i + (5 # 10)) * Core.bit_duration; Q_of_nat (i + 1) * Core.bit_duration].
Proof.
  pose proof (Q_of_nat_succ i). pose proof (Q_of_nat_add1 i). unfold Core.bit_duration.
  split; [cbn [nondecreasing]; repeat split; lra|]. repeat constructor; lra.
Qed.

Lemma d2d_loop_ordered {A : Type} (n : nat) (body : nat -> A * list Point -> nat * (A * list Point))
    (init : A) :
  (forall i s, (i < n)%nat -> trace_upto i s ->
     trace_upto (S (fst (body i s))) (snd (body i s))) ->
  x_ordered (snd (for_loop n n body 0 (init, []))).
Proof.
  intros Hstep. destruct (for_loop_inv trace_upto n body Hstep n 0 (init, []))
    as [j Hj]; [apply qs_in_nil|].
  apply (x_ordered_of_qs_in 0 (Q_of_nat j)); [apply Qle_refl | exact Hj].
Qed.

Lemma nrz_i_step (b : list ascii) (i : nat) (s : Q * list Point) :
  trace_upto i s ->
  trace_upto (S (fst (Core.nrz_i_body b i s))) (snd (Core.nrz_i_body b i s)).
Proof.
  destruct s as [lvl tr]. intros H. unfold Core.nrz_i_body, trace_upto in *.
  cbn [fst snd] in *. apply trace_upto_app; [exact H | apply bit_points_qs].
Qed.

Lemma ami_step (b : list ascii) (i : nat) (s : Q * list Point) :
  trace_upto i s ->
  trace_upto (S (fst (Core.ami_body b i s))) (snd (Core.ami_body b i s)).
Proof.
  destruct s as [lvl tr]. intros H. unfold Core.ami_body, trace_upto in *.
  cbn [fst snd] in *. destruct (_ =? _)%char; cbn [fst snd];
    (apply trace_upto_app; [exact H | apply bit_points_qs]).
Qed.

Lemma pseudoternary_step (b : list ascii) (i : nat) (s : Q * list Point) :
  trace_upto i s ->
  trace_upto (S (fst (Core.pseudoternary_body b i s))) (snd (Core.pseudoternary_body b i s)).
Proof.
  destruct s as [lvl tr]. intros H. unfold Core.pseudoternary_body, trace_upto in *.
  cbn [fst snd] in *. destruct (_ =? _)%char; cbn [fst snd];
    (apply trace_upto_app; [exact H | apply bit_points_qs]).
Qed.

Lemma diff_manchester_step (b : list ascii) (i : nat) (s : Q * list Point) :
  trace_upto i s ->
  trace_upto (S (fst (Core.diff_manchester_body b i s)))
             (snd (Core.diff_manchester_body b i s)).
Proof.
  destruct s as [lvl tr]. intros H. unfold Core.diff_manchester_body, trace_upto in *.
  cbn [fst snd] in *. rewrite <- app_assoc.
  apply trace_upto_app; [exact H | apply manchester_qs].
Qed.

Lemma sampled_ordered (c : Q) (g : nat -> Q -> Q) (n : nat) : 0 <= c ->
  x_ordered (map (fun i => let t := Q_of_nat i * c in mkPoint t (g i t)) (seq 0 n)).
Proof.
  intros Hc. destruct n as [|m]; [apply x_ordered_nil|].
  apply (x_ordered_of_qs_in (Q_of_nat 0 * c) (Q_of_nat (0 + m) * c)).
  - apply Qmult_le_0_compat; [apply Q_of_nat_nonneg | exact Hc].
  - rewrite map_map. apply (qs_in_map_seq (fun i => Q_of_nat i * c)).
    intros i. apply Qmult_le_compat_r; [apply Q_of_nat_mono | exact Hc].
Qed.

Lemma adc_input_ordered (sin : Q -> Q) (freq amp : Q) :
  x_ordered (Core.adc_input_signal sin freq amp).
Proof.
  unfold Core.adc_input_signal. cbv zeta.
  apply (sampled_ordered _ (fun _ t => amp * sin (2 * PI * freq * t))).
  unfold Qdiv. change (/ inject_Z 100) with (1 # 100). lra.
Qed.

Lemma digital_input_ordered (binary : list ascii) :
  x_ordered (Core.digital_input_signal binary).
Proof.
  apply (x_ordered_of_qs_in (Q_of_nat 0) (Q_of_nat (0 + length binary))).
  - apply Q_of_nat_nonneg.
  - unfold Core.digital_input_signal. rewrite map_x_flat_map.
    apply qs_in_flat_map_seq; [apply Q_of_nat_mono|].
    intros i. exact (bit_points_qs i _).
Qed.

Lemma keyed_ordered (pt : nat -> nat -> Point) (n : nat) :
  (forall i j, x (pt i j) = Q_of_nat i * Core.bit_duration +
                            Q_of_nat j * (Core.bit_duration / Q_of_nat 100)) ->
  x_ordered (flat_map (fun i => map (pt i) (seq 0 (100 + 1))) (seq 0 n)).
Proof.
  intros Hpt.
  apply (x_ordered_of_qs_in (Q_of_nat 0) (Q_of_nat (0 + n))); [apply Q_of_nat_nonneg|].
  rewrite map_x_flat_map. apply qs_in_flat_map_seq; [apply Q_of_nat_mono|].
  intros i. rewrite map_map. rewrite (map_ext _ _ (Hpt i)).
  set (h := fun j => Q_of_nat i * Core.bit_duration +
                     Q_of_nat j * (Core.bit_duration / Q_of_nat 100)).
  assert (Hh : forall j, h j <= h (S j)).
  { intros j. subst h. cbv beta. unfold Core.bit_duration, Qdiv.
    change (/ Q_of_nat 100) with (1 # 100). pose proof (Q_of_nat_succ j). lra. }
  apply (qs_in_weaken (h 0%nat) (h (0 + 100)%nat)).
  - subst h. cbv beta. unfold Core.bit_duration, Qdiv.
    change (/ Q_of_nat 100) with (1 # 100). change (Q_of_nat 0) with 0. lra.
  - subst h. cbv beta. unfold Core.bit_duration, Qdiv.
    change (/ Q_of_nat 100) with (1 # 100). change (Q_of_nat (0 + 100)) with 100.
    pose proof (Q_of_nat_succ i). lra.
  - exact (qs_in_map_seq h 0 100 Hh).
Qed.

Lemma x_ordered_keep_x (g : Point -> Q) (l : list Point) :
  x_ordered l -> x_ordered (map (fun p => mkPoint (x p) (g p)) l).
Proof. unfold x_ordered. rewrite map_map. cbn [x]. auto. Qed.

Lemma empty_result_ordered :
  x_ordered (input empty_result) /\ x_ordered (transmitted empty_result) /\
  x_ordered (output empty_result).
Proof. repeat split; try exact I; constructor. Qed.

Lemma a2a_ordered (sin : Q -> Q) (f a : Q) (type : AnalogModulation) :
  let r := Core.AnalogToAnalog sin f a type in
  x_ordered (input r) /\ x_ordered (transmitted r) /\ x_ordered (output r).
Proof.
  intros r. subst r. unfold Core.AnalogToAnalog.
  destruct (Qle_bool f 0 || Qle_bool a 0); [apply empty_result_ordered|].
  cbv zeta.
  assert (Hin : x_ordered (map (fun i => let t := Q_of_nat i * (1 / inject_Z 200) in
                                         mkPoint t (a * sin (2 * PI * f * t)))
                               (seq 0 (Z.to_nat (static_cast_int (2 * inject_Z 200)))))).
  { apply (sampled_ordered _ (fun _ t => a * sin (2 * PI * f * t))).
    unfold Qdiv. change (/ inject_Z 200) with (1 # 200). lra. }
  cbn [input output]. split; [exact Hin | split; [|exact Hin]].
  destruct type; cbn [transmitted]; apply x_ordered_keep_x, Hin.
Qed.

Lemma pcm_ordered (sin : Q -> Q) (f a : Q) (config : PCMConfig) :
  let r := Core.AnalogToDigitalPCM sin f a config in
  x_ordered (input r) /\ x_ordered (transmitted r) /\ x_ordered (output r).
Proof.
  intros r. subst r.
  destruct (pcm_valid_or_empty sin f a config) as [E | (Hf & Ha & Hr & Hq)];
    [rewrite E; apply empty_result_ordered|].
  assert (Hsi : 0 <= 1 / sampling_rate config)
    by (apply Qlt_le_weak, Qlt_shift_div_l; lra).
  destruct (pcm_result_ticks sin f a config Hf Ha Hr Hq) as (N & _ & E1 & E2).
  split; [|split; [exact (ticks_ordered _ _ _ Hsi E1) | exact (ticks_ordered _ _ _ Hsi E2)]].
  unfold Core.AnalogToDigitalPCM.
  rewrite (Qle_bool_false_of_lt f 0 Hf), (Qle_bool_false_of_lt a 0 Ha),
    (Qle_bool_false_of_lt _ 0 Hr).
  replace (Z.ltb (quantization_levels config) 2) with false
    by (symmetry; apply Z.ltb_ge; exact Hq).
  cbn [orb]. cbv zeta.
  match goal with
  | |- context [let (_, _) := ?c in _] => destruct c
  end.
  apply adc_input_ordered.
Qed.

Lemma dm_ordered (sin : Q -> Q) (f a : Q) (config : DMConfig) :
  let r := Core.AnalogToDigitalDM sin f a config in
  x_ordered (input r) /\ x_ordered (transmitted r).
Proof.
  intros r. subst r.
  destruct (dm_valid_or_empty sin f a config) as [E | (Hf & Ha & Hr & Hs1 & Hs2)];
    [rewrite E; apply empty_result_ordered|].
  assert (Hsi : 0 <= 1 / dm_sampling_rate config)
    by (apply Qlt_le_weak, Qlt_shift_div_l; lra).
  destruct (dm_result_ticks sin f a config Hf Ha Hr Hs1 Hs2) as (N & E1).
  split; [|exact (ticks_ordered _ _ _ Hsi E1)].
  unfold Core.AnalogToDigitalDM.
  rewrite (Qle_bool_false_of_lt f 0 Hf), (Qle_bool_false_of_lt a 0 Ha),
    (Qle_bool_false_of_lt _ 0 Hr), (Qle_bool_false_of_lt _ 0 Hs1),
    (Qltb_false_of_le 1 _ Hs2).
  cbn [orb]. cbv zeta. destruct (rev _); apply adc_input_ordered.
Qed.

Lemma d2a_ordered (sin : Q -> Q) (binary : list ascii) (type : DigitalModulation) :
  let r := Core.DigitalToAnalog sin binary type in
  x_ordered (input r) /\ x_ordered (transmitted r) /\ x_ordered (output r).
Proof.
  intros r. subst r. unfold Core.DigitalToAnalog.
  destruct (Core.invalid_binary binary); [apply empty_result_ordered|].
  cbv zeta. cbn [input output].
  split; [apply digital_input_ordered | split; [|apply digital_input_ordered]].
  destruct type; cbn [transmitted]; apply keyed_ordered; reflexivity.
Qed.

Lemma d2d_ordered (binary : list ascii) (type : LineCoding) :
  let r := Core.DigitalToDigital binary type in
  x_ordered (input r) /\ x_ordered (transmitted r) /\ x_ordered (output r).
Proof.
  intros r. subst r. unfold Core.DigitalToDigital.
  destruct (Core.invalid_binary binary) eqn:Hv; [apply empty_result_ordered|].
  cbv zeta. cbn [input output].
  split; [apply digital_input_ordered | split; [|apply digital_input_ordered]].
  destruct type; cbn [transmitted].
  - apply (x_ordered_of_qs_in (Q_of_nat 0) (Q_of_nat (0 + length binary)));
      [apply Q_of_nat_nonneg|].
    rewrite map_x_flat_map. apply qs_in_flat_map_seq; [apply Q_of_nat_mono|].
    intros i. apply bit_points_qs.
  - apply d2d_loop_ordered. intros i s _. apply nrz_i_step.
  - apply (x_ordered_of_qs_in (Q_of_nat 0) (Q_of_nat (0 + length binary)));
      [apply Q_of_nat_nonneg|].
    rewrite map_x_flat_map. apply qs_in_flat_map_seq; [apply Q_of_nat_mono|].
    intros i. destruct (_ =? _)%char; apply manchester_qs.
  - apply d2d_loop_ordered. intros i s _. apply diff_manchester_step.
  - apply d2d_loop_ordered. intros i s _. apply ami_step.
  - apply d2d_loop_ordered. intros i s _. apply pseudoternary_step.
  - destruct (b8zs_loop binary (valid_bits binary Hv) (length binary) 0 (-1) [])
      as (L & _ & E); [lia | lia |].
    rewrite E. apply (x_ordered_of_qs_in (Q_of_nat 0) (Q_of_nat (0 + length L)));
      [apply Q_of_nat_nonneg | apply level_points_qs].
  - destruct (hdb3_loop binary (valid_bits binary Hv) (length binary) 0 (-1) 0 [])
      as (L & _ & E); [lia | lia |]. cbn [Z.of_nat] in E.
    rewrite E. apply (x_ordered_of_qs_in (Q_of_nat 0) (Q_of_nat (0 + length L)));
      [apply Q_of_nat_nonneg | apply level_points_qs].
Qed.

(** C2 (amended): for all parameters (invalid ones give empty sequences),
    the x coordinates of the input, transmitted and output sequences of
    AnalogToAnalog, AnalogToDigitalPCM, DigitalToAnalog and
    DigitalToDigital, and of the input and transmitted sequences of
    AnalogToDigitalDM, are non-decreasing in emission order and
    non-negative.  The DM output staircase is left out: it puts a hold
    point at [t - 0.001] before each tick, so it starts (0,0), (-0.001,0),
    (0,a1) (see [dm_output_hold_point_before_zero]). *)
Theorem x_order_except_dm_output (sin : Q -> Q) :
  (forall f a type, let r := Core.AnalogToAnalog sin f a type in
     x_ordered (input r) /\ x_ordered (transmitted r) /\ x_ordered (output r)) /\
  (forall f a config, let r := Core.AnalogToDigitalPCM sin f a config in
     x_ordered (input r) /\ x_ordered (transmitted r) /\ x_ordered (output r)) /\
  (forall f a config, let r := Core.AnalogToDigitalDM sin f a config in
     x_ordered (input r) /\ x_ordered (transmitted r)) /\
  (forall binary type, let r := Core.DigitalToAnalog sin binary type in
     x_ordered (input r) /\ x_ordered (transmitted r) /\ x_ordered (output r)) /\
  (forall binary type, let r := Core.DigitalToDigital binary type in
     x_ordered (input r) /\ x_ordered (transmitted r) /\ x_ordered (output r)).
Proof.
  split; [exact (a2a_ordered sin)|]. split; [exact (pcm_ordered sin)|].
  split; [exact (dm_ordered sin)|]. split; [exact (d2a_ordered sin) | exact d2d_ordered].
Qed.

(** C2 counterexample: the DM output staircase at frequency 1, amplitude 1,
    sampling rate 1, step 0.5 has x = 0, then -0.001, then 0. *)
Lemma dm_output_hold_point_before_zero :
  let out := output (Core.AnalogToDigitalDM sin_clip 1 1 (mkDMConfig 1 (1 # 2))) in
  Qeq_bool (x (nth 0 out default_point)) 0 = true /\
  Qeq_bool (x (nth 1 out default_point)) (- (1 # 1000)) = true /\
  Qeq_bool (x (nth 2 out default_point)) 0 = true /\
  Qltb (x (nth 1 out default_point)) (x (nth 0 out default_point)) = true.
Proof. vm_compute. auto. Qed.

(** C5 (amended): for a valid PCM invocation there are ticks for
    exactly the [i] with [i / sampling_rate <= 1.99] (the x of the last
    base sample, not 2.0), and the transmitted and output sequences have one
    point at each tick, at time [i / sampling_rate] rounded to 1e-6. *)
Theorem pcm_sample_times (sin : Q -> Q) (freq amp : Q) (config : PCMConfig) :
  0 < freq -> 0 < amp -> 0 < sampling_rate config ->
  (2 <= quantization_levels config)%Z ->
  let r := Core.AnalogToDigitalPCM sin freq amp config in
  let si := 1 / sampling_rate config in
  exists N : nat,
    (forall i : nat, (i < N)%nat <-> Q_of_nat i * si <= 199 # 100) /\
    map x (transmitted r) = map (pcm_tick si) (seq 0 N) /\
    map x (output r) = map (pcm_tick si) (seq 0 N).
Proof. exact (pcm_result_ticks sin freq amp config). Qed.

(* ------------------------------------------------------------------ *)
(** * Further properties of the handlers, the interpolator and the
      converters *)

Ltac split_branches :=
  repeat match goal with
  | |- context [if ?c then _ else _] => destruct c
  | |- context [match ?m with _ => _ end] => destruct m
  end.

(** X1: every gRPC handler that answers with a status other than OK
    returns the reply message exactly as it received it: no point is added
    to its input, transmitted or output lists. *)
Theorem service_errors_keep_reply (sin : Q -> Q) :
  (forall req reply,
     Service.error_code (fst (Service.AnalogToAnalog sin req reply)) <> Service.OK ->
     snd (Service.AnalogToAnalog sin req reply) = reply) /\
  (forall req reply,
     Service.error_code (fst (Service.AnalogToDigital sin req reply)) <> Service.OK ->
     snd (Service.AnalogToDigital sin req reply) = reply) /\
  (forall req reply,
     Service.error_code (fst (Service.DigitalToAnalog sin req reply)) <> Service.OK ->
     snd (Service.DigitalToAnalog sin req reply) = reply) /\
  (forall req reply,
     Service.error_code (fst (Service.DigitalToDigital req reply)) <> Service.OK ->
     snd (Service.DigitalToDigital req reply) = reply).
Proof.
  repeat split; intros req reply;
    [unfold Service.AnalogToAnalog | unfold Service.AnalogToDigital
    | unfold Service.DigitalToAnalog | unfold Service.DigitalToDigital];
    cbv zeta; split_branches; cbn [fst snd Service.error_code Service.Status_OK];
    solve [reflexivity | intros H; exfalso; apply H; reflexivity].
Qed.

Lemma fill_reply_append (reply : Service.SignalResponse) (i t o : list Point) :
  Service.fill_reply reply i t o
  = append_response reply (Service.fill_reply Service.empty_response i t o).
Proof. reflexivity. Qed.

Lemma append_response_empty (reply : Service.SignalResponse) :
  reply = append_response reply Service.empty_response.
Proof.
  destruct reply. unfold append_response. cbn. rewrite !app_nil_r. reflexivity.
Qed.

(** X2: the handlers only append to the reply ([set_data_points] calls
    [Add] and never clears): on a reply that already holds points, a
    handler returns the same status as on an empty reply, and each list
    is the old points followed by the points written into an empty reply. *)
Theorem service_reply_appends (sin : Q -> Q) :
  (forall req reply, Service.AnalogToAnalog sin req reply
     = let (st, r) := Service.AnalogToAnalog sin req Service.empty_response in
       (st, append_response reply r)) /\
  (forall req reply, Service.AnalogToDigital sin req reply
     = let (st, r) := Service.AnalogToDigital sin req Service.empty_response in
       (st, append_response reply r)) /\
  (forall req reply, Service.DigitalToAnalog sin req reply
     = let (st, r) := Service.DigitalToAnalog sin req Service.empty_response in
       (st, append_response reply r)) /\
  (forall req reply, Service.DigitalToDigital req reply
     = let (st, r) := Service.DigitalToDigital req Service.empty_response in
       (st, append_response reply r)).
Proof.
  repeat split; intros req reply;
    [unfold Service.AnalogToAnalog | unfold Service.AnalogToDigital
    | unfold Service.DigitalToAnalog | unfold Service.DigitalToDigital];
    cbv zeta; split_branches;
    first [rewrite <- append_response_empty | rewrite fill_reply_append]; reflexivity.
Qed.

Lemma Qle_bool_0_cases (q : Q) :
  (Qle_bool q 0 = true /\ q <= 0) \/ (Qle_bool q 0 = false /\ 0 < q).
Proof.
  destruct (Qle_bool q 0) eqn:E; [left; split; [reflexivity | apply Qle_bool_iff, E]|].
  right. split; [reflexivity | apply Qle_bool_false_lt, E].
Qed.

(** X3: AnalogToAnalog answers INVALID_ARGUMENT exactly when the message
    frequency or amplitude is not positive, UNIMPLEMENTED exactly when
    both are positive and the algorithm is none of AM, FM, PM, and OK
    otherwise. *)
Theorem a2a_status (sin : Q -> Q) (req : Service.AnalogToAnalogRequest)
    (reply : Service.SignalResponse) :
  let code := Service.error_code (fst (Service.AnalogToAnalog sin req reply)) in
  let f := Service.message_frequency req in
  let a := Service.message_amplitude req in
  (code = Service.INVALID_ARGUMENT <-> f <= 0 \/ a <= 0) /\
  (code = Service.UNIMPLEMENTED <->
     0 < f /\ 0 < a /\ exists v, Service.a2a_algorithm req = Service.A2A_Other v) /\
  (code = Service.OK <->
     0 < f /\ 0 < a /\ forall v, Service.a2a_algorithm req <> Service.A2A_Other v).
Proof.
  intros code f a. subst code. unfold Service.AnalogToAnalog. fold f a.
  destruct (Qle_bool_0_cases f) as [[Ef Hf] | [Ef Hf]]; rewrite Ef; cbn [orb].
  - cbn. split; [tauto|]. split; split; try discriminate; lra.
  - destruct (Qle_bool_0_cases a) as [[Ea Ha] | [Ea Ha]]; rewrite Ea; cbn [orb].
    + cbn. split; [tauto|]. split; split; try discriminate; lra.
    + cbv zeta. destruct (Service.a2a_algorithm req) as [| | |w]; cbn;
        (split; [split; [discriminate | lra] |]);
        (split; split); try discriminate;
        try (intros (_ & _ & v & Hv); discriminate Hv);
        try (intros _; repeat split; assumption || (intros v Hv; discriminate Hv));
        try (intros _; repeat split; [assumption | assumption | exists w; reflexivity]);
        try (intros (_ & _ & Hv); exfalso; exact (Hv w eq_refl)).
Qed.

Ltac close_status w :=
  split; [|split]; split; intros Hs;
  repeat match goal with Hc : _ /\ _ |- _ => destruct Hc end;
  first [ discriminate Hs | reflexivity | tauto
        | (split; [assumption | exists w; reflexivity])
        | (split; [assumption | intros ? Hv; discriminate Hv])
        | (exfalso; match goal with Hv : forall v, _ <> _ |- _ => exact (Hv w eq_refl) end)
        | (exfalso; match goal with Hv : exists v, _ = _ |- _ =>
                      destruct Hv as [? Hv]; discriminate Hv end) ].

(** X4: AnalogToDigital never answers UNIMPLEMENTED; it answers OK exactly
    when frequency and amplitude are positive and the configuration is
    valid (the PCM one if present: positive rate, at least 2 levels; else
    the DM one: positive rate, step in (0, 1]; neither present is
    rejected); with a PCM configuration the DM one is ignored. *)
Theorem a2d_status (sin : Q -> Q) (req : Service.AnalogToDigitalRequest)
    (reply : Service.SignalResponse) :
  let code := Service.error_code (fst (Service.AnalogToDigital sin req reply)) in
  code <> Service.UNIMPLEMENTED /\
  (code = Service.OK <->
     0 < Service.frequency req /\ 0 < Service.amplitude req /\ a2d_config_valid req) /\
  (forall c d, Service.pcm req = Some c ->
     Service.AnalogToDigital sin req reply
     = Service.AnalogToDigital sin
         (Service.mkAnalogToDigitalRequest (Service.frequency req) (Service.amplitude req)
            (Some c) d) reply).
Proof.
  intros code. subst code. unfold a2d_config_valid.
  split; [|split].
  - unfold Service.AnalogToDigital. cbv zeta.
    repeat match goal with
    | |- context [if ?c then _ else _] => destruct c
    | |- context [match ?m with _ => _ end] => destruct m
    end; discriminate.
  - unfold Service.AnalogToDigital. cbv zeta.
    destruct (Qle_bool_0_cases (Service.frequency req)) as [[Ef Hf] | [Ef Hf]];
      rewrite Ef; cbn [orb]; [cbn; split; [discriminate | lra]|].
    destruct (Qle_bool_0_cases (Service.amplitude req)) as [[Ea Ha] | [Ea Ha]];
      rewrite Ea; cbn [orb]; [cbn; split; [discriminate | lra]|].
    destruct (Service.pcm req) as [c|].
    + destruct (Qle_bool_0_cases (Service.pcm_sampling_rate c)) as [[E1 H1] | [E1 H1]];
        rewrite E1; cbn [orb]; [cbn; split; [discriminate | lra]|].
      destruct (Z.ltb_spec (Service.pcm_quantization_levels c) 2) as [H2 | H2].
      * cbn. split; [discriminate | lia].
      * match goal with |- context [let (_, _) := ?p in _] => destruct p end.
        cbn. split; auto.
    + destruct (Service.delta_modulation req) as [d|]; [|cbn; split; [discriminate | tauto]].
      destruct (Qle_bool_0_cases (Service.dmp_sampling_rate d)) as [[E1 H1] | [E1 H1]];
        rewrite E1; cbn [orb]; [cbn; split; [discriminate | lra]|].
      destruct (Qle_bool_0_cases (Service.dmp_delta_step_size d)) as [[E2 H2] | [E2 H2]];
        rewrite E2; cbn [orb]; [cbn; split; [discriminate | lra]|].
      destruct (Qltb 1 (Service.dmp_delta_step_size d)) eqn:E3.
      * apply Qltb_true_iff in E3. cbn. split; [discriminate | lra].
      * apply Qltb_false_iff in E3. cbn. split; auto.
  - intros c d Hc. unfold Service.AnalogToDigital. cbn [Service.frequency Service.amplitude Service.pcm].
    rewrite Hc. reflexivity.
Qed.

Lemma binary_check (binary : list ascii) :
  (binary = [] /\ binary_rejected binary) \/
  (binary <> [] /\
   existsb (fun c => negb (c =? "0")%char && negb (c =? "1")%char) binary = true /\
   binary_rejected binary) \/
  (binary <> [] /\
   existsb (fun c => negb (c =? "0")%char && negb (c =? "1")%char) binary = false /\
   ~ binary_rejected binary).
Proof.
  destruct binary as [|c0 r]; [left; split; [reflexivity | left; reflexivity]|right].
  destruct (existsb _ (c0 :: r)) eqn:E.
  - left. split; [discriminate|]. split; [reflexivity|]. right.
    apply existsb_exists in E as (c & Hc & E). apply andb_true_iff in E as [E0 E1].
    apply negb_true_iff, Ascii.eqb_neq in E0, E1. exists c. auto.
  - right. split; [discriminate|]. split; [reflexivity|].
    intros [H | (c & Hc & H0 & H1)]; [discriminate|].
    pose proof (valid_bits (c0 :: r) E c Hc). tauto.
Qed.

(** X5: DigitalToAnalog and DigitalToDigital answer INVALID_ARGUMENT
    exactly when the bit string is empty or holds a character other than
    '0' and '1', UNIMPLEMENTED exactly when it is valid and the algorithm
    is not one they know, and OK otherwise. *)
Theorem binary_handlers_status (sin : Q -> Q) :
  (forall req reply,
     let code := Service.error_code (fst (Service.DigitalToAnalog sin req reply)) in
     let b := Service.d2a_binary_input req in
     (code = Service.INVALID_ARGUMENT <-> binary_rejected b) /\
     (code = Service.UNIMPLEMENTED <->
        ~ binary_rejected b /\ exists v, Service.d2a_algorithm req = Service.D2A_Other v) /\
     (code = Service.OK <->
        ~ binary_rejected b /\ forall v, Service.d2a_algorithm req <> Service.D2A_Other v)) /\
  (forall req reply,
     let code := Service.error_code (fst (Service.DigitalToDigital req reply)) in
     let b := Service.d2d_binary_input req in
     (code = Service.INVALID_ARGUMENT <-> binary_rejected b) /\
     (code = Service.UNIMPLEMENTED <->
        ~ binary_rejected b /\ exists v, Service.d2d_algorithm req = Service.D2D_Other v) /\
     (code = Service.OK <->
        ~ binary_rejected b /\ forall v, Service.d2d_algorithm req <> Service.D2D_Other v)).
Proof.
  split; intros req reply code b; subst code b;
    [unfold Service.DigitalToAnalog | unfold Service.DigitalToDigital];
    [destruct (binary_check (Service.d2a_binary_input req)) as [[E0 Hr] | [[Hn [E Hr]] | [Hn [E Hr]]]];
     destruct (Service.d2a_binary_input req) as [|c0 r]
    |destruct (binary_check (Service.d2d_binary_input req)) as [[E0 Hr] | [[Hn [E Hr]] | [Hn [E Hr]]]];
     destruct (Service.d2d_binary_input req) as [|c0 r]];
    try discriminate; try congruence.
  - cbn. split; [tauto|]. split; split; try discriminate; tauto.
  - rewrite E. cbn. split; [tauto|]. split; split; try discriminate; tauto.
  - rewrite E. cbv zeta.
    destruct (Service.d2a_algorithm req) as [| | |w]; cbn; close_status w || close_status 0%Z.
  - cbn. split; [tauto|]. split; split; try discriminate; tauto.
  - rewrite E. cbn. split; [tauto|]. split; split; try discriminate; tauto.
  - rewrite E. cbv zeta.
    destruct (Service.d2d_algorithm req) as [| | | | | | | |w]; cbn; close_status w || close_status 0%Z.
Qed.

Lemma x_increasing_lt (l : list Point) : x_increasing l ->
  forall i j, (i < j)%nat -> (j < length l)%nat ->
    x (nth i l default_point) < x (nth j l default_point).
Proof.
  intros Hl i j Hij. induction Hij as [|j Hij IH]; intros Hj; [apply Hl; exact Hj|].
  apply Qlt_trans with (x (nth j l default_point)); [apply IH; lia | apply Hl; exact Hj].
Qed.

Lemma x_increasing_le (l : list Point) : x_increasing l ->
  forall i j, (i <= j)%nat -> (j < length l)%nat ->
    x (nth i l default_point) <= x (nth j l default_point).
Proof.
  intros Hl i j Hij Hj. destruct (Nat.eq_dec i j) as [-> | Hne]; [apply Qle_refl|].
  apply Qlt_le_weak, x_increasing_lt; [exact Hl | lia | exact Hj].
Qed.

Lemma lower_bound_eq (l : list Point) (t : Q) (m : nat) :
  (forall j, (j < m)%nat -> x (nth j l default_point) < t) ->
  (m < length l)%nat -> t <= x (nth m l default_point) ->
  Core.lower_bound l t = m.
Proof.
  revert m. induction l as [|p l IH]; intros m H1 H2 H3; cbn in H2; [lia|].
  cbn [Core.lower_bound]. destruct m as [|m].
  - cbn in H3. rewrite Qltb_false_of_le by exact H3. reflexivity.
  - pose proof (H1 0%nat ltac:(lia)) as H0. cbn [nth] in H0.
    rewrite (proj2 (Qltb_true_iff _ _) H0). f_equal.
    apply IH; [intros j Hj; apply (H1 (S j)); lia | lia | exact H3].
Qed.

Lemma last_nth (l : list Point) (d : Point) :
  last l d = nth (length l - 1) l d.
Proof.
  induction l as [|p l IH]; [reflexivity|].
  destruct l as [|q l]; [reflexivity|].
  change (last (p :: q :: l) d) with (last (q :: l) d). rewrite IH. cbn [length nth].
  replace (S (length l) - 1)%nat with (length l) by lia.
  replace (S (S (length l)) - 1)%nat with (S (length l)) by lia. reflexivity.
Qed.

Lemma Qeq_bool_false_of_lt (a b : Q) : b < a -> Qeq_bool a b = false.
Proof.
  intros H. destruct (Qeq_bool a b) eqn:E; [|reflexivity].
  apply Qeq_bool_iff in E. lra.
Qed.

Lemma Qminus_lt_neq (a b : Q) : b < a -> ~ a - b == 0.
Proof. intros H E. lra. Qed.

(** X6: on a sequence with strictly increasing x, at a time t between two
    neighbouring samples p1 and p2 both interpolators (the engine's and
    the service's) return the linear interpolation
    [y1 + (t - x1) / (x2 - x1) * (y2 - y1)]. *)
Theorem get_input_value_interpolates (l : list Point) (k : nat) (t : Q) :
  x_increasing l -> (S k < length l)%nat ->
  let p1 := nth k l default_point in
  let p2 := nth (S k) l default_point in
  x p1 <= t <= x p2 ->
  Core.get_input_value_at_time l t == y p1 + (t - x p1) / (x p2 - x p1) * (y p2 - y p1) /\
  Service.get_input_value_at_time l t == y p1 + (t - x p1) / (x p2 - x p1) * (y p2 - y p1).
Proof.
  intros Hl Hk p1 p2 [Ht1 Ht2].
  enough (E : Core.get_input_value_at_time l t
              == y p1 + (t - x p1) / (x p2 - x p1) * (y p2 - y p1))
    by (split; [exact E|];
        replace (Service.get_input_value_at_time l t) with (Core.get_input_value_at_time l t)
          by (symmetry; apply get_input_value_at_time_same); exact E).
  assert (H12 : x p1 < x p2) by (apply Hl; exact Hk).
  destruct l as [|front r]; [cbn in Hk; lia|].
  unfold Core.get_input_value_at_time. cbv beta iota.
  set (l := front :: r) in *.
  destruct (Qle_bool t (x front)) eqn:E1.
  - apply Qle_bool_iff in E1.
    assert (Hk0 : k = 0%nat).
    { destruct k as [|k]; [reflexivity|]. exfalso.
      pose proof (x_increasing_lt l Hl 0 (S k) ltac:(lia) ltac:(lia)) as H.
      change (nth 0 l default_point) with front in H. fold p1 in H. lra. }
    subst k. change (nth 0 l default_point) with front in p1. subst p1.
    assert (Et : t == x front) by lra. rewrite Et. field. apply Qminus_lt_neq, H12.
  - apply Qle_bool_false_lt in E1.
    rewrite last_nth.
    destruct (Qle_bool (x (nth (length l - 1) l front)) t) eqn:E2.
    + apply Qle_bool_iff in E2.
      rewrite nth_indep with (d' := default_point) in E2 |- * by (cbn; lia).
      assert (Hkl : S k = (length l - 1)%nat).
      { destruct (Nat.eq_dec (S k) (length l - 1)) as [E | Hne]; [exact E|]. exfalso.
        pose proof (x_increasing_lt l Hl (S k) (length l - 1) ltac:(lia) ltac:(lia)).
        fold p2 in H. apply (Qlt_irrefl (x p2)).
        apply Qlt_le_trans with (1 := H). apply Qle_trans with (1 := E2). exact Ht2. }
      rewrite <- Hkl in E2 |- *. fold p2. fold p2 in E2.
      assert (Et : t == x p2) by (apply Qle_antisym; [exact Ht2 | exact E2]).
      rewrite Et. field. apply Qminus_lt_neq, H12.
    + apply Qle_bool_false_lt in E2.
      rewrite nth_indep with (d' := default_point) in E2 by (cbn; lia).
      destruct (Qlt_le_dec (x p1) t) as [Hlt | Hge].
      * rewrite (lower_bound_eq l t (S k)).
        -- cbn [Nat.eqb]. replace (S k - 1)%nat with k by lia. fold p1 p2.
           rewrite Qeq_bool_false_of_lt by exact H12. reflexivity.
        -- intros j Hj. apply Qle_lt_trans with (x p1); [|exact Hlt].
           apply x_increasing_le; [exact Hl | lia | lia].
        -- exact Hk.
        -- exact Ht2.
      * assert (Et : t == x p1) by lra.
        destruct k as [|k].
        { exfalso. change (nth 0 l default_point) with front in p1. subst p1. lra. }
        rewrite (lower_bound_eq l t (S k)).
        -- cbn [Nat.eqb]. replace (S k - 1)%nat with k by lia. fold p1.
           set (p0 := nth k l default_point).
           assert (H01 : x p0 < x p1) by (apply Hl; lia).
           rewrite Qeq_bool_false_of_lt by exact H01.
           rewrite Et. field. split; apply Qminus_lt_neq; assumption.
        -- intros j Hj. rewrite Et. apply x_increasing_lt; [exact Hl | lia | lia].
        -- lia.
        -- fold p1. lra.
Qed.

Lemma emit_loop {A : Type} (n : nat) (body : nat -> A * list Point -> nat * (A * list Point))
    (st : nat -> A) (blk : nat -> list Point) :
  (forall i tr, (i < n)%nat -> body i (st i, tr) = (i, (st (S i), tr ++ blk i))) ->
  forall fuel i tr, (i <= n)%nat -> (n - i <= fuel)%nat ->
  snd (for_loop fuel n body i (st i, tr)) = tr ++ flat_map blk (seq i (n - i)).
Proof.
  intros Hb fuel. induction fuel as [|fuel IH]; intros i tr H1 H2.
  - assert (i = n) as -> by lia. rewrite Nat.sub_diag. cbn. rewrite app_nil_r. reflexivity.
  - cbn [for_loop]. destruct (Nat.ltb_spec i n) as [Hlt | Hge].
    + rewrite (Hb i tr Hlt). rewrite IH by lia.
      replace (n - i)%nat with (S (n - S i)) by lia. cbn [seq flat_map].
      rewrite app_assoc. reflexivity.
    + assert (i = n) as -> by lia. rewrite Nat.sub_diag. cbn. rewrite app_nil_r. reflexivity.
Qed.

Lemma flat_map_bit_points (lv : nat -> Q) (k n : nat) :
  flat_map (fun i => Core.bit_points i (lv i)) (seq k n) = level_points k (map lv (seq k n)).
Proof.
  revert k. induction n as [|n IH]; intros k; [reflexivity|].
  cbn [seq flat_map map level_points]. rewrite IH. reflexivity.
Qed.

Lemma firstn_S_nth (b : list ascii) (i : nat) (d : ascii) : (i < length b)%nat ->
  firstn (S i) b = firstn i b ++ [nth i b d].
Proof.
  revert i. induction b as [|c b IH]; intros i Hi; cbn in Hi; [lia|].
  destruct i as [|i]; [reflexivity|]. cbn [firstn nth app]. f_equal. apply IH. lia.
Qed.

Lemma count_bit_S (c : ascii) (b : list ascii) (i : nat) : (i < length b)%nat ->
  count_bit c (firstn (S i) b)
  = (count_bit c (firstn i b) + if (nth i b "0"%char =? c)%char then 1 else 0)%nat.
Proof.
  intros Hi. unfold count_bit. rewrite (firstn_S_nth b i "0"%char Hi), filter_app, length_app.
  cbn [filter]. destruct (nth i b "0"%char =? c)%char; reflexivity.
Qed.

Lemma parity_level_S (n : nat) : parity_level (S n) = - parity_level n.
Proof. unfold parity_level. rewrite Nat.even_succ, <- Nat.negb_even. destruct (Nat.even n); reflexivity. Qed.

Lemma parity_level_add1 (n : nat) : parity_level (n + 1) = - parity_level n.
Proof. rewrite Nat.add_1_r. apply parity_level_S. Qed.

Lemma map_nth_seq {B : Type} (f : ascii -> B) (b : list ascii) (d : ascii) :
  map (fun i => f (nth i b d)) (seq 0 (length b)) = map f b.
Proof.
  induction b as [|c b IH]; [reflexivity|].
  cbn [length seq map nth]. f_equal. rewrite <- seq_shift, map_map. exact IH.
Qed.

(** X7: on a valid bit string NRZ-L draws each bit as one level, +1 for
    '0' and -1 for '1'; NRZ-I draws bit i at +1 or -1 by the parity of the
    number of '1's among bits 0..i (an odd count gives -1). *)
Theorem nrz_levels (binary : list ascii) :
  Core.invalid_binary binary = false ->
  transmitted (Core.DigitalToDigital binary NRZ_L)
    = level_points 0 (map (fun c => if (c =? "0")%char then 1 else -1) binary) /\
  transmitted (Core.DigitalToDigital binary NRZ_I)
    = level_points 0 (map (fun i => parity_level (count_bit "1" (firstn (S i) binary)))
                          (seq 0 (length binary))).
Proof.
  intros Hv. unfold Core.DigitalToDigital. rewrite Hv. cbv beta iota zeta.
  cbn [transmitted]. split.
  - rewrite (flat_map_bit_points (fun i => if (nth i binary "0"%char =? "0")%char then 1 else -1)).
    f_equal. apply (map_nth_seq (fun c => if (c =? "0")%char then 1 else -1)).
  - rewrite <- flat_map_bit_points.
    rewrite (emit_loop (length binary) (Core.nrz_i_body binary)
               (fun i => parity_level (count_bit "1" (firstn i binary)))
               (fun i => Core.bit_points i (parity_level (count_bit "1" (firstn (S i) binary)))));
      [rewrite Nat.sub_0_r; reflexivity | | lia | lia].
    intros i tr Hi. unfold Core.nrz_i_body. rewrite (count_bit_S "1" binary i Hi).
    destruct (nth i binary "0"%char =? "1")%char;
      [rewrite parity_level_add1 | rewrite Nat.add_0_r]; reflexivity.
Qed.

Lemma ami_like_step (b : list ascii) (c : ascii) (i : nat) (tr : list Point) :
  (i < length b)%nat ->
  (let (pol, tr) := (parity_level (S (count_bit c (firstn i b))), tr) in
   let (pol, voltage) :=
     if (nth i b "0"%char =? c)%char then (- pol, - pol) else (pol, 0) in
   (i, (pol, tr ++ Core.bit_points i voltage)))
  = (i, (parity_level (S (count_bit c (firstn (S i) b))),
         tr ++ Core.bit_points i (if (nth i b "0"%char =? c)%char
                                  then parity_level (count_bit c (firstn i b)) else 0))).
Proof.
  intros Hi. rewrite (count_bit_S c b i Hi).
  destruct (nth i b "0"%char =? c)%char.
  - rewrite Nat.add_1_r, <- (parity_level_S (S _)). reflexivity.
  - rewrite Nat.add_0_r. reflexivity.
Qed.

(** X8: on a valid bit string AMI draws a '0' at level 0 and a '1' at +1 or
    -1 by the parity of the '1's before it, starting with +1, so marks
    alternate; Pseudoternary is the same with the roles of '0' and '1'
    exchanged. *)
Theorem ami_levels (binary : list ascii) :
  Core.invalid_binary binary = false ->
  transmitted (Core.DigitalToDigital binary AMI)
    = level_points 0 (map (fun i => if (nth i binary "0"%char =? "1")%char
                                    then parity_level (count_bit "1" (firstn i binary))
                                    else 0)
                          (seq 0 (length binary))) /\
  transmitted (Core.DigitalToDigital binary PSEUDOTERNARY)
    = level_points 0 (map (fun i => if (nth i binary "0"%char =? "0")%char
                                    then parity_level (count_bit "0" (firstn i binary))
                                    else 0)
                          (seq 0 (length binary))).
Proof.
  intros Hv. unfold Core.DigitalToDigital. rewrite Hv. cbv beta iota zeta.
  cbn [transmitted]. rewrite <- !flat_map_bit_points. split.
  - rewrite (emit_loop (length binary) (Core.ami_body binary)
               (fun i => parity_level (S (count_bit "1" (firstn i binary))))
               (fun i => Core.bit_points i (if (nth i binary "0"%char =? "1")%char
                                            then parity_level (count_bit "1" (firstn i binary))
                                            else 0)));
      [rewrite Nat.sub_0_r; reflexivity | intros i tr Hi; apply ami_like_step, Hi | lia | lia].
  - rewrite (emit_loop (length binary) (Core.pseudoternary_body binary)
               (fun i => parity_level (S (count_bit "0" (firstn i binary))))
               (fun i => Core.bit_points i (if (nth i binary "0"%char =? "0")%char
                                            then parity_level (count_bit "0" (firstn i binary))
                                            else 0)));
      [rewrite Nat.sub_0_r; reflexivity | intros i tr Hi; apply ami_like_step, Hi | lia | lia].
Qed.

(** X9: on a valid bit string Manchester draws each bit as four points,
    starting at +1 for '0' and -1 for '1' and crossing to the opposite
    level at mid-bit; Differential Manchester draws the same shape with a
    start level that is -1 for a first '0' and +1 for a first '1', and
    then stays equal to the previous bit's start level on a '0' and
    flips on a '1'. *)
Theorem manchester_levels (binary : list ascii) :
  Core.invalid_binary binary = false ->
  transmitted (Core.DigitalToDigital binary MANCHESTER)
    = flat_map (fun i => manchester_points i
                           (if (nth i binary "0"%char =? "0")%char then 1 else -1))
               (seq 0 (length binary)) /\
  exists V : nat -> Q,
    transmitted (Core.DigitalToDigital binary DIFFERENTIAL_MANCHESTER)
      = flat_map (fun i => manchester_points i (V i)) (seq 0 (length binary)) /\
    V 0%nat = (if (nth 0 binary "0"%char =? "0")%char then -1 else 1) /\
    (forall i, (S i < length binary)%nat ->
       V (S i) = if (nth (S i) binary "0"%char =? "0")%char then V i else - V i).
Proof.
  intros Hv. unfold Core.DigitalToDigital. rewrite Hv. cbv beta iota zeta.
  cbn [transmitted]. split.
  - apply flat_map_seq_ext. intros i. unfold manchester_points.
    destruct (nth i binary "0"%char =? "0")%char; reflexivity.
  - exists (fun i => parity_level (count_bit "0" (firstn (S i) binary) + i)). split; [|split].
    + rewrite (emit_loop (length binary) (Core.diff_manchester_body binary)
                 (fun i => parity_level (count_bit "0" (firstn i binary) + i))
                 (fun i => manchester_points i
                             (parity_level (count_bit "0" (firstn (S i) binary) + i))));
        [rewrite Nat.sub_0_r; reflexivity | | lia | lia].
      intros i tr Hi. unfold Core.diff_manchester_body. rewrite (count_bit_S "0" binary i Hi).
      rewrite <- app_assoc. unfold manchester_points.
      destruct (nth i binary "0"%char =? "0")%char.
      * replace (count_bit "0" (firstn i binary) + 1 + S i)%nat
          with (S (S (count_bit "0" (firstn i binary) + i))) by lia.
        replace (count_bit "0" (firstn i binary) + 1 + i)%nat
          with (S (count_bit "0" (firstn i binary) + i)) by lia.
        rewrite !parity_level_S. reflexivity.
      * rewrite !Nat.add_0_r. replace (count_bit "0" (firstn i binary) + S i)%nat
          with (S (count_bit "0" (firstn i binary) + i)) by lia.
        rewrite parity_level_S. reflexivity.
    + destruct binary as [|c r]; [discriminate|]. cbn [firstn nth].
      unfold count_bit. cbn [filter]. destruct (c =? "0")%char; reflexivity.
    + intros i Hi. rewrite (count_bit_S "0" binary (S i) Hi).
      destruct (nth (S i) binary "0"%char =? "0")%char.
      * replace (count_bit "0" (firstn (S i) binary) + 1 + S i)%nat
          with (S (S (count_bit "0" (firstn (S i) binary) + i))) by lia.
        reflexivity.
      * rewrite Nat.add_0_r, Nat.add_succ_r, parity_level_S. reflexivity.
Qed.

Lemma not_all_bounded (P : nat -> Prop) : (forall j, P j \/ ~ P j) ->
  forall w, ~ (forall j, (j < w)%nat -> P j) -> exists j, (j < w)%nat /\ ~ P j.
Proof.
  intros Hd w. induction w as [|w IH]; intros H.
  - exfalso. apply H. intros j Hj. lia.
  - destruct (Hd w) as [Hw | Hw]; [|exists w; split; [lia | exact Hw]].
    destruct IH as (j & Hj & Hn).
    + intros Hall. apply H. intros j Hj. destruct (Nat.eq_dec j w) as [-> | Hne];
        [exact Hw | apply Hall; lia].
    + exists j. split; [lia | exact Hn].
Qed.

Lemma space_window_mark (s : list ascii) (w : nat) :
  firstn w ("0"%char :: s) <> repeat "0"%char w -> (w <= S (length s))%nat ->
  exists j, (S j < w)%nat /\ (j < length s)%nat /\ nth j s "0"%char <> "0"%char.
Proof.
  intros Hw Hl. rewrite firstn_zeros_iff in Hw.
  destruct (not_all_bounded (fun j => nth j ("0"%char :: s) "0"%char = "0"%char)
              (fun j => ltac:(destruct (ascii_dec (nth j ("0"%char :: s) "0"%char) "0"%char); [left | right]; assumption)) w) as (j & Hj & Hn).
  - intros Hall. apply Hw. split; [cbn; exact Hl | exact Hall].
  - destruct j as [|j]; [cbn in Hn; congruence|]. cbn [nth] in Hn.
    exists j. split; [lia|]. split; [|exact Hn].
    destruct (Nat.lt_ge_cases j (length s)) as [H | H]; [exact H|].
    exfalso. apply Hn. apply nth_overflow. exact H.
Qed.

Lemma Qopp_neq0 (q : Q) : ~ q == 0 -> ~ - q == 0.
Proof. intros H E. apply H. lra. Qed.

Lemma b8zs_spec_length (pol : Q) (s : list ascii) (L : list Q) :
  b8zs_spec pol s L -> length L = length s.
Proof.
  induction 1 as [pol | pol s L Hw HL IH | pol s L HL IH | pol s L Hw HL IH];
    cbn [length app]; [reflexivity | | lia | lia].
  apply firstn_zeros_iff in Hw as [Hw _]. rewrite IH, length_skipn. lia.
Qed.

Lemma b8zs_marks_nonzero (pol : Q) (s : list ascii) (L : list Q) :
  b8zs_spec pol s L -> ~ pol == 0 ->
  forall j, nth j s "0"%char <> "0"%char -> ~ nth j L 0 == 0.
Proof.
  induction 1 as [pol | pol s L Hw HL IH | pol s L HL IH | pol s L Hw HL IH];
    intros Hp j Hj.
  - destruct j; cbn in Hj; congruence.
  - apply firstn_zeros_iff in Hw as [_ Hw].
    destruct (Nat.lt_ge_cases j 8) as [Hlt | Hge]; [exfalso; apply Hj, Hw, Hlt|].
    rewrite app_nth2 by (cbn; lia). cbn [length]. apply IH; [apply Qopp_neq0, Hp|].
    rewrite nth_skipn. replace (8 + (j - 8))%nat with j by lia. exact Hj.
  - destruct j as [|j]; cbn [nth]; [apply Qopp_neq0, Hp|].
    apply IH; [apply Qopp_neq0, Hp | exact Hj].
  - destruct j as [|j]; cbn [nth] in Hj |- *; [congruence|]. apply IH; assumption.
Qed.

Lemma b8zs_no_zero_run (pol : Q) (s : list ascii) (L : list Q) :
  b8zs_spec pol s L -> ~ pol == 0 -> no_zero_run 8 L.
Proof.
  intros HS. induction HS as [pol | pol s L Hw HL IH | pol s L HL IH | pol s L Hw HL IH];
    intros Hp k Hk.
  - cbn in Hk. lia.
  - destruct (Nat.lt_ge_cases k 8) as [Hlt | Hge].
    + exists (7 - k)%nat. split; [lia|]. replace (k + (7 - k))%nat with 7%nat by lia.
      cbn. apply Qopp_neq0, Hp.
    + rewrite length_app in Hk. cbn [length] in Hk.
      destruct (IH (Qopp_neq0 _ Hp) (k - 8)%nat) as (j & Hj & Hn); [lia|].
      exists j. split; [exact Hj|]. rewrite app_nth2 by (cbn; lia). cbn [length].
      replace (k + j - 8)%nat with (k - 8 + j)%nat by lia. exact Hn.
  - destruct k as [|k].
    + exists 0%nat. split; [lia|]. cbn. apply Qopp_neq0, Hp.
    + cbn [length] in Hk. destruct (IH (Qopp_neq0 _ Hp) k) as (j & Hj & Hn); [lia|].
      exists j. split; [exact Hj | exact Hn].
  - destruct k as [|k].
    + cbn [length] in Hk. rewrite (b8zs_spec_length _ _ _ HL) in Hk.
      destruct (space_window_mark s 8 Hw ltac:(lia)) as (j & Hj & _ & Hn).
      exists (S j). split; [exact Hj|]. cbn [Nat.add nth].
      exact (b8zs_marks_nonzero _ _ _ HL Hp j Hn).
    + cbn [length] in Hk. destruct (IH Hp k) as (j & Hj & Hn); [lia|].
      exists j. split; [exact Hj | exact Hn].
Qed.

Ltac solve_ternary :=
  repeat match goal with H : _ \/ _ |- _ => destruct H end;
  repeat first [ apply Forall_nil | apply Forall_app; split | apply Forall_cons ];
  first [ left; lra | right; left; lra | right; right; lra | assumption ].

Lemma b8zs_ternary (pol : Q) (s : list ascii) (L : list Q) :
  b8zs_spec pol s L -> (pol == 1 \/ pol == -1) -> Forall ternary L.
Proof.
  unfold ternary.
  induction 1 as [pol | pol s L Hw HL IH | pol s L HL IH | pol s L Hw HL IH]; intros Hp.
  - constructor.
  - assert (Hq : - pol == 1 \/ - pol == -1) by (destruct Hp; [right | left]; lra).
    specialize (IH Hq). solve_ternary.
  - assert (Hq : - pol == 1 \/ - pol == -1) by (destruct Hp; [right | left]; lra).
    specialize (IH Hq). solve_ternary.
  - specialize (IH Hp). solve_ternary.
Qed.

Lemma hdb3_spec_length (pol : Q) (cnt : nat) (s : list ascii) (L : list Q) :
  hdb3_spec pol cnt s L -> length L = length s.
Proof.
  induction 1 as [pol cnt | pol cnt s L Hw Ev HL IH | pol cnt s L Hw Ev HL IH
                 | pol cnt s L HL IH | pol cnt s L Hw HL IH];
    cbn [length app]; try lia;
    (apply firstn_zeros_iff in Hw as [Hw _]; rewrite IH, length_skipn; lia).
Qed.

Lemma hdb3_marks_nonzero (pol : Q) (cnt : nat) (s : list ascii) (L : list Q) :
  hdb3_spec pol cnt s L -> ~ pol == 0 ->
  forall j, nth j s "0"%char <> "0"%char -> ~ nth j L 0 == 0.
Proof.
  induction 1 as [pol cnt | pol cnt s L Hw Ev HL IH | pol cnt s L Hw Ev HL IH
                 | pol cnt s L HL IH | pol cnt s L Hw HL IH];
    intros Hp j Hj.
  - destruct j; cbn in Hj; congruence.
  - apply firstn_zeros_iff in Hw as [_ Hw].
    destruct (Nat.lt_ge_cases j 4) as [Hlt | Hge]; [exfalso; apply Hj, Hw, Hlt|].
    rewrite app_nth2 by (cbn; lia). cbn [length]. apply IH; [exact Hp|].
    rewrite nth_skipn. replace (4 + (j - 4))%nat with j by lia. exact Hj.
  - apply firstn_zeros_iff in Hw as [_ Hw].
    destruct (Nat.lt_ge_cases j 4) as [Hlt | Hge]; [exfalso; apply Hj, Hw, Hlt|].
    rewrite app_nth2 by (cbn; lia). cbn [length]. apply IH; [apply Qopp_neq0, Hp|].
    rewrite nth_skipn. replace (4 + (j - 4))%nat with j by lia. exact Hj.
  - destruct j as [|j]; cbn [nth]; [apply Qopp_neq0, Hp|].
    apply IH; [apply Qopp_neq0, Hp | exact Hj].
  - destruct j as [|j]; cbn [nth] in Hj |- *; [congruence|]. apply IH; assumption.
Qed.

Lemma hdb3_no_zero_run (pol : Q) (cnt : nat) (s : list ascii) (L : list Q) :
  hdb3_spec pol cnt s L -> ~ pol == 0 -> no_zero_run 4 L.
Proof.
  intros HS. induction HS as [pol cnt | pol cnt s L Hw Ev HL IH | pol cnt s L Hw Ev HL IH
                             | pol cnt s L HL IH | pol cnt s L Hw HL IH];
    intros Hp k Hk.
  - cbn in Hk. lia.
  - destruct (Nat.lt_ge_cases k 4) as [Hlt | Hge].
    + exists (3 - k)%nat. split; [lia|]. replace (k + (3 - k))%nat with 3%nat by lia.
      cbn. exact Hp.
    + rewrite length_app in Hk. cbn [length] in Hk.
      destruct (IH Hp (k - 4)%nat) as (j & Hj & Hn); [lia|].
      exists j. split; [exact Hj|]. rewrite app_nth2 by (cbn; lia). cbn [length].
      replace (k + j - 4)%nat with (k - 4 + j)%nat by lia. exact Hn.
  - destruct (Nat.lt_ge_cases k 4) as [Hlt | Hge].
    + exists (3 - k)%nat. split; [lia|]. replace (k + (3 - k))%nat with 3%nat by lia.
      cbn. apply Qopp_neq0, Hp.
    + rewrite length_app in Hk. cbn [length] in Hk.
      destruct (IH (Qopp_neq0 _ Hp) (k - 4)%nat) as (j & Hj & Hn); [lia|].
      exists j. split; [exact Hj|]. rewrite app_nth2 by (cbn; lia). cbn [length].
      replace (k + j - 4)%nat with (k - 4 + j)%nat by lia. exact Hn.
  - destruct k as [|k].
    + exists 0%nat. split; [lia|]. cbn. apply Qopp_neq0, Hp.
    + cbn [length] in Hk. destruct (IH (Qopp_neq0 _ Hp) k) as (j & Hj & Hn); [lia|].
      exists j. split; [exact Hj | exact Hn].
  - destruct k as [|k].
    + cbn [length] in Hk. rewrite (hdb3_spec_length _ _ _ _ HL) in Hk.
      destruct (space_window_mark s 4 Hw ltac:(lia)) as (j & Hj & _ & Hn).
      exists (S j). split; [exact Hj|]. cbn [Nat.add nth].
      exact (hdb3_marks_nonzero _ _ _ _ HL Hp j Hn).
    + cbn [length] in Hk. destruct (IH Hp k) as (j & Hj & Hn); [lia|].
      exists j. split; [exact Hj | exact Hn].
Qed.

Lemma hdb3_ternary (pol : Q) (cnt : nat) (s : list ascii) (L : list Q) :
  hdb3_spec pol cnt s L -> (pol == 1 \/ pol == -1) -> Forall ternary L.
Proof.
  unfold ternary.
  induction 1 as [pol cnt | pol cnt s L Hw Ev HL IH | pol cnt s L Hw Ev HL IH
                 | pol cnt s L HL IH | pol cnt s L Hw HL IH]; intros Hp.
  - constructor.
  - specialize (IH Hp). solve_ternary.
  - assert (Hq : - pol == 1 \/ - pol == -1) by (destruct Hp; [right | left]; lra).
    specialize (IH Hq). solve_ternary.
  - assert (Hq : - pol == 1 \/ - pol == -1) by (destruct Hp; [right | left]; lra).
    specialize (IH Hq). solve_ternary.
  - specialize (IH Hp). solve_ternary.
Qed.

(** X10: on a valid bit string the B8ZS and HDB3 signals are drawn as one
    level per bit, every level in {-1, 0, +1}, and no eight (B8ZS) or four
    (HDB3) consecutive levels are all 0. *)
Theorem zero_suppression (binary : list ascii) :
  Core.invalid_binary binary = false ->
  (exists L : list Q,
     transmitted (Core.DigitalToDigital binary B8ZS) = level_points 0 L /\
     length L = length binary /\ Forall ternary L /\ no_zero_run 8 L) /\
  (exists L : list Q,
     transmitted (Core.DigitalToDigital binary HDB3) = level_points 0 L /\
     length L = length binary /\ Forall ternary L /\ no_zero_run 4 L).
Proof.
  intros Hv. unfold Core.DigitalToDigital. rewrite Hv. cbv beta iota zeta.
  cbn [transmitted]. split.
  - destruct (b8zs_loop binary (valid_bits binary Hv) (length binary) 0 (-1) [])
      as (L & HL & E); [lia | lia |].
    rewrite skipn_0 in HL. exists L. split; [exact E|].
    split; [exact (b8zs_spec_length _ _ _ HL)|].
    split; [apply (b8zs_ternary _ _ _ HL); right; reflexivity|].
    apply (b8zs_no_zero_run _ _ _ HL). discriminate.
  - destruct (hdb3_loop binary (valid_bits binary Hv) (length binary) 0 (-1) 0 [])
      as (L & HL & E); [lia | lia |].
    rewrite skipn_0 in HL. exists L. split; [exact E|].
    split; [exact (hdb3_spec_length _ _ _ _ HL)|].
    split; [apply (hdb3_ternary _ _ _ _ HL); right; reflexivity|].
    apply (hdb3_no_zero_run _ _ _ _ HL). discriminate.
Qed.

Lemma steps_within_snoc (d : Q) (A : list Q) (b : Q) :
  A <> [] -> steps_within d A -> - d <= b - last A 0 <= d ->
  steps_within d (A ++ [b]).
Proof.
  induction A as [|a A IH]; intros Hne HA Hb; [congruence|].
  destruct A as [|a' A].
  - cbn. split; [exact Hb | exact I].
  - destruct HA as [H1 H2]. change ((a :: a' :: A) ++ [b]) with (a :: ((a' :: A) ++ [b])).
    cbn [app]. split; [exact H1|]. apply IH; [discriminate | exact H2 | exact Hb].
Qed.

Lemma last_map_y (l : list Point) :
  last (map y l) 0 = y (last l default_point).
Proof.
  induction l as [|p l IH]; [reflexivity|].
  destruct l as [|q l]; [reflexivity|]. exact IH.
Qed.

Lemma rev_cons_last (l : list Point) (b : Point) (r : list Point) :
  rev l = b :: r -> last l default_point = b.
Proof.
  intros H. rewrite <- (rev_involutive l), H. cbn [rev]. apply last_last.
Qed.

Lemma hd_error_snoc {A : Type} (l : list A) (a : A) (h : A) :
  hd_error l = Some h -> hd_error (l ++ [a]) = Some h.
Proof. destruct l; [discriminate | exact (fun H => H)]. Qed.

(** [std::max(lo, std::min(hi, v))] moves at most [d] away from [a] when
    [a] is in [lo, hi] and [v] is within [d] of [a]. *)
Lemma clamp_step (lo hi a v d : Q) :
  lo <= a <= hi -> a - d <= v <= a + d -> 0 <= d ->
  - d <= std_max lo (std_min hi v) - a <= d.
Proof.
  intros Ha Hv Hd. unfold std_max, std_min.
  destruct (Qltb v hi) eqn:E1; [apply Qltb_true_iff in E1 | apply Qltb_false_iff in E1];
  [destruct (Qltb lo v) eqn:E2 | destruct (Qltb lo hi) eqn:E2];
  first [apply Qltb_true_iff in E2 | apply Qltb_false_iff in E2]; lra.
Qed.

Section DMStair.
Variables (input_signal : list Point)
  (delta sample_interval real_duration lo hi : Q).
Hypothesis Hlohi : lo <= hi.
Hypothesis Hdelta : 0 <= delta.

Lemma dm_loop_stair (fuel i : nat) (st : Core.DMState) :
  dm_stair_inv lo hi delta st ->
  dm_stair_inv lo hi delta
    (Core.dm_loop input_signal delta sample_interval real_duration lo hi fuel i st).
Proof.
  revert i st. induction fuel as [|fuel IH]; intros i st Hinv; cbn [Core.dm_loop];
    [exact Hinv|].
  destruct (Qltb _ _); [exact Hinv|]. apply IH.
  destruct Hinv as (Ha & Hh & Hl & Hlen & Hs & Hb).
  assert (Hne : Core.dm_output st <> []) by (intros E; rewrite E in Hh; discriminate).
  destruct (rev (Core.dm_output st)) as [|back r] eqn:Er;
    [exfalso; apply Hne; rewrite <- (rev_involutive (Core.dm_output st)), Er; reflexivity|].
  apply rev_cons_last in Er. subst back.
  cbv zeta. cbn [Core.approximation Core.dm_output Core.dm_transmitted].
  match goal with
  | |- context [std_max lo (std_min hi ?v)] =>
      assert (Hv : Core.approximation st - delta <= v <= Core.approximation st + delta)
        by (destruct (Qeq_bool _ _); lra);
      pose proof (clamp_step lo hi _ v delta Ha Hv Hdelta) as Hc;
      pose proof (clamp_bounds lo hi v Hlohi) as Hr;
      set (a' := std_max lo (std_min hi v)) in *
  end.
  split; [exact Hr|]. split; [apply hd_error_snoc, hd_error_snoc, Hh|].
  cbn [Core.approximation Core.dm_output Core.dm_transmitted].
  split; [rewrite last_last; reflexivity|].
  split; [rewrite !length_app, Hlen; cbn [length]; lia|].
  split.
  - rewrite !map_app. cbn [map y].
    apply steps_within_snoc.
    + intros E. apply app_eq_nil in E as [_ E]. discriminate.
    + apply steps_within_snoc.
      * intros E. apply map_eq_nil in E. exact (Hne E).
      * exact Hs.
      * rewrite last_map_y, Hl. lra.
    + rewrite last_last, Hl. exact Hc.
  - intros p Hp. apply in_app_or in Hp as [Hp | [<- | []]]; [apply Hb; exact Hp|].
    cbn [y]. destruct (Qltb _ _); [right | left]; reflexivity.
Qed.
End DMStair.

(** X11: Delta Modulation on valid parameters: every transmitted bit is 0
    or 1; the output staircase starts at (0, 0), holds two points per
    transmitted bit plus the start point and the final hold point, and two
    consecutive output levels differ by at most the step
    [amp * delta_step_size]. *)
Theorem dm_staircase (sin : Q -> Q) (freq amp : Q) (config : DMConfig) :
  0 < freq -> 0 < amp -> 0 < dm_sampling_rate config ->
  0 < delta_step_size config -> delta_step_size config <= 1 ->
  let r := Core.AnalogToDigitalDM sin freq amp config in
  (forall p, In p (transmitted r) -> y p = 0 \/ y p = 1) /\
  hd_error (output r) = Some (mkPoint 0 0) /\
  length (output r) = (2 * length (transmitted r) + 2)%nat /\
  steps_within (amp * delta_step_size config) (map y (output r)).
Proof.
  intros Hf Ha Hr Hs1 Hs2 r. subst r. unfold Core.AnalogToDigitalDM.
  rewrite (Qle_bool_false_of_lt freq 0 Hf), (Qle_bool_false_of_lt amp 0 Ha),
    (Qle_bool_false_of_lt _ 0 Hr), (Qle_bool_false_of_lt _ 0 Hs1),
    (Qltb_false_of_le 1 _ Hs2).
  cbn [orb]. cbv zeta.
  assert (Hlohi : - amp * (15 # 10) <= amp * (15 # 10)) by lra.
  assert (Hd : 0 <= amp * delta_step_size config)
    by (apply Qmult_le_0_compat; lra).
  match goal with
  | |- context [Core.dm_loop ?l ?d ?si ?rd ?lo ?hi ?f ?i ?s] =>
      assert (H0 : dm_stair_inv lo hi d s)
        by (repeat split; cbn; try lra; intros p []);
      pose proof (dm_loop_stair l d si rd lo hi Hlohi Hd f i s H0) as Hinv;
      set (st := Core.dm_loop l d si rd lo hi f i s) in *
  end.
  destruct Hinv as (_ & Hh & Hl & Hlen & Hs & Hb).
  assert (Hne : Core.dm_output st <> []) by (intros E; rewrite E in Hh; discriminate).
  destruct (rev (Core.dm_output st)) as [|back r] eqn:Er;
    [exfalso; apply Hne; rewrite <- (rev_involutive (Core.dm_output st)), Er; reflexivity|].
  apply rev_cons_last in Er. subst back.
  cbn [transmitted output].
  split; [exact Hb|]. split; [apply hd_error_snoc, Hh|].
  split; [rewrite length_app, Hlen; cbn [length]; lia|].
  rewrite map_app. cbn [map y]. apply steps_within_snoc.
  - intros E. apply map_eq_nil in E. exact (Hne E).
  - exact Hs.
  - rewrite last_map_y. lra.
Qed.

Lemma std_round_range (q : Q) (m : Z) :
  0 <= q <= inject_Z m -> exists z : Z, (0 <= z <= m)%Z /\ std_round q = inject_Z z.
Proof.
  intros [H0 H1]. unfold std_round.
  replace (Qle_bool 0 q) with true by (symmetry; apply Qle_bool_iff; exact H0).
  pose proof (Qfloor_le (q + (1 # 2))) as Hl.
  pose proof (Qlt_floor (q + (1 # 2))) as Hu.
  set (z := Qfloor (q + (1 # 2))) in *.
  exists z. split; [|reflexivity].
  assert (A : inject_Z (-1) < inject_Z z).
  { rewrite inject_Z_plus in Hu. change (inject_Z 1) with 1 in Hu.
    change (inject_Z (-1)) with (-1). lra. }
  assert (B : inject_Z z < inject_Z (m + 1)).
  { rewrite inject_Z_plus. change (inject_Z 1) with 1. lra. }
  rewrite <- Zlt_Qlt in A, B. lia.
Qed.

Section PCMQuant.
Variables (input_signal : list Point) (sample_interval real_duration amp : Q)
  (levels : Z).
Hypothesis Hamp : 0 < amp.
Hypothesis Hlev : (2 <= levels)%Z.
Hypothesis Hin : forall p, In p input_signal -> - amp <= y p <= amp.
Hypothesis Hne : input_signal <> [].

Lemma pcm_loop_pairs (fuel i : nat) (tr out : list Point) :
  Forall2 (pcm_pair amp levels) tr out ->
  let r := Core.pcm_loop input_signal sample_interval real_duration amp (1 / amp)
             (inject_Z (levels - 1)) (1 / inject_Z (levels - 1)) fuel i tr out in
  Forall2 (pcm_pair amp levels) (fst r) (snd r).
Proof.
  revert i tr out. induction fuel as [|fuel IH]; intros i tr out Hp;
    cbn [Core.pcm_loop]; [exact Hp|].
  destruct (Qltb _ _); [exact Hp|]. apply IH.
  apply Forall2_app; [exact Hp|]. constructor; [|constructor].
  set (t := std_round (Q_of_nat i * sample_interval * 1000000) / 1000000).
  pose proof (get_input_value_in_range input_signal t _ _ Hne Hin) as [Hv1 Hv2].
  set (v := Core.get_input_value_at_time input_signal t) in *.
  set (R := inject_Z (levels - 1)).
  assert (HR : 1 <= R).
  { subst R. change 1 with (inject_Z 1). rewrite <- Zle_Qle. lia. }
  assert (Hw : -1 <= v * (1 / amp) <= 1).
  { assert (E : v == v * (1 / amp) * amp) by (field; lra).
    rewrite E in Hv1, Hv2. split.
    - apply (Qmult_le_r _ _ amp Hamp). lra.
    - apply (Qmult_le_r _ _ amp Hamp). lra. }
  set (n := (v * (1 / amp) + 1) * (5 # 10)).
  assert (Hn : 0 <= n <= 1) by (subst n; set (w := v * (1 / amp)) in *; split; lra).
  assert (HnR : 0 <= n * R <= R).
  { split.
    - apply Qmult_le_0_compat; lra.
    - setoid_replace R with (1 * R) at 2 by ring.
      apply Qmult_le_compat_r; lra. }
  destruct (std_round_range (n * R) (levels - 1) HnR) as (z & Hz & Ez).
  unfold pcm_pair. cbn [x y]. split; [reflexivity|].
  split; [exists z; split; [exact Hz | exact Ez]|].
  split; [reflexivity|]. rewrite Ez.
  assert (Hu : 0 <= inject_Z z * (1 / R) <= 1).
  { assert (Hz' : 0 <= inject_Z z <= R).
    { subst R. change 0 with (inject_Z 0). rewrite <- !Zle_Qle. lia. }
    setoid_replace (inject_Z z * (1 / R)) with (inject_Z z / R)
      by (field; intros E; apply (Qlt_irrefl 0); apply (Qlt_le_trans _ 1); [reflexivity|]; rewrite <- E; exact HR).
    split.
    - apply Qle_shift_div_l; lra.
    - apply Qle_shift_div_r; lra. }
  set (u := inject_Z z * (1 / R)) in *. split.
  - setoid_replace (- amp) with ((-1) * amp) by ring.
    apply Qmult_le_compat_r; lra.
  - setoid_replace amp with (1 * amp) at 2 by ring.
    apply Qmult_le_compat_r; lra.
Qed.
End PCMQuant.

(** X12: PCM, with [std::sin] in [-1, 1]: transmitted and output points
    pair up one to one at the same time; each transmitted level is an
    integer code in [0, quantization_levels - 1], and the output point is
    that code mapped back as [(code / (levels - 1) * 2 - 1) * amp], which
    lies in [-amp, amp]. *)
Theorem pcm_quantization (sin : Q -> Q) (freq amp : Q) (config : PCMConfig) :
  (forall q, -1 <= sin q <= 1) ->
  let r := Core.AnalogToDigitalPCM sin freq amp config in
  Forall2 (pcm_pair amp (quantization_levels config)) (transmitted r) (output r).
Proof.
  intros Hsin r. subst r.
  destruct (pcm_valid_or_empty sin freq amp config) as [E | (Hf & Ha & Hr & Hl)];
    [rewrite E; constructor|].
  unfold Core.AnalogToDigitalPCM.
  rewrite (Qle_bool_false_of_lt freq 0 Hf), (Qle_bool_false_of_lt amp 0 Ha),
    (Qle_bool_false_of_lt _ 0 Hr).
  replace (Z.ltb (quantization_levels config) 2) with false
    by (symmetry; apply Z.ltb_ge; exact Hl).
  cbn [orb]. cbv zeta.
  match goal with
  | |- context [Core.pcm_loop ?l ?si ?rd ?a ?ia ?qr ?iqr ?f ?i ?t ?o] =>
      pose proof (pcm_loop_pairs l si rd amp (quantization_levels config) Ha Hl
                    (adc_input_signal_in_range sin freq amp Hsin Ha)
                    (adc_input_signal_not_nil sin freq amp) f i t o
                    (Forall2_nil _)) as H;
      destruct (Core.pcm_loop l si rd a ia qr iqr f i t o)
  end.
  exact H.
Qed.

(** [c * s] with [0 <= c <= m] and [s] in [-1, 1] lies in [-m, m]. *)
Lemma scaled_unit_bound (c s m : Q) :
  0 <= c <= m -> -1 <= s <= 1 -> - m <= c * s <= m.
Proof.
  intros [Hc0 Hcm] [Hs0 Hs1].
  assert (A : -1 * c <= s * c) by (apply Qmult_le_compat_r; assumption).
  assert (B : s * c <= 1 * c) by (apply Qmult_le_compat_r; assumption).
  rewrite Qmult_comm.
  split; lra.
Qed.

Lemma digital_input_levels (binary : list ascii) :
  Core.digital_input_signal binary
  = level_points 0 (map (fun c => if (c =? "1")%char then 1 else 0) binary).
Proof.
  unfold Core.digital_input_signal.
  rewrite (flat_map_bit_points
             (fun i => if (nth i binary "0"%char =? "1")%char then 1 else 0)).
  f_equal. apply (map_nth_seq (fun c => if (c =? "1")%char then 1 else 0)).
Qed.

Lemma level_points_length (k : nat) (L : list Q) :
  length (level_points k L) = (2 * length L)%nat.
Proof.
  revert k. induction L as [|v L IH]; intros k; [reflexivity|].
  cbn [level_points length]. rewrite length_app, IH. cbn. lia.
Qed.

Lemma pattern_points_length (i : nat) (pattern : list Q) :
  length (Core.pattern_points i pattern) = (2 * length pattern)%nat.
Proof.
  unfold Core.pattern_points. rewrite (flat_map_constant_length (c := 2%nat)).
  - rewrite length_seq. lia.
  - intros j _. reflexivity.
Qed.

(** A loop whose body consumes bits [i .. i'] and appends [k] points per
    consumed bit to the trace ends with [k] points per bit. *)
Lemma for_loop_length {A : Type} (n k : nat)
    (body : nat -> A * list Point -> nat * (A * list Point)) :
  (forall i s, (i < n)%nat ->
     (i <= fst (body i s) < n)%nat /\
     length (snd (snd (body i s))) = (length (snd s) + k * S (fst (body i s) - i))%nat) ->
  forall fuel i s, (i <= n)%nat -> (n - i <= fuel)%nat ->
  length (snd (for_loop fuel n body i s)) = (length (snd s) + k * (n - i))%nat.
Proof.
  intros Hb. induction fuel as [|fuel IH]; intros i s H1 H2; cbn [for_loop].
  - replace (n - i)%nat with 0%nat by lia. lia.
  - destruct (Nat.ltb_spec i n) as [Hi | Hi].
    + specialize (Hb i s Hi). destruct (body i s) as [i' s'] eqn:E.
      cbn [fst snd] in Hb. destruct Hb as [Hi' Hl].
      rewrite IH by lia. rewrite Hl.
      replace (n - i)%nat with (S (i' - i) + (n - S i'))%nat by lia. lia.
    + replace (n - i)%nat with 0%nat by lia. lia.
Qed.

Lemma zeros_window_bound (b : list ascii) (n i w : nat) :
  Core.zeros_window b n i w = true -> (i + (w - 1) < n)%nat.
Proof.
  unfold Core.zeros_window. destruct (Nat.ltb_spec (i + (w - 1)) n); [auto | discriminate].
Qed.

Ltac body_length :=
  intros i [st tr] Hi;
  repeat (cbv beta iota zeta; match goal with
  | |- context [if Core.zeros_window ?b ?n ?i ?w then _ else _] =>
      destruct (Core.zeros_window b n i w) eqn:Ew;
      [pose proof (zeros_window_bound _ _ _ _ Ew); cbn in *|]
  | |- context [if ?c then _ else _] => destruct c
  | |- context [let '(_, _) := ?p in _] => destruct p
  end);
  cbv beta iota zeta; cbn [fst snd]; rewrite ?length_app, ?pattern_points_length;
  cbn [length Core.bit_points]; lia.

(** X13: analog modulation, with [std::sin] in [-1, 1]: the transmitted
    points are at the times of the input points; the input lies in
    [-amp, amp]; the AM signal lies in [-1.8, 1.8] (carrier amplitude 1,
    modulation index 0.8) and the FM and PM signals in [-1, 1]. *)
Theorem analog_amplitudes (sin : Q -> Q) (freq amp : Q) (type : AnalogModulation) :
  (forall q, -1 <= sin q <= 1) ->
  let r := Core.AnalogToAnalog sin freq amp type in
  map x (transmitted r) = map x (input r) /\
  (forall p, In p (input r) -> - amp <= y p <= amp) /\
  (forall p, In p (transmitted r) ->
     let m := match type with AM => 9 # 5 | _ => 1 end in - m <= y p <= m).
Proof.
  intros Hsin r. subst r. unfold Core.AnalogToAnalog.
  destruct (Qle_bool freq 0 || Qle_bool amp 0) eqn:V;
    [split; [reflexivity | split; intros p []]|].
  apply orb_false_iff in V as [_ V]. apply Qle_bool_false_lt in V.
  cbv zeta. cbn [input transmitted].
  set (inp := map _ (seq 0 (Z.to_nat (static_cast_int (2 * inject_Z 200))))).
  assert (Hin : forall p, In p inp -> - amp <= y p <= amp).
  { intros p Hp. subst inp. apply in_map_iff in Hp as (i & <- & _). cbn [y].
    apply scaled_unit_bound; [lra | apply Hsin]. }
  split; [destruct type; rewrite map_map; reflexivity|].
  split; [exact Hin|].
  intros p Hp. destruct type; apply in_map_iff in Hp as (q & <- & Hq); cbn [y];
    [|apply scaled_unit_bound; [lra | apply Hsin]..].
  apply scaled_unit_bound; [|apply Hsin].
  destruct (Hin q Hq) as [Hq1 Hq2].
  assert (E : y q * (1 / amp) * amp == y q) by (field; lra).
  assert (Hm : -1 <= y q * (1 / amp) <= 1).
  { rewrite <- E in Hq1, Hq2. split.
    - apply (Qmult_le_r _ _ amp V). lra.
    - apply (Qmult_le_r _ _ amp V). lra. }
  set (m := y q * (1 / amp)) in *. lra.
Qed.

(** X14: digital-to-analog keying of a valid bit string, with [std::sin]
    in [-1, 1]: input and output are the same stair-step of the bits
    (level 1 for '1', 0 for '0', two points per bit); the transmitted
    signal has 101 samples per bit and lies in [-1, 1]. *)
Theorem d2a_shape (sin : Q -> Q) (binary : list ascii) (type : DigitalModulation) :
  (forall q, -1 <= sin q <= 1) -> Core.invalid_binary binary = false ->
  let r := Core.DigitalToAnalog sin binary type in
  input r = level_points 0 (map (fun c => if (c =? "1")%char then 1 else 0) binary) /\
  output r = input r /\
  length (transmitted r) = (101 * length binary)%nat /\
  (forall p, In p (transmitted r) -> -1 <= y p <= 1).
Proof.
  intros Hsin Hb r. subst r. unfold Core.DigitalToAnalog. rewrite Hb.
  cbv zeta. cbn [input output transmitted].
  split; [apply digital_input_levels|]. split; [reflexivity|]. split.
  - destruct type; (rewrite (flat_map_constant_length (c := 101%nat));
      [rewrite length_seq; lia | intros i _; rewrite length_map, length_seq; reflexivity]).
  - intros p Hp. destruct type; apply in_flat_map in Hp as (i & _ & Hp);
      apply in_map_iff in Hp as (j & <- & _); cbn [y];
      [|apply Hsin | apply Hsin].
    apply (scaled_unit_bound _ _ 1); [|apply Hsin].
    destruct (nth i binary "0"%char =? "1")%char; lra.
Qed.

(** X15: line coding of a valid bit string: input and output are the same
    stair-step of the bits; the transmitted signal has four points per bit
    for the two Manchester codes and two points per bit for the six other
    codes, B8ZS and HDB3 substitutions included. *)
Theorem d2d_shape (binary : list ascii) (type : LineCoding) :
  Core.invalid_binary binary = false ->
  let r := Core.DigitalToDigital binary type in
  input r = level_points 0 (map (fun c => if (c =? "1")%char then 1 else 0) binary) /\
  output r = input r /\
  length (transmitted r)
  = ((match type with MANCHESTER | DIFFERENTIAL_MANCHESTER => 4 | _ => 2 end)
     * length binary)%nat.
Proof.
  intros Hb r. subst r. unfold Core.DigitalToDigital. rewrite Hb.
  cbv zeta. cbn [input output transmitted].
  split; [apply digital_input_levels|]. split; [reflexivity|].
  set (n := length binary).
  destruct type.
  - rewrite (flat_map_constant_length (c := 2%nat)); [rewrite length_seq; lia|].
    intros i _. reflexivity.
  - rewrite (for_loop_length n 2 (Core.nrz_i_body binary)); [cbn; lia | | lia | lia].
    unfold Core.nrz_i_body. body_length.
  - rewrite (flat_map_constant_length (c := 4%nat)); [rewrite length_seq; lia|].
    intros i _. destruct (_ =? _)%char; reflexivity.
  - rewrite (for_loop_length n 4 (Core.diff_manchester_body binary)); [cbn; lia | | lia | lia].
    unfold Core.diff_manchester_body. body_length.
  - rewrite (for_loop_length n 2 (Core.ami_body binary)); [cbn; lia | | lia | lia].
    unfold Core.ami_body. body_length.
  - rewrite (for_loop_length n 2 (Core.pseudoternary_body binary)); [cbn; lia | | lia | lia].
    unfold Core.pseudoternary_body. body_length.
  - rewrite (for_loop_length n 2 (Core.b8zs_body binary n)); [cbn; lia | | lia | lia].
    unfold Core.b8zs_body. body_length.
  - rewrite (for_loop_length n 2 (Core.hdb3_body binary n)); [cbn; lia | | lia | lia].
    unfold Core.hdb3_body. body_length.
Qed.

(** X16: the interpolator on a non-empty sequence returns the first y at or
    before the first sample, the last y after the first sample and at or
    after the last one, and always a value between any bounds of the
    sampled y values. *)
Theorem get_input_value_edges (front : Point) (rest : list Point) (t lo hi : Q) :
  let l := front :: rest in
  (t <= x front -> Core.get_input_value_at_time l t = y front) /\
  (x front < t -> x (last l front) <= t ->
     Core.get_input_value_at_time l t = y (last l front)) /\
  ((forall p, In p l -> lo <= y p <= hi) -> lo <= Core.get_input_value_at_time l t <= hi).
Proof.
  intros l. split; [|split].
  - intros H. unfold Core.get_input_value_at_time. subst l. cbv beta iota.
    replace (Qle_bool t (x front)) with true by (symmetry; apply Qle_bool_iff; exact H).
    reflexivity.
  - intros H1 H2. unfold Core.get_input_value_at_time. subst l. cbv beta iota.
    rewrite (Qle_bool_false_of_lt _ _ H1).
    replace (Qle_bool (x (last (front :: rest) front)) t) with true
      by (symmetry; apply Qle_bool_iff; exact H2).
    reflexivity.
  - apply get_input_value_in_range. discriminate.
Qed.

(* ------------------------------------------------------------------ *)
(** * Witnesses: the claims' hypotheses hold at concrete inputs *)

Lemma sin_clip_bound : forall q, -1 <= sin_clip q <= 1.
Proof.
  intros q. unfold sin_clip.
  destruct (Qle_bool q (-1)) eqn:E1; [lra|].
  destruct (Qle_bool 1 q) eqn:E2; [lra|].
  apply Qle_bool_false_lt in E1, E2. lra.
Qed.

Lemma transport_matches_core_witness :
  (0 < 1 /\
   Service.AnalogToAnalog sin_clip (Service.mkAnalogToAnalogRequest 1 1 (a2a_selector FM))
     Service.empty_response
   = (Service.Status_OK, reply_of (Core.AnalogToAnalog sin_clip 1 1 FM))) /\
  (0 < sampling_rate (mkPCMConfig 1 2) /\ (2 <= quantization_levels (mkPCMConfig 1 2))%Z /\
   Service.AnalogToDigital sin_clip
     (Service.mkAnalogToDigitalRequest 1 1 (Some (Service.mkPCMParams 1 2)) None)
     Service.empty_response
   = (Service.Status_OK, reply_of (Core.AnalogToDigitalPCM sin_clip 1 1 (mkPCMConfig 1 2)))) /\
  (0 < delta_step_size (mkDMConfig 1 (1 # 2)) /\
   Service.AnalogToDigital sin_clip
     (Service.mkAnalogToDigitalRequest 1 1 None
        (Some (Service.mkDeltaModulationParams 1 (1 # 2))))
     Service.empty_response
   = (Service.Status_OK, reply_of (Core.AnalogToDigitalDM sin_clip 1 1 (mkDMConfig 1 (1 # 2))))) /\
  (Core.invalid_binary ["1"; "0"]%char = false /\
   Service.DigitalToAnalog sin_clip
     (Service.mkDigitalToAnalogRequest ["1"; "0"]%char (d2a_selector PSK))
     Service.empty_response
   = (Service.Status_OK, reply_of (Core.DigitalToAnalog sin_clip ["1"; "0"]%char PSK))) /\
  (Core.invalid_binary ["1"; "0"]%char = false /\
   Service.DigitalToDigital
     (Service.mkDigitalToDigitalRequest ["1"; "0"]%char (d2d_selector HDB3))
     Service.empty_response
   = (Service.Status_OK, reply_of (Core.DigitalToDigital ["1"; "0"]%char HDB3))).
Proof.
  destruct (transport_matches_core sin_clip) as (H1 & H2 & H3 & H4 & H5).
  split; [split; [vm_compute; reflexivity|]|].
  { apply (H1 1 1 FM); vm_compute; reflexivity. }
  split; [split; [vm_compute; reflexivity | split; [vm_compute; discriminate|]]|].
  { apply (H2 1 1 (mkPCMConfig 1 2)); vm_compute; first [reflexivity | discriminate]. }
  split; [split; [vm_compute; reflexivity|]|].
  { apply (H3 1 1 (mkDMConfig 1 (1 # 2))); vm_compute; first [reflexivity | discriminate]. }
  split; split; [reflexivity | | reflexivity |].
  - apply (H4 ["1"; "0"]%char PSK). reflexivity.
  - apply (H5 ["1"; "0"]%char HDB3). reflexivity.
Defined.

Lemma analog_modulation_shape_witness :
  0 < 3 /\ 0 < 2 /\
  output (Core.AnalogToAnalog sin_clip 3 2 PM) = input (Core.AnalogToAnalog sin_clip 3 2 PM) /\
  length (transmitted (Core.AnalogToAnalog sin_clip 3 2 PM))
    = length (input (Core.AnalogToAnalog sin_clip 3 2 PM)) /\
  length (input (Core.AnalogToAnalog sin_clip 3 2 PM)) = 400%nat.
Proof.
  split; [vm_compute; reflexivity | split; [vm_compute; reflexivity|]].
  apply (analog_modulation_shape sin_clip 3 2 PM); vm_compute; reflexivity.
Defined.

Lemma invalid_binary_gives_empty_witness :
  (["1"; "2"]%char = [] \/
   exists c, In c ["1"; "2"]%char /\ c <> "0"%char /\ c <> "1"%char) /\
  (forall type, Core.DigitalToAnalog sin_clip ["1"; "2"]%char type = empty_result) /\
  (forall type, Core.DigitalToDigital ["1"; "2"]%char type = empty_result) /\
  (forall type, input (Core.DigitalToAnalog sin_clip ["1"; "2"]%char type) = [] /\
                transmitted (Core.DigitalToAnalog sin_clip ["1"; "2"]%char type) = []) /\
  (forall type, input (Core.DigitalToDigital ["1"; "2"]%char type) = [] /\
                transmitted (Core.DigitalToDigital ["1"; "2"]%char type) = []).
Proof.
  assert (H : ["1"; "2"]%char = [] \/
              exists c, In c ["1"; "2"]%char /\ c <> "0"%char /\ c <> "1"%char).
  { right. exists "2"%char. split; [right; left; reflexivity | split; discriminate]. }
  split; [exact H | exact (invalid_binary_gives_empty sin_clip _ H)].
Defined.

Lemma dm_approximation_bounded_witness :
  0 < 1 /\ 0 < 2 /\ 0 < dm_sampling_rate (mkDMConfig 10 (1 # 4)) /\
  0 < delta_step_size (mkDMConfig 10 (1 # 4)) /\ delta_step_size (mkDMConfig 10 (1 # 4)) <= 1 /\
  (forall p, In p (output (Core.AnalogToDigitalDM sin_clip 1 2 (mkDMConfig 10 (1 # 4)))) ->
     - 2 * (15 # 10) <= y p <= 2 * (15 # 10)).
Proof.
  split; [vm_compute; reflexivity|]. split; [vm_compute; reflexivity|].
  split; [vm_compute; reflexivity|]. split; [vm_compute; reflexivity|].
  split; [vm_compute; discriminate|].
  apply (dm_approximation_bounded sin_clip 1 2 (mkDMConfig 10 (1 # 4)));
    vm_compute; first [reflexivity | discriminate].
Defined.

Lemma pcm_two_levels_output_witness :
  In (nth 0 (output (Core.AnalogToDigitalPCM sin_clip 1 1 (mkPCMConfig 1 2))) default_point)
     (output (Core.AnalogToDigitalPCM sin_clip 1 1 (mkPCMConfig 1 2))) /\
  (y (nth 0 (output (Core.AnalogToDigitalPCM sin_clip 1 1 (mkPCMConfig 1 2))) default_point) == 1 \/
   y (nth 0 (output (Core.AnalogToDigitalPCM sin_clip 1 1 (mkPCMConfig 1 2))) default_point) == - 1).
Proof.
  assert (H : In (nth 0 (output (Core.AnalogToDigitalPCM sin_clip 1 1 (mkPCMConfig 1 2)))
                      default_point)
                 (output (Core.AnalogToDigitalPCM sin_clip 1 1 (mkPCMConfig 1 2))))
    by (vm_compute; left; reflexivity).
  split; [exact H | exact (pcm_two_levels_output sin_clip 1 1 1 sin_clip_bound _ H)].
Defined.

Lemma pcm_sample_times_witness :
  0 < 1 /\ 0 < 2 /\ 0 < sampling_rate (mkPCMConfig 4 3) /\
  (2 <= quantization_levels (mkPCMConfig 4 3))%Z /\
  exists N : nat,
    (forall i : nat, (i < N)%nat <-> Q_of_nat i * (1 / sampling_rate (mkPCMConfig 4 3))
                                     <= 199 # 100) /\
    map x (transmitted (Core.AnalogToDigitalPCM sin_clip 1 2 (mkPCMConfig 4 3)))
      = map (pcm_tick (1 / sampling_rate (mkPCMConfig 4 3))) (seq 0 N) /\
    map x (output (Core.AnalogToDigitalPCM sin_clip 1 2 (mkPCMConfig 4 3)))
      = map (pcm_tick (1 / sampling_rate (mkPCMConfig 4 3))) (seq 0 N).
Proof.
  split; [vm_compute; reflexivity|]. split; [vm_compute; reflexivity|].
  split; [vm_compute; reflexivity|]. split; [vm_compute; discriminate|].
  apply (pcm_sample_times sin_clip 1 2 (mkPCMConfig 4 3));
    vm_compute; first [reflexivity | discriminate].
Defined.

Lemma b8zs_substitution_witness :
  Core.invalid_binary ["1"; "0"; "0"; "0"; "0"; "0"; "0"; "0"; "0"; "1"]%char = false /\
  exists L : list Q,
    transmitted (Core.DigitalToDigital
                   ["1"; "0"; "0"; "0"; "0"; "0"; "0"; "0"; "0"; "1"]%char B8ZS)
      = level_points 0 L /\
    b8zs_spec (-1) ["1"; "0"; "0"; "0"; "0"; "0"; "0"; "0"; "0"; "1"]%char L /\
    (forall u w, ["1"; "0"; "0"; "0"; "0"; "0"; "0"; "0"; "0"; "1"]%char
                   = u ++ "1"%char :: repeat "0"%char 8 ++ w ->
       let P := nth (length u) L 0 in
       firstn 8 (skipn (S (length u)) L) = [0; 0; 0; P; - P; 0; P; - P]).
Proof.
  split; [reflexivity|]. apply b8zs_substitution. reflexivity.
Defined.

Lemma hdb3_substitution_witness :
  Core.invalid_binary ["1"; "0"; "0"; "0"; "0"; "1"; "1"; "0"; "0"; "0"; "0"]%char = false /\
  exists L : list Q,
    transmitted (Core.DigitalToDigital
                   ["1"; "0"; "0"; "0"; "0"; "1"; "1"; "0"; "0"; "0"; "0"]%char HDB3)
      = level_points 0 L /\
    hdb3_spec (-1) 0 ["1"; "0"; "0"; "0"; "0"; "1"; "1"; "0"; "0"; "0"; "0"]%char L.
Proof.
  split; [reflexivity|]. apply hdb3_substitution. reflexivity.
Defined.

Lemma get_input_value_interpolates_witness :
  x_increasing [mkPoint 0 0; mkPoint 1 2; mkPoint 3 3] /\
  (S 1 < length [mkPoint 0 0; mkPoint 1 2; mkPoint 3 3])%nat /\
  (1 <= 2 <= 3) /\
  Core.get_input_value_at_time [mkPoint 0 0; mkPoint 1 2; mkPoint 3 3] 2
    == 2 + (2 - 1) / (3 - 1) * (3 - 2) /\
  Service.get_input_value_at_time [mkPoint 0 0; mkPoint 1 2; mkPoint 3 3] 2
    == 2 + (2 - 1) / (3 - 1) * (3 - 2).
Proof.
  assert (Hl : x_increasing [mkPoint 0 0; mkPoint 1 2; mkPoint 3 3]).
  { intros [|[|i]] Hi; [vm_compute; reflexivity | vm_compute; reflexivity | cbn in Hi; lia]. }
  split; [exact Hl|]. split; [cbn; lia|]. split; [split; vm_compute; discriminate|].
  apply (get_input_value_interpolates [mkPoint 0 0; mkPoint 1 2; mkPoint 3 3] 1 2 Hl);
    [cbn; lia | split; vm_compute; discriminate].
Defined.

Lemma nrz_levels_witness :
  Core.invalid_binary ["1"; "1"; "0"]%char = false /\
  transmitted (Core.DigitalToDigital ["1"; "1"; "0"]%char NRZ_L)
    = level_points 0 (map (fun c => if (c =? "0")%char then 1 else -1) ["1"; "1"; "0"]%char) /\
  transmitted (Core.DigitalToDigital ["1"; "1"; "0"]%char NRZ_I)
    = level_points 0 (map (fun i => parity_level (count_bit "1" (firstn (S i) ["1"; "1"; "0"]%char)))
                          (seq 0 (length ["1"; "1"; "0"]%char))).
Proof. split; [reflexivity|]. apply nrz_levels. reflexivity. Defined.

Lemma ami_levels_witness :
  Core.invalid_binary ["1"; "0"; "1"]%char = false /\
  transmitted (Core.DigitalToDigital ["1"; "0"; "1"]%char AMI)
    = level_points 0 (map (fun i => if (nth i ["1"; "0"; "1"]%char "0"%char =? "1")%char
                                    then parity_level (count_bit "1" (firstn i ["1"; "0"; "1"]%char))
                                    else 0)
                          (seq 0 (length ["1"; "0"; "1"]%char))) /\
  transmitted (Core.DigitalToDigital ["1"; "0"; "1"]%char PSEUDOTERNARY)
    = level_points 0 (map (fun i => if (nth i ["1"; "0"; "1"]%char "0"%char =? "0")%char
                                    then parity_level (count_bit "0" (firstn i ["1"; "0"; "1"]%char))
                                    else 0)
                          (seq 0 (length ["1"; "0"; "1"]%char))).
Proof. split; [reflexivity|]. apply ami_levels. reflexivity. Defined.

Lemma manchester_levels_witness :
  Core.invalid_binary ["0"; "1"]%char = false /\
  transmitted (Core.DigitalToDigital ["0"; "1"]%char MANCHESTER)
    = flat_map (fun i => manchester_points i
                           (if (nth i ["0"; "1"]%char "0"%char =? "0")%char then 1 else -1))
               (seq 0 (length ["0"; "1"]%char)) /\
  exists V : nat -> Q,
    transmitted (Core.DigitalToDigital ["0"; "1"]%char DIFFERENTIAL_MANCHESTER)
      = flat_map (fun i => manchester_points i (V i)) (seq 0 (length ["0"; "1"]%char)) /\
    V 0%nat = (if (nth 0 ["0"; "1"]%char "0"%char =? "0")%char then -1 else 1) /\
    (forall i, (S i < length ["0"; "1"]%char)%nat ->
       V (S i) = if (nth (S i) ["0"; "1"]%char "0"%char =? "0")%char then V i else - V i).
Proof. split; [reflexivity|]. apply manchester_levels. reflexivity. Defined.

Lemma zero_suppression_witness :
  Core.invalid_binary ["0"; "0"; "0"; "0"; "0"; "0"; "0"; "0"; "1"]%char = false /\
  (exists L : list Q,
     transmitted (Core.DigitalToDigital ["0"; "0"; "0"; "0"; "0"; "0"; "0"; "0"; "1"]%char B8ZS)
       = level_points 0 L /\
     length L = length ["0"; "0"; "0"; "0"; "0"; "0"; "0"; "0"; "1"]%char /\
     Forall ternary L /\ no_zero_run 8 L) /\
  (exists L : list Q,
     transmitted (Core.DigitalToDigital ["0"; "0"; "0"; "0"; "0"; "0"; "0"; "0"; "1"]%char HDB3)
       = level_points 0 L /\
     length L = length ["0"; "0"; "0"; "0"; "0"; "0"; "0"; "0"; "1"]%char /\
     Forall ternary L /\ no_zero_run 4 L).
Proof. split; [reflexivity|]. apply zero_suppression. reflexivity. Defined.

Lemma dm_staircase_witness :
  0 < 1 /\ 0 < 2 /\ 0 < dm_sampling_rate (mkDMConfig 10 (1 # 4)) /\
  0 < delta_step_size (mkDMConfig 10 (1 # 4)) /\ delta_step_size (mkDMConfig 10 (1 # 4)) <= 1 /\
  let r := Core.AnalogToDigitalDM sin_clip 1 2 (mkDMConfig 10 (1 # 4)) in
  (forall p, In p (transmitted r) -> y p = 0 \/ y p = 1) /\
  hd_error (output r) = Some (mkPoint 0 0) /\
  length (output r) = (2 * length (transmitted r) + 2)%nat /\
  steps_within (2 * delta_step_size (mkDMConfig 10 (1 # 4))) (map y (output r)).
Proof.
  split; [vm_compute; reflexivity|]. split; [vm_compute; reflexivity|].
  split; [vm_compute; reflexivity|]. split; [vm_compute; reflexivity|].
  split; [vm_compute; discriminate|].
  apply (dm_staircase sin_clip 1 2 (mkDMConfig 10 (1 # 4)));
    vm_compute; first [reflexivity | discriminate].
Defined.

Lemma pcm_quantization_witness :
  (forall q, -1 <= sin_clip q <= 1) /\
  let r := Core.AnalogToDigitalPCM sin_clip 1 2 (mkPCMConfig 4 8) in
  Forall2 (pcm_pair 2 (quantization_levels (mkPCMConfig 4 8))) (transmitted r) (output r).
Proof.
  split; [exact sin_clip_bound|].
  exact (pcm_quantization sin_clip 1 2 (mkPCMConfig 4 8) sin_clip_bound).
Defined.

Lemma analog_amplitudes_witness :
  (forall q, -1 <= sin_clip q <= 1) /\
  let r := Core.AnalogToAnalog sin_clip 3 2 AM in
  map x (transmitted r) = map x (input r) /\
  (forall p, In p (input r) -> - 2 <= y p <= 2) /\
  (forall p, In p (transmitted r) -> - (9 # 5) <= y p <= 9 # 5).
Proof.
  split; [exact sin_clip_bound|].
  exact (analog_amplitudes sin_clip 3 2 AM sin_clip_bound).
Defined.

Lemma d2a_shape_witness :
  (forall q, -1 <= sin_clip q <= 1) /\
  Core.invalid_binary ["1"; "0"]%char = false /\
  let r := Core.DigitalToAnalog sin_clip ["1"; "0"]%char ASK in
  input r = level_points 0 (map (fun c => if (c =? "1")%char then 1 else 0) ["1"; "0"]%char) /\
  output r = input r /\
  length (transmitted r) = (101 * length ["1"; "0"]%char)%nat /\
  (forall p, In p (transmitted r) -> -1 <= y p <= 1).
Proof.
  split; [exact sin_clip_bound|]. split; [reflexivity|].
  apply (d2a_shape sin_clip ["1"; "0"]%char ASK sin_clip_bound). reflexivity.
Defined.

Lemma d2d_shape_witness :
  Core.invalid_binary ["1"; "0"; "1"]%char = false /\
  let r := Core.DigitalToDigital ["1"; "0"; "1"]%char DIFFERENTIAL_MANCHESTER in
  input r = level_points 0 (map (fun c => if (c =? "1")%char then 1 else 0) ["1"; "0"; "1"]%char) /\
  output r = input r /\
  length (transmitted r) = (4 * length ["1"; "0"; "1"]%char)%nat.
Proof.
  split; [reflexivity|].
  apply (d2d_shape ["1"; "0"; "1"]%char DIFFERENTIAL_MANCHESTER). reflexivity.
Defined.
